(** * Teachforall-Insights: transcript search and conversation bookkeeping

    A shallow embedding of [server.js]: the text utilities, the date and
    filename-timestamp parsing, the transcript search over a file-system
    snapshot or a Drive listing, the two in-memory conversation stores and
    the [ask] / [asktranscript] handlers; then the password protection (the
    same in [middleware.js]), the language-model call, the listing of the
    Drive folder, the query of the data store and the record of a note.  The
    properties follow: those the specification states, and further ones read
    off the code. *)

From Stdlib Require Import ZArith NArith QArith Qround Qabs Lia Bool.
From Stdlib Require Import Ascii String DecimalString.
From Stdlib Require Import Sorting.Sorted Sorting.Permutation.
From stdpp Require Import base option list gmap strings.

Local Open Scope Z_scope.

(** ** JavaScript strings

    A JavaScript string is a sequence of UTF-16 code units; [length],
    [slice] and [indexOf] all count code units, so strings are modelled as
    lists of code units. *)

Abbreviation jsstring := (list N).

(** The code units of an ASCII literal. *)
Definition lit (s : string) : jsstring :=
  map N_of_ascii (list_ascii_of_string s).

(** [WhiteSpace] and [LineTerminator] code units: the set matched by the
    regular-expression class [\s] and stripped by [String.prototype.trim]. *)
Definition is_space (c : N) : bool :=
  ((9 <=? c) && (c <=? 13) || (c =? 32) || (c =? 160) || (c =? 5760)
   || (8192 <=? c) && (c <=? 8202) || (c =? 8232) || (c =? 8233)
   || (c =? 8239) || (c =? 8287) || (c =? 12288) || (c =? 65279))%N.

(** [\d] *)
Definition is_digit (c : N) : bool := ((48 <=? c) && (c <=? 57))%N.

(** [\w]: [A-Za-z0-9_] *)
Definition is_word (c : N) : bool :=
  ((65 <=? c) && (c <=? 90) || (97 <=? c) && (c <=? 122)
   || is_digit c || (c =? 95))%N.

Fixpoint trimStart (s : jsstring) : jsstring :=
  match s with
  | c :: s' => if is_space c then trimStart s' else s
  | [] => []
  end.

Definition trimEnd (s : jsstring) : jsstring := rev (trimStart (rev s)).

(** [s.trim()] *)
Definition trim (s : jsstring) : jsstring := trimEnd (trimStart s).

(** Three functions of the language take their results from tables of the
    runtime: the case mapping of Unicode, the collation of the locale, and
    the date formats that [Date.parse] reads besides the one the language
    definition fixes.  They are the operations of a class: the definitions
    below call them as the source does, and the properties hold for every
    runtime. *)
Class Runtime := {
  (** [s.toLowerCase()] *)
  toLowerCase : jsstring -> jsstring;
  (** [a.localeCompare(b)]: [Lt] for a negative number, [Eq] for zero and
      [Gt] for a positive number *)
  localeCompare : jsstring -> jsstring -> comparison;
  (** [Date.parse(s)] for every string [s] but the complete date-time
      strings with legal fields, which [date_time_string] reads; [None] is
      [NaN] *)
  Date_parse_other : jsstring -> option Z
}.

(** [s.startsWith(p)] *)
Fixpoint startsWith (p s : jsstring) : bool :=
  match p, s with
  | [], _ => true
  | a :: p', b :: s' => (a =? b)%N && startsWith p' s'
  | _ :: _, [] => false
  end.

(** [s.endsWith(p)] *)
Definition endsWith (p s : jsstring) : bool := startsWith (rev p) (rev s).

Fixpoint indexOf_from (i : Z) (w h : jsstring) : Z :=
  if startsWith w h then i
  else match h with
       | [] => -1
       | _ :: h' => indexOf_from (i + 1) w h'
       end.

(** [h.indexOf(w)]: the first position of [w] in [h], or [-1]. *)
Definition indexOf (h w : jsstring) : Z := indexOf_from 0 w h.

(** [s.replace(/\s+/g, " ")]: every maximal run of white space becomes one
    space. *)
Fixpoint collapse_from (in_run : bool) (s : jsstring) : jsstring :=
  match s with
  | [] => []
  | c :: s' =>
      if is_space c
      then (if in_run then collapse_from true s' else 32%N :: collapse_from true s')
      else c :: collapse_from false s'
  end.

Definition collapse_spaces (s : jsstring) : jsstring := collapse_from false s.

(** [s.slice(0, n)] for a non-negative integer [n] *)
Definition slice_to (n : nat) (s : jsstring) : jsstring := take n s.

(** [xs.join(sep)] *)
Fixpoint join (sep : jsstring) (xs : list jsstring) : jsstring :=
  match xs with
  | [] => []
  | [x] => x
  | x :: xs' => x ++ sep ++ join sep xs'
  end.

(** [String(n)] for a natural number *)
Definition string_of_nat (n : nat) : jsstring :=
  lit (NilEmpty.string_of_uint (Nat.to_uint n)).

(** [v || d] where [v] is a request parameter: a missing or empty string is
    falsy. *)
Definition or_default (v : option jsstring) (d : jsstring) : jsstring :=
  match v with
  | Some (c :: s) => c :: s
  | _ => d
  end.

(** ** Constants *)

Definition MODEL_SYNTH : jsstring := lit "gemini-2.0-flash".
Definition PREVIEW_LEN : nat := 700.
Definition ANSWER_LEN : nat := 1800.
Definition MAX_CONTENT_CHECKS : Z := 200.
Definition MAX_TRANSCRIPT_CHARS : nat := 120000.
Definition MAX_CONVERSATION_HISTORY : nat := 20.

(** The suffix literal of [clip] and [makePreview], as it stands in the
    source text: the three code units U+201A, U+00C4, U+00B6. *)
Definition CLIP_SUFFIX : jsstring := [8218; 196; 182]%N.

(** [clip(s, n)] *)
Definition clip (s : jsstring) (n : nat) : jsstring :=
  if (n <? length s)%nat then slice_to (n - 1) s ++ CLIP_SUFFIX else s.

(** [makePreview(text, maxLen)] *)
Definition makePreview (text : jsstring) (maxLen : nat) : jsstring :=
  let t := trim (collapse_spaces text) in
  if (maxLen <? length t)%nat then slice_to (maxLen - 1) t ++ CLIP_SUFFIX else t.

(** ** Errors

    A thrown [Error] with its [name] and [message]. *)

Record exn := Exn { ename : jsstring; emessage : jsstring }.

(** [new Error(msg)] *)
Definition Error (msg : jsstring) : exn := Exn (lit "Error") msg.

(** [String(err)], that is [Error.prototype.toString] *)
Definition String_of_exn (e : exn) : jsstring :=
  match ename e, emessage e with
  | [], msg => msg
  | name, [] => name
  | name, msg => name ++ lit ": " ++ msg
  end.

Inductive result (A : Type) : Type :=
| Ok (a : A)
| Throw (e : exn).
Arguments Ok {A} a.
Arguments Throw {A} e.

(** ** Conversation stores

    Two process-wide [Map]s keyed by session id. A handler obtains the
    session's object with [get...] and mutates it in place; in the model the
    handler writes the object back under the same key at each point where
    the source mutates it. *)

Inductive role := User | Model.

Record turn := Turn { role_of : role; text : jsstring }.

Record conversation := Conversation {
  history : list turn;
  context : option jsstring      (* [null] or the filters key *)
}.

Record transcript_conversation := TranscriptConversation {
  t_history : list turn;
  transcriptId : option jsstring (* [null] or the transcript id *)
}.

Record stores := Stores {
  conversations : gmap jsstring conversation;
  transcriptConversations : gmap jsstring transcript_conversation
}.

Definition fresh_conversation : conversation := Conversation [] None.
Definition fresh_transcript_conversation : transcript_conversation :=
  TranscriptConversation [] None.

(** [getConversation(sessionId)]: the session's object and the store after
    the call. *)
Definition getConversation (sessionId : jsstring)
    (m : gmap jsstring conversation) : conversation * gmap jsstring conversation :=
  match m !! sessionId with
  | Some c => (c, m)
  | None => (fresh_conversation, <[sessionId := fresh_conversation]> m)
  end.

(** [clearConversation(sessionId)]; the returned object is [{cleared: true}]. *)
Definition clearConversation (sessionId : jsstring)
    (m : gmap jsstring conversation) : gmap jsstring conversation :=
  delete sessionId m.

Definition getTranscriptConversation (sessionId : jsstring)
    (m : gmap jsstring transcript_conversation)
  : transcript_conversation * gmap jsstring transcript_conversation :=
  match m !! sessionId with
  | Some c => (c, m)
  | None => (fresh_transcript_conversation,
             <[sessionId := fresh_transcript_conversation]> m)
  end.

Definition clearTranscriptConversation (sessionId : jsstring)
    (m : gmap jsstring transcript_conversation)
  : gmap jsstring transcript_conversation :=
  delete sessionId m.

(** [conversation.history.push(user); conversation.history.push(model);]
    followed by the trimming [if (length > MAX * 2) history = history.slice(-MAX * 2)]. *)
Definition push_turns (h : list turn) (prompt answer : jsstring) : list turn :=
  let h' := h ++ [Turn User prompt; Turn Model answer] in
  if (MAX_CONVERSATION_HISTORY * 2 <? length h')%nat
  then drop (length h' - MAX_CONVERSATION_HISTORY * 2) h'
  else h'.

(** ** Numbers

    The only numbers that are not integers by construction are the request's
    [limit] parameters. A number is [NaN], an infinity, or a finite double,
    held as the rational it is, in lowest terms; the two zeros are one. *)

Inductive jsnum :=
| NaN
| PosInf
| NegInf
| Num (q : Q).

Definition num_of_Z (z : Z) : jsnum := Num (inject_Z z).

(** The [e] with [2^e <= q < 2^(e+1)], for a positive [q]. *)
Definition binade (q : Q) : Z :=
  let e := Z.log2 (Qnum q) - Z.log2 (Z.pos (Qden q)) in
  if Qle_bool (Qpower (inject_Z 2) e) q then e else e - 1.

(** The integer nearest to [q]; of two that are as near, the even one. *)
Definition round_half_even (q : Q) : Z :=
  let f := Qfloor q in
  match Qcompare (q - inject_Z f)%Q (1 # 2) with
  | Lt => f
  | Gt => f + 1
  | Eq => if Z.even f then f else f + 1
  end.

(** The double nearest to the real number [q], ties going to the even
    significand: 53 bits above [2^-1022], steps of [2^-1074] below, and an
    infinity from [2^1024] on, as the language definition rounds the value
    of a numeric literal. *)
Definition round_to_double (q : Q) : jsnum :=
  if Qeq_bool q 0 then Num 0
  else
    let a := Qabs q in
    let ulp := Qpower (inject_Z 2) (Z.max (binade a) (-1022) - 52) in
    let r := (inject_Z (round_half_even (a / ulp)) * ulp)%Q in
    if Qle_bool (Qpower (inject_Z 2) 1024) r
    then (if 0 <? Qnum q then PosInf else NegInf)
    else Num (Qred (if 0 <? Qnum q then r else (- r)%Q)).

Fixpoint span_while (p : N -> bool) (s : jsstring) : jsstring * jsstring :=
  match s with
  | c :: s' => if p c then let '(a, b) := span_while p s' in (c :: a, b)
               else ([], s)
  | [] => ([], [])
  end.

Definition digit_val (c : N) : Z := Z.of_N c - 48.

(** Value of a run of decimal digits, most significant first. *)
Definition digits_value (ds : jsstring) : Z :=
  fold_left (fun acc c => 10 * acc + digit_val c) ds 0.

Definition is_radix_digit (radix : N) (c : N) : bool :=
  (is_digit c && (c <? 48 + N.min radix 10)
   || (10 <? radix) && ((97 <=? c) && (c <? 87 + radix)
                        || (65 <=? c) && (c <? 55 + radix)))%N.

Definition radix_digit_val (c : N) : Z :=
  if is_digit c then Z.of_N c - 48
  else if (97 <=? c)%N then Z.of_N c - 87 else Z.of_N c - 55.

Definition radix_value (radix : Z) (ds : jsstring) : Z :=
  fold_left (fun acc c => radix * acc + radix_digit_val c) ds 0.

(** [0x..], [0o..], [0b..] literals *)
Definition parse_radix_literal (s : jsstring) : option jsnum :=
  match s with
  | 48%N :: x :: ds =>
      let radix :=
        if ((x =? 120) || (x =? 88))%N then Some 16%N
        else if ((x =? 111) || (x =? 79))%N then Some 8%N
        else if ((x =? 98) || (x =? 66))%N then Some 2%N
        else None in
      match radix, ds with
      | Some r, _ :: _ =>
          if forallb (is_radix_digit r) ds
          then Some (round_to_double (inject_Z (radix_value (Z.of_N r) ds)))
          else None
      | _, _ => None
      end
  | _ => None
  end.

(** The optional exponent part [e[+-]digits]; [None] when what follows the
    mantissa is not an exponent part reaching the end of the literal. *)
Definition parse_exponent (s : jsstring) : option Z :=
  match s with
  | [] => Some 0
  | e :: s1 =>
      if ((e =? 101) || (e =? 69))%N then
        let '(neg, s2) :=
          match s1 with
          | 45%N :: s2 => (true, s2)
          | 43%N :: s2 => (false, s2)
          | _ => (false, s1)
          end in
        match span_while is_digit s2 with
        | (d :: ds, []) =>
            Some (if neg then - digits_value (d :: ds) else digits_value (d :: ds))
        | _ => None
        end
      else None
  end.

(** [StrUnsignedDecimalLiteral]: [Infinity], [digits[.digits][exp]] or
    [.digits[exp]]. *)
Definition parse_unsigned_decimal (s : jsstring) : option jsnum :=
  if decide (s = lit "Infinity") then Some PosInf else
  let '(ip, s1) := span_while is_digit s in
  let '(fp, s2, dot) :=
    match s1 with
    | 46%N :: s1' => let '(fp, s2) := span_while is_digit s1' in (fp, s2, true)
    | _ => ([], s1, false)
    end in
  match ip, fp with
  | [], [] => None
  | _, _ =>
      match parse_exponent s2 with
      | Some e =>
          Some (round_to_double
                  (inject_Z (digits_value (ip ++ fp))
                   * Qpower (inject_Z 10) (e - Z.of_nat (length fp))))
      | None => None
      end
  end.

Definition jsnum_neg (n : jsnum) : jsnum :=
  match n with
  | NaN => NaN
  | PosInf => NegInf
  | NegInf => PosInf
  | Num q => Num (- q)
  end.

(** [Number(s)] for a string [s]: the value of the literal, rounded to a
    double. *)
Definition Number_of_string (s : jsstring) : jsnum :=
  match trim s with
  | [] => num_of_Z 0
  | t =>
      match parse_radix_literal t with
      | Some n => n
      | None =>
          match t with
          | 45%N :: u => from_option jsnum_neg NaN (parse_unsigned_decimal u)
          | 43%N :: u => default NaN (parse_unsigned_decimal u)
          | _ => default NaN (parse_unsigned_decimal t)
          end
      end
  end.

(** [Number(v || d)] for a request parameter [v] and a numeric default [d] *)
Definition Number_or (v : option jsstring) (d : Z) : jsnum :=
  match v with
  | Some (c :: s) => Number_of_string (c :: s)
  | _ => num_of_Z d
  end.

(** [Math.min(a, b)] *)
Definition Math_min (a b : jsnum) : jsnum :=
  match a, b with
  | NaN, _ | _, NaN => NaN
  | NegInf, _ | _, NegInf => NegInf
  | PosInf, x | x, PosInf => x
  | Num p, Num q => Num (if Qle_bool p q then p else q)
  end.

(** [n >= x] for an array length [n] *)
Definition length_ge (n : nat) (x : jsnum) : bool :=
  match x with
  | NaN => false
  | PosInf => false
  | NegInf => true
  | Num q => Qle_bool q (inject_Z (Z.of_nat n))
  end.

(** [xs.slice(0, x)]: [x] is truncated to an integer ([NaN] to [0]); a
    negative end counts from the end of the array. *)
Definition slice_0 {A : Type} (x : jsnum) (xs : list A) : list A :=
  match x with
  | NaN => []
  | PosInf => xs
  | NegInf => []
  | Num q =>
      let k := Z.quot (Qnum q) (Z.pos (Qden q)) in
      if k <? 0 then take (Z.to_nat (Z.of_nat (length xs) + k)) xs
      else take (Z.to_nat k) xs
  end.

(** ** Requests, rows and prompts *)

(** [req.query]: every parameter is absent or a string. *)
Record query := Query {
  q_action : option jsstring;
  q_sessionId : option jsstring;
  q_from : option jsstring;
  q_to : option jsstring;
  q_type : option jsstring;
  q_countries : option jsstring;
  q_topic : option jsstring;
  q_limit : option jsstring;
  q_style : option jsstring;
  q_question : option jsstring;
  q_q : option jsstring;
  q_id : option jsstring;
  q_keywords : option jsstring
}.

Definition empty_query : query :=
  Query None None None None None None None None None None None None None.

(** The [params] object built by the [ask] action. *)
Record params := Params {
  p_from : jsstring;
  p_to : jsstring;
  p_type : jsstring;
  p_countries : jsstring;
  p_topic : jsstring;
  p_limit : jsnum;
  p_style : jsstring;
  p_question : jsstring
}.

(** A row as [fetchFromSupabase] returns it. *)
Record row := Row {
  title : jsstring;
  date_iso : jsstring;
  summary_text : jsstring;
  countries : jsstring;
  type_ : jsstring;
  message_id : jsstring;
  file_path : jsstring;
  source_url : jsstring
}.

Record fetched := Fetched {
  rows : list row;
  restUrl : jsstring;
  sqlApprox : jsstring;
  filters : jsstring
}.

Definition NL : jsstring := [10%N].

Definition hex_digit (n : N) : N := (if n <? 10 then 48 + n else 87 + n)%N.

Definition unicode_escape (c : N) : jsstring :=
  lit "\u" ++ [hex_digit (c / 4096); hex_digit ((c / 256) mod 16);
               hex_digit ((c / 16) mod 16); hex_digit (c mod 16)]%N.

Definition is_high_surrogate (c : N) : bool := ((55296 <=? c) && (c <=? 56319))%N.
Definition is_low_surrogate (c : N) : bool := ((56320 <=? c) && (c <=? 57343))%N.

Definition quote_unit (c : N) : jsstring :=
  if (c =? 8)%N then lit "\b"
  else if (c =? 9)%N then lit "\t"
  else if (c =? 10)%N then lit "\n"
  else if (c =? 12)%N then lit "\f"
  else if (c =? 13)%N then lit "\r"
  else if (c =? 34)%N then [92; 34]%N
  else if (c =? 92)%N then [92; 92]%N
  else if (c <? 32)%N || is_high_surrogate c || is_low_surrogate c
       then unicode_escape c
  else [c].

Fixpoint quote_units (s : jsstring) : jsstring :=
  match s with
  | [] => []
  | c :: s' =>
      if is_high_surrogate c then
        match s' with
        | d :: s'' =>
            if is_low_surrogate d then c :: d :: quote_units s''
            else unicode_escape c ++ quote_units s'
        | [] => unicode_escape c
        end
      else quote_unit c ++ quote_units s'
  end.

(** [JSON.stringify(s)] for a string *)
Definition JSON_string (s : jsstring) : jsstring := [34%N] ++ quote_units s ++ [34%N].

(** [JSON.stringify({ from, to, type, countries, topic })] *)
Definition filtersKey_of (p : params) : jsstring :=
  lit "{" ++ JSON_string (lit "from") ++ lit ":" ++ JSON_string (p_from p)
  ++ lit "," ++ JSON_string (lit "to") ++ lit ":" ++ JSON_string (p_to p)
  ++ lit "," ++ JSON_string (lit "type") ++ lit ":" ++ JSON_string (p_type p)
  ++ lit "," ++ JSON_string (lit "countries") ++ lit ":" ++ JSON_string (p_countries p)
  ++ lit "," ++ JSON_string (lit "topic") ++ lit ":" ++ JSON_string (p_topic p)
  ++ lit "}".

(** The literals of [buildPromptSimple] that are not ASCII, as they stand in
    the source text. *)
Definition LE_SIGN : jsstring := [8218; 226; 167]%N.
Definition DASH : jsstring := [8218; 196; 238]%N.

(** One entry of the items block of [buildPromptSimple]; [i] is the index
    in [items]. *)
Definition item_entry (i : nat) (it : row) : jsstring :=
  lit "[" ++ string_of_nat (i + 1) ++ lit "] " ++ title it
  ++ lit " " ++ DASH ++ lit " " ++ date_iso it
  ++ (match countries it with
      | [] => []
      | cs => lit " " ++ DASH ++ lit " " ++ cs
      end)
  ++ NL ++ clip (collapse_spaces (summary_text it)) PREVIEW_LEN.

Definition itemsBlock (items : list row) : jsstring :=
  join (NL ++ NL) (imap item_entry items).

Definition brevity (style : jsstring) : jsstring :=
  if decide (style = lit "short")
  then lit "Keep the answer concise (" ++ LE_SIGN ++ lit " 150 words)."
  else lit "Be reasonably thorough (" ++ LE_SIGN ++ lit " "
       ++ string_of_nat ANSWER_LEN ++ lit " characters).".

(** [buildPromptSimple(question, items, style)] *)
Definition buildPromptSimple (question : jsstring) (items : list row)
    (style : jsstring) : jsstring :=
  join NL [
    lit "Answer the user's question using ONLY the Items below.";
    [];
    lit "FORMATTING RULES (MUST FOLLOW):";
    lit "- Return clean HTML only (no Markdown fences or code blocks)";
    lit "- ALWAYS use bullet points (<ul><li>) for lists of items or updates";
    lit "- ALWAYS use <strong> tags to bold key names, dates, topics, and important terms";
    lit "- Use <h4> for section headers when organizing multiple topics";
    lit "- Keep paragraphs short and scannable";
    lit "- When citing sources, use [n] format with the number in bold: <strong>[1]</strong>";
    lit "- Example format:";
    lit "  <h4>Topic Name</h4>";
    lit "  <ul>";
    lit "    <li><strong>Key Person</strong> discussed <strong>Important Topic</strong> on <strong>Date</strong> [1]</li>";
    lit "  </ul>";
    [];
    lit "CONTEXT:";
    lit "My name is Jeff Kern, and I am a Network Engagement Lead at Teach For All. Any references to 'Jeff' refer to me. I manage relationships with partner organizations in the European region (Ukraine, Latvia, Slovakia, Italy, Spain, Portugal) and early-stage partners (Albania, Moldova). I work with CEOs to deepen network engagement and foster collaborative learning.";
    [];
    brevity style;
    [];
    lit "Question:"; trim question;
    [];
    lit "Items:"; itemsBlock items;
    [];
    lit "Remember: Use bullets and bold formatting. Make it easy to scan."
  ].

(** The follow-up template of the [ask] action. *)
Definition followUpPrompt (question : jsstring) : jsstring :=
  lit "Follow-up question (use the same data context from our conversation):"
  ++ NL ++ NL ++ question ++ NL ++ NL
  ++ lit "Remember to return clean HTML and cite sources using [n] format if relevant.".

Definition TRIPLE_QUOTE : jsstring := [34; 34; 34]%N.

(** The first-turn prompt of [askTranscript]. *)
Definition transcriptPrompt (q truncatedText : jsstring) : jsstring :=
  join NL [
    lit "You answer questions about a meeting transcript.";
    [];
    lit "FORMATTING RULES (MUST FOLLOW):";
    lit "- Return clean HTML only (no Markdown fences or code blocks)";
    lit "- ALWAYS use bullet points (<ul><li>) for lists";
    lit "- ALWAYS use <strong> tags to bold key names, dates, topics, and important terms";
    lit "- Use <h4> for section headers when organizing multiple topics";
    lit "- Keep paragraphs short and scannable";
    lit "- Example format:";
    lit "  <h4>Topic Name</h4>";
    lit "  <ul>";
    lit "    <li><strong>Person Name</strong> discussed <strong>Topic</strong></li>";
    lit "  </ul>";
    [];
    lit "If not clearly in the transcript, say so briefly.";
    [];
    lit "CONTEXT: My name is Jeff Kern, Network Engagement Lead at Teach For All. I manage European region partners (Ukraine, Latvia, Slovakia, Italy, Spain, Portugal) and early-stage partners (Albania, Moldova).";
    [];
    lit "Question:"; q;
    [];
    lit "Transcript:"; TRIPLE_QUOTE; truncatedText; TRIPLE_QUOTE;
    [];
    lit "Remember: Use bullets and bold formatting. Make it easy to scan."
  ].

(** The follow-up template of [askTranscript]. *)
Definition transcriptFollowUpPrompt (q : jsstring) : jsstring :=
  lit "Follow-up question about the same transcript:" ++ NL ++ NL ++ q
  ++ NL ++ NL
  ++ lit "Remember: Return clean HTML with bullets and bold formatting. Make it easy to scan.".

(** ** Handlers as interaction trees

    A handler is a finite tree of the outside calls it awaits: the data
    store query and insert, the language-model call and the two ways of
    reading a transcript.  Each call either returns or throws; the continuation
    carries the stores as they stand at that point, so what a handler has
    already written stays written when a later call throws. *)

Inductive io (A : Type) : Type :=
| Ret (a : A)
| FetchFromSupabase (p : params) (k : result fetched -> io A)
| Gemini (model userText : jsstring) (conversationHistory : list turn)
         (k : result jsstring -> io A)
| FsReadFile (path : jsstring) (k : result jsstring -> io A)
| GdriveReadFile (fileId : jsstring) (k : result jsstring -> io A)
| AddNoteToMeetings (p : query) (k : result jsstring -> io A).
Arguments Ret {A} a.
Arguments FetchFromSupabase {A} p k.
Arguments Gemini {A} model userText conversationHistory k.
Arguments FsReadFile {A} path k.
Arguments GdriveReadFile {A} fileId k.
Arguments AddNoteToMeetings {A} p k.

(** What the outside answers to each call. *)
Record env := Env {
  on_fetch : params -> result fetched;
  on_gemini : jsstring -> jsstring -> list turn -> result jsstring;
  on_fs_read : jsstring -> result jsstring;
  on_gdrive_read : jsstring -> result jsstring;
  on_add_note : query -> result jsstring
}.

Fixpoint run {A : Type} (e : env) (m : io A) : A :=
  match m with
  | Ret a => a
  | FetchFromSupabase p k => run e (k (on_fetch e p))
  | Gemini model u h k => run e (k (on_gemini e model u h))
  | FsReadFile path k => run e (k (on_fs_read e path))
  | GdriveReadFile fileId k => run e (k (on_gdrive_read e fileId))
  | AddNoteToMeetings p k => run e (k (on_add_note e p))
  end.

Fixpoint io_bind {A B : Type} (m : io A) (f : A -> io B) : io B :=
  match m with
  | Ret a => f a
  | FetchFromSupabase p k => FetchFromSupabase p (fun r => io_bind (k r) f)
  | Gemini model u h k => Gemini model u h (fun r => io_bind (k r) f)
  | FsReadFile path k => FsReadFile path (fun r => io_bind (k r) f)
  | GdriveReadFile fileId k => GdriveReadFile fileId (fun r => io_bind (k r) f)
  | AddNoteToMeetings p k => AddNoteToMeetings p (fun r => io_bind (k r) f)
  end.

(** The outside calls of a run, in order. *)
Inductive call :=
| CFetch (p : params)
| CGemini (model userText : jsstring) (conversationHistory : list turn)
| CFsRead (path : jsstring)
| CGdriveRead (fileId : jsstring)
| CAddNote (p : query).

Fixpoint calls {A : Type} (e : env) (m : io A) : list call :=
  match m with
  | Ret _ => []
  | FetchFromSupabase p k => CFetch p :: calls e (k (on_fetch e p))
  | Gemini model u h k => CGemini model u h :: calls e (k (on_gemini e model u h))
  | FsReadFile path k => CFsRead path :: calls e (k (on_fs_read e path))
  | GdriveReadFile fileId k => CGdriveRead fileId :: calls e (k (on_gdrive_read e fileId))
  | AddNoteToMeetings p k => CAddNote p :: calls e (k (on_add_note e p))
  end.

(** ** The [ask] action *)

Record source := Source {
  s_title : jsstring;
  s_date : jsstring;
  s_type : jsstring;
  s_countries : jsstring;
  s_message_id : jsstring;
  s_file_path : jsstring;
  s_source_url : jsstring
}.

Definition source_of_row (r : row) : source :=
  Source (title r) (date_iso r) (type_ r) (countries r)
         (message_id r) (file_path r) (source_url r).

(** The success object of the [ask] action. *)
Record ask_reply := AskReply {
  a_filters : jsstring;
  a_answer : jsstring;
  a_sources : list source;
  a_conversationLength : Q;
  a_isNewConversation : bool;
  a_debug_rest : jsstring;
  a_debug_sql_approx : jsstring;
  a_debug_prompt : jsstring
}.

Definition ask_params (rq : query) : params :=
  {| p_from := or_default (q_from rq) [];
     p_to := or_default (q_to rq) [];
     p_type := or_default (q_type rq) (lit "all");
     p_countries := or_default (q_countries rq) [];
     p_topic := or_default (q_topic rq) [];
     p_limit := Number_or (q_limit rq) 100;
     p_style := or_default (q_style rq) (lit "normal");
     p_question := or_default (q_question rq) (or_default (q_q rq) []) |}.

Definition set_conversation (sessionId : jsstring) (c : conversation)
    (st : stores) : stores :=
  Stores (<[sessionId := c]> (conversations st)) (transcriptConversations st).

Definition set_transcript_conversation (sessionId : jsstring)
    (c : transcript_conversation) (st : stores) : stores :=
  Stores (conversations st) (<[sessionId := c]> (transcriptConversations st)).

(** [history.length / 2] *)
Definition half_length (h : list turn) : Q := Z.of_nat (length h) # 2.

(** [conversation.context !== filtersKey || conversation.history.length === 0] *)
Definition needsNewContext_of (c : conversation) (filtersKey : jsstring) : bool :=
  negb (bool_decide (context c = Some filtersKey))
  || bool_decide (length (history c) = 0%nat).

(** The body of [if (action === "ask")].  A [Throw] is what the handler's
    [catch] receives. *)
Definition ask (rq : query) (st : stores) : io (result ask_reply * stores) :=
  let sessionId := or_default (q_sessionId rq) (lit "default") in
  let '(conversation, cs) := getConversation sessionId (conversations st) in
  let st := Stores cs (transcriptConversations st) in
  let p := ask_params rq in
  FetchFromSupabase p (fun r =>
    match r with
    | Throw e => Ret (Throw e, st)
    | Ok f =>
        let filtersKey := filtersKey_of p in
        let needsNewContext := needsNewContext_of conversation filtersKey in
        let prompt :=
          if needsNewContext
          then buildPromptSimple (p_question p) (rows f) (p_style p)
          else followUpPrompt (p_question p) in
        let conversation :=
          if needsNewContext then Conversation [] (Some filtersKey)
          else conversation in
        let st := set_conversation sessionId conversation st in
        Gemini MODEL_SYNTH prompt (history conversation) (fun r =>
          match r with
          | Throw e => Ret (Throw e, st)
          | Ok answer =>
              let conversation :=
                Conversation (push_turns (history conversation) prompt answer)
                             (context conversation) in
              let st := set_conversation sessionId conversation st in
              Ret (Ok {| a_filters := filters f;
                         a_answer := answer;
                         a_sources := map source_of_row (rows f);
                         a_conversationLength := half_length (history conversation);
                         a_isNewConversation := needsNewContext;
                         a_debug_rest := restUrl f;
                         a_debug_sql_approx := sqlApprox f;
                         a_debug_prompt := prompt |}, st)
          end)
    end).

(** ** [askTranscript] *)

(** The object [askTranscript] returns. *)
Inductive transcript_reply :=
| TranscriptFailure (error : jsstring)
| TranscriptAnswer (answer : jsstring) (conversationLength : Q)
                   (isNewConversation : bool).

Definition GDRIVE_PREFIX : jsstring := lit "gdrive:".

(** [text.length > MAX_TRANSCRIPT_CHARS ? text.slice(text.length - MAX_TRANSCRIPT_CHARS) : text] *)
Definition truncate_transcript (text : jsstring) : jsstring :=
  if (MAX_TRANSCRIPT_CHARS <? length text)%nat
  then drop (length text - MAX_TRANSCRIPT_CHARS) text
  else text.

(** [raw.replace(/\r/g, "")] *)
Definition strip_cr (raw : jsstring) : jsstring :=
  filter (fun c => c ≠ 13%N) raw.

(** The read of [askTranscript]: the Drive file for an id that starts with
    [gdrive:], the local file otherwise. *)
Definition read_transcript {A : Type} (id : jsstring)
    (k : result jsstring -> io A) : io A :=
  if startsWith GDRIVE_PREFIX id
  then GdriveReadFile (drop (length GDRIVE_PREFIX) id) k
  else FsReadFile id k.

Definition askTranscript (p : query) (st : stores)
  : io (result transcript_reply * stores) :=
  let id := trim (or_default (q_id p) []) in
  let q := trim (or_default (q_question p) []) in
  let sessionId := trim (or_default (q_sessionId p) (lit "tr_default")) in
  if bool_decide (id = []) then
    Ret (Ok (TranscriptFailure (lit "Missing transcript id")), st)
  else if bool_decide (q = []) then
    Ret (Ok (TranscriptFailure (lit "Missing question")), st)
  else
    let '(conversation, ts) :=
      getTranscriptConversation sessionId (transcriptConversations st) in
    let st := Stores (conversations st) ts in
    let isNewTranscript := negb (bool_decide (transcriptId conversation = Some id)) in
    read_transcript id (fun r =>
      match r with
      | Throw e =>
          Ret (Ok (TranscriptFailure (lit "Failed to read transcript: " ++ emessage e)), st)
      | Ok raw =>
          if bool_decide (trim raw = []) then
            Ret (Ok (TranscriptFailure (lit "Transcript is empty")), st)
          else
            let truncatedText := truncate_transcript (strip_cr raw) in
            let fresh := isNewTranscript
                         || bool_decide (length (t_history conversation) = 0%nat) in
            let prompt :=
              if fresh then transcriptPrompt q truncatedText
              else transcriptFollowUpPrompt q in
            let conversation :=
              if fresh then TranscriptConversation [] (Some id) else conversation in
            let st := set_transcript_conversation sessionId conversation st in
            Gemini MODEL_SYNTH prompt (t_history conversation) (fun r =>
              match r with
              | Throw e => Ret (Throw e, st)
              | Ok answer =>
                  let h := push_turns (t_history conversation) prompt answer in
                  let conversation :=
                    TranscriptConversation h (transcriptId conversation) in
                  let st := set_transcript_conversation sessionId conversation st in
                  Ret (Ok (TranscriptAnswer answer (half_length h)
                             (isNewTranscript || bool_decide (length h = 2%nat))),
                       st)
              end)
      end).

(** ** Time values

    A time value is a number of milliseconds since 1970-01-01T00:00:00Z.
    The calendar functions follow the language definition of [Date]. *)

Definition msPerDay : Z := 86400000.

Definition DayFromYear (y : Z) : Z :=
  365 * (y - 1970) + (y - 1969) / 4 - (y - 1901) / 100 + (y - 1601) / 400.

Definition InLeapYear (y : Z) : bool :=
  (y mod 4 =? 0) && (negb (y mod 100 =? 0) || (y mod 400 =? 0)).

(** Days of the year before month [mn] (0 for January). *)
Definition days_before_month (leap : bool) (mn : Z) : Z :=
  nth (Z.to_nat mn) [0; 31; 59; 90; 120; 151; 181; 212; 243; 273; 304; 334] 0
  + (if leap && (2 <=? mn) then 1 else 0).

(** [MakeDay(year, month, date)]: months and dates out of range carry over. *)
Definition MakeDay (year month date : Z) : Z :=
  let ym := year + month / 12 in
  let mn := month mod 12 in
  DayFromYear ym + days_before_month (InLeapYear ym) mn + date - 1.

Definition MakeTime (hour min sec ms : Z) : Z :=
  hour * 3600000 + min * 60000 + sec * 1000 + ms.

Definition MakeDate (day time : Z) : Z := day * msPerDay + time.

(** [Date.UTC(y, mo, d, hh, mm, ss)]: a year from 0 to 99 stands for
    1900 + year. *)
Definition Date_UTC (y mo d hh mm ss : Z) : Z :=
  let yr := if (0 <=? y) && (y <=? 99) then 1900 + y else y in
  MakeDate (MakeDay yr mo d) (MakeTime hh mm ss 0).

(** Year, month (1 to 12) and day of the month of day number [z], by the
    computation over 400-year eras that start on 1 March. *)
Definition era_year (doe : Z) : Z :=
  (doe - doe / 1460 + doe / 36524 - doe / 146096) / 365.
Definition era_doy (doe : Z) : Z :=
  let yoe := era_year doe in doe - (365 * yoe + yoe / 4 - yoe / 100).
Definition era_month (doe : Z) : Z :=
  let mp := (5 * era_doy doe + 2) / 153 in
  if mp <? 10 then mp + 3 else mp - 9.
Definition era_day (doe : Z) : Z :=
  let mp := (5 * era_doy doe + 2) / 153 in
  era_doy doe - (153 * mp + 2) / 5 + 1.

Definition civil_from_days (z : Z) : Z * Z * Z :=
  let era := (z + 719468) / 146097 in
  let doe := (z + 719468) mod 146097 in
  let m := era_month doe in
  (era_year doe + 400 * era + (if m <=? 2 then 1 else 0), m, era_day doe).

Definition digit_unit (d : Z) : N := Z.to_N (48 + d).

(** The [w] low decimal digits of [n], most significant first. *)
Fixpoint pad (w : nat) (n : Z) : jsstring :=
  match w with
  | O => []
  | S w' => pad w' (n / 10) ++ [digit_unit (n mod 10)]
  end.

(** [new Date(t).toISOString()] for a time value [t] in the range of [Date]. *)
Definition toISOString (t : Z) : jsstring :=
  let '(y, m, d) := civil_from_days (t / msPerDay) in
  let tid := t mod msPerDay in
  (if (0 <=? y) && (y <=? 9999) then pad 4 y
   else if y <? 0 then 45%N :: pad 6 (- y) else 43%N :: pad 6 y)
  ++ [45%N] ++ pad 2 m ++ [45%N] ++ pad 2 d ++ [84%N]
  ++ pad 2 (tid / 3600000) ++ [58%N] ++ pad 2 (tid / 60000 mod 60) ++ [58%N]
  ++ pad 2 (tid / 1000 mod 60) ++ [46%N] ++ pad 3 (tid mod 1000) ++ [90%N].

(** ** Patterns

    The regular expressions of the source are sequences of one-character
    classes; [\d{4}] is four [D]s. *)

Inductive atom :=
| D                      (* \d *)
| OneOf (cs : list N).   (* [...] or a literal character *)

Definition atom_matches (a : atom) (c : N) : bool :=
  match a with
  | D => is_digit c
  | OneOf cs => bool_decide (c ∈ cs)
  end.

(** Match the atoms against a prefix of [s]: the rest of [s], or [None]. *)
Fixpoint match_atoms (p : list atom) (s : jsstring) : option jsstring :=
  match p, s with
  | [], _ => Some s
  | a :: p', c :: s' => if atom_matches a c then match_atoms p' s' else None
  | _ :: _, [] => None
  end.

(** [s.slice(i, i + n)] as a number: the capture group of [n] digits at [i]. *)
Definition group (i n : nat) (s : jsstring) : Z :=
  digits_value (take n (drop i s)).

Definition DASH_SLASH : list N := [45; 47]%N.

(** [/^(\d{2})\/(\d{2})\/(\d{4})$/] *)
Definition MDY_REGEX : list atom :=
  [D; D; OneOf [47%N]; D; D; OneOf [47%N]; D; D; D; D].

(** [/^(\d{4})-(\d{2})-(\d{2})$/] *)
Definition YMD_REGEX : list atom :=
  [D; D; D; D; OneOf [45%N]; D; D; OneOf [45%N]; D; D].

(** [NAME_TIME_REGEX] without its final [\b]:
    [/^(\d{4})[-/](\d{2})[-/](\d{2})[ _T](\d{2})[.:](\d{2})[.:](\d{2})/] *)
Definition NAME_TIME_ATOMS : list atom :=
  [D; D; D; D; OneOf DASH_SLASH; D; D; OneOf DASH_SLASH; D; D;
   OneOf [32; 95; 84]%N; D; D; OneOf [46; 58]%N; D; D; OneOf [46; 58]%N; D; D].

(** [\b] after a digit: the end of the name or a character outside [\w]. *)
Definition word_boundary_after_digit (rest : jsstring) : bool :=
  match rest with
  | [] => true
  | c :: _ => negb (is_word c)
  end.

(** [name.match(NAME_TIME_REGEX)] succeeds *)
Definition NAME_TIME_REGEX_test (s : jsstring) : bool :=
  match match_atoms NAME_TIME_ATOMS s with
  | Some rest => word_boundary_after_digit rest
  | None => false
  end.

(** [/^\d{4}-\d{2}-\d{2}T\d{2}:\d{2}:\d{2}\.\d{3}Z$/]: the format
    [toISOString] writes for the years 0 to 9999. *)
Definition ISO_ATOMS : list atom :=
  [D; D; D; D; OneOf [45%N]; D; D; OneOf [45%N]; D; D; OneOf [84%N];
   D; D; OneOf [58%N]; D; D; OneOf [58%N]; D; D; OneOf [46%N]; D; D; D;
   OneOf [90%N]].

(** The same with a signed six-digit year. *)
Definition ISO_EXPANDED_ATOMS : list atom :=
  OneOf [43; 45]%N :: D :: D :: ISO_ATOMS.

Definition days_in_month (leap : bool) (mo : Z) : Z :=
  if mo =? 2 then (if leap then 29 else 28)
  else if (mo =? 4) || (mo =? 6) || (mo =? 9) || (mo =? 11) then 30 else 31.

Definition DaysInMonth (y mo : Z) : Z := days_in_month (InLeapYear y) mo.

Definition time_of_fields (y mo d h mi s ms : Z) : option Z :=
  if (1 <=? mo) && (mo <=? 12) && (1 <=? d) && (d <=? DaysInMonth y mo)
     && ((h <=? 23) || (h =? 24) && (mi =? 0) && (s =? 0) && (ms =? 0))
     && (mi <=? 59) && (s <=? 59)
  then Some (MakeDate (MakeDay y (mo - 1) d) (MakeTime h mi s ms))
  else None.

(** The time value of a complete date-time string of the language
    definition, [YYYY-MM-DDTHH:mm:ss.sssZ] with a year of four digits or a
    signed year of six, when its fields are legal: the format [toISOString]
    writes.  [None] for every other string. *)
Definition date_time_string (s : jsstring) : option Z :=
  match match_atoms ISO_ATOMS s with
  | Some [] =>
      time_of_fields (group 0 4 s) (group 5 2 s) (group 8 2 s)
        (group 11 2 s) (group 14 2 s) (group 17 2 s) (group 20 3 s)
  | _ =>
      match match_atoms ISO_EXPANDED_ATOMS s with
      | Some [] =>
          let y := group 1 6 s in
          let neg := bool_decide (head s = Some 45%N) in
          if neg && (y =? 0) then None
          else time_of_fields (if neg then - y else y) (group 8 2 s)
                 (group 11 2 s) (group 14 2 s) (group 17 2 s) (group 20 2 s)
                 (group 23 3 s)
      | _ => None
      end
  end.

(** [TimeClip(t)]: a time value beyond the range of [Date] is [NaN]. *)
Definition TimeClip (t : Z) : option Z :=
  if Z.abs t <=? 8640000000000000 then Some t else None.

(** ** The server

    From here on the definitions may call the functions of the runtime. *)

Section Server.
Context {runtime : Runtime}.

(** [Date.parse(s)]; [None] is [NaN].  The language definition fixes the
    result for a complete date-time string with legal fields; what the
    function makes of any other string is the runtime's. *)
Definition Date_parse (s : jsstring) : option Z :=
  match date_time_string s with
  | Some t => TimeClip t
  | None => Date_parse_other s
  end.

(** [parseDateInput(s, isEndExclusive)]: [None] is [null]. *)
Definition parseDateInput (s : option jsstring) (isEndExclusive : bool)
  : option jsstring :=
  let s := trim (or_default s []) in
  let extra := if isEndExclusive then 1 else 0 in
  match s with
  | [] => None
  | _ =>
      match match_atoms MDY_REGEX s with
      | Some [] =>
          let y := group 6 4 s in
          let mo := group 0 2 s - 1 in
          let d := group 3 2 s in
          Some (toISOString (Date_UTC y mo (d + extra) 0 0 0))
      | _ =>
          match match_atoms YMD_REGEX s with
          | Some [] =>
              let y2 := group 0 4 s in
              let mo2 := group 5 2 s - 1 in
              let d2 := group 8 2 s in
              Some (toISOString (Date_UTC y2 mo2 (d2 + extra) 0 0 0))
          | _ => None
          end
      end
  end.

(** [parseNameTimestampMs(name)]: [None] is [null]. *)
Definition parseNameTimestampMs (name : jsstring) : option Z :=
  if NAME_TIME_REGEX_test name then
    let y := group 0 4 name in
    let mo := group 5 2 name in
    let d := group 8 2 name in
    let hh := group 11 2 name in
    let mm := group 14 2 name in
    let ss := group 17 2 name in
    Some (Date_UTC y (mo - 1) d hh mm ss)
  else None.

(** [fromIso ? Date.parse(fromIso) : null]; [None] is [null] or [NaN], both
    falsy. *)
Definition bound_ms (iso : option jsstring) : option Z :=
  match iso with
  | Some s => Date_parse s
  | None => None
  end.

(** [ms && ...]: a bound takes part in a comparison only when it is truthy,
    that is neither [null] nor [NaN] nor [0]. *)
Definition truthy_ms (ms : option Z) : option Z :=
  match ms with
  | Some 0 => None
  | Some t => Some t
  | None => None
  end.

(** [fromMs && nameMs < fromMs] *)
Definition before_from (fromMs : option Z) (nameMs : Z) : bool :=
  match truthy_ms fromMs with
  | Some f => nameMs <? f
  | None => false
  end.

(** [toMs && nameMs >= toMs] *)
Definition at_or_after_to (toMs : option Z) (nameMs : Z) : bool :=
  match truthy_ms toMs with
  | Some t => t <=? nameMs
  | None => false
  end.

(** ** Keywords *)

(** [/[,\s]/] *)
Definition is_sep (c : N) : bool := (c =? 44)%N || is_space c.

(** [s.split(/[,\s]+/)]: a separator run at either end leaves an empty
    piece there. *)
Fixpoint split_go (in_sep : bool) (cur : jsstring) (s : jsstring)
  : list jsstring :=
  match s with
  | [] => [cur]
  | c :: s' =>
      if is_sep c
      then (if in_sep then split_go true cur s' else cur :: split_go true [] s')
      else split_go false (cur ++ [c]) s'
  end.

Definition split_seps (s : jsstring) : list jsstring := split_go false [] s.

Definition nonempty {A : Type} (l : list A) : bool :=
  match l with [] => false | _ :: _ => true end.

(** [String(p.keywords || "").split(/[,\s]+/).map(s => s.trim())
      .filter(Boolean).map(s => s.toLowerCase())] *)
Definition keywords_of (keywords : option jsstring) : list jsstring :=
  map toLowerCase
    (filter (fun s => nonempty s = true)
       (map trim (split_seps (or_default keywords [])))).

(** [norm(s)] *)
Definition norm (s : jsstring) : jsstring := toLowerCase s.

(** [anyKeywordHit(haystack, kwsLower)] *)
Definition anyKeywordHit (haystack : jsstring) (kwsLower : list jsstring) : bool :=
  if negb (nonempty kwsLower) then true
  else let h := norm haystack in
       existsb (fun w => 0 <=? indexOf h w) kwsLower.

(** [hasAllowedTranscriptExt(name)] *)
Definition hasAllowedTranscriptExt (name : jsstring) : bool :=
  let n := toLowerCase name in
  endsWith (lit ".txt") n || endsWith (lit ".vtt") n || endsWith (lit ".srt") n.

(** ** Transcript search *)

(** One element of [results]. *)
Record transcript_file := TranscriptFile {
  id : jsstring;
  name : jsstring;
  mimeType : jsstring;
  modified : jsstring;
  link : jsstring;
  preview : jsstring
}.

(** The object [findTranscripts] returns. *)
Inductive search_reply :=
| SearchFailure (error : jsstring)
| SearchResults (results : list transcript_file).

(** What a query fixes for the whole scan. *)
Record scan_config := ScanConfig {
  limit : jsnum;
  fromMs : option Z;
  toMs : option Z;
  kws : list jsstring
}.

(** [Math.min(Number(p.limit || 10), 50)] *)
Definition limit_of (p : query) : jsnum :=
  Math_min (Number_or (q_limit p) 10) (num_of_Z 50).

Definition config_of (p : query) : scan_config :=
  {| limit := limit_of p;
     fromMs := bound_ms (parseDateInput (q_from p) false);
     toMs := bound_ms (parseDateInput (q_to p) true);
     kws := keywords_of (q_keywords p) |}.

(** The two variables the scan updates. *)
Record scan_state := ScanState {
  results : list transcript_file;
  checks : Z
}.

(** [results.length >= limit] *)
Definition limit_reached (c : scan_config) (st : scan_state) : bool :=
  length_ge (length (results st)) (limit c).

(** [a || b] for a time value [a] that may be [null]: [0] is falsy too. *)
Definition or_ms (a : option Z) (b : Z) : Z :=
  match truthy_ms a with
  | Some t => t
  | None => b
  end.

(** The keyword test of one candidate, the same in both scans:
[[
      let hit = kws.length ? anyKeywordHit(name, kws) : true;
      let preview = "";
      if (!hit && kws.length && checks < MAX_CONTENT_CHECKS) {
        try { const body = await read(); checks++;
              hit = anyKeywordHit(body, kws);
              if (hit) preview = makePreview(body, 500);
        } catch (err) { }
      }
]]
    [content] is what the read gives when it is attempted.  The result is
    [hit], [preview] and the new value of [checks]. *)
Definition keyword_check (kws : list jsstring) (name : jsstring)
    (content : result jsstring) (checks : Z) : bool * jsstring * Z :=
  let hit := if nonempty kws then anyKeywordHit name kws else true in
  if negb hit && nonempty kws && (checks <? MAX_CONTENT_CHECKS) then
    match content with
    | Ok body =>
        let hit := anyKeywordHit body kws in
        (hit, if hit then makePreview body 500 else [], checks + 1)
    | Throw _ => (hit, [], checks)
    end
  else (hit, [], checks).

(** A snapshot of the transcripts folder.  [readdir] lists a directory or
    throws, [stat] describes an item or throws, [readFile] gives a file's
    text or throws. *)
Inductive node :=
| File (mtime : Z) (content : result jsstring)
| Dir (items : entries)
| DirUnreadable (e : exn)     (* a directory whose [readdir] throws *)
| NoStat (e : exn)            (* an item whose [stat] throws *)
with entries :=
| ENil
| ECons (item : jsstring) (n : node) (rest : entries).

(** The body of the [for] loop of [scanFolder] for an item that is not a
    directory. *)
Definition scanFile (c : scan_config) (itemPath item : jsstring) (mtime : Z)
    (content : result jsstring) (st : scan_state) : scan_state :=
  if negb (hasAllowedTranscriptExt item) then st
  else
    let nameMs := or_ms (parseNameTimestampMs item) mtime in
    if before_from (fromMs c) nameMs then st
    else if at_or_after_to (toMs c) nameMs then st
    else
      let '(hit, preview, checks') :=
        keyword_check (kws c) item content (checks st) in
      if hit then
        {| results := results st ++
             [{| id := itemPath; name := item; mimeType := lit "text/plain";
                 modified := toISOString nameMs;
                 link := lit "file://" ++ itemPath;
                 preview := preview |}];
           checks := checks' |}
      else {| results := results st; checks := checks' |}.

Section Scan.
(** [path.join] of the platform. *)
Variable path_join : jsstring -> jsstring -> jsstring.
Variable c : scan_config.

(** [scanEntry folderPath depth item n] is one turn of the loop of
    [scanFolder(folderPath, depth)] past the [break] test;
    [scanItems] is the loop. A recursive [scanFolder(itemPath, depth + 1)]
    returns at once when [depth + 1 > 3] or the limit is reached, before it
    reads the directory. *)
Fixpoint scanEntry (folderPath : jsstring) (depth : nat) (item : jsstring)
    (n : node) (st : scan_state) {struct n} : result scan_state :=
  let itemPath := path_join folderPath item in
  match n with
  | NoStat e => Throw e
  | Dir items =>
      if (3 <? S depth)%nat || limit_reached c st then Ok st
      else scanItems itemPath (S depth) items st
  | DirUnreadable e =>
      if (3 <? S depth)%nat || limit_reached c st then Ok st
      else Throw e
  | File mtime content => Ok (scanFile c itemPath item mtime content st)
  end
with scanItems (folderPath : jsstring) (depth : nat) (items : entries)
    (st : scan_state) {struct items} : result scan_state :=
  match items with
  | ENil => Ok st
  | ECons item n rest =>
      if limit_reached c st then Ok st
      else match scanEntry folderPath depth item n st with
           | Ok st' => scanItems folderPath depth rest st'
           | Throw e => Throw e
           end
  end.

(** [scanFolder(folderPath, depth)] for a folder whose [readdir] gives
    [listing]. *)
Definition scanFolder (folderPath : jsstring) (depth : nat)
    (listing : result entries) (st : scan_state) : result scan_state :=
  if (3 <? depth)%nat || limit_reached c st then Ok st
  else match listing with
       | Ok items => scanItems folderPath depth items st
       | Throw e => Throw e
       end.
End Scan.

(** The comparator of [results.sort]:
    [(a, b) => (b.modified || "").localeCompare(a.modified || "")] *)
Definition by_modified_desc (a b : transcript_file) : comparison :=
  localeCompare (modified b) (modified a).

(** [xs.sort(cmp)].  For a consistent comparator the language definition
    fixes the result: the elements in ascending order, those that compare
    equal in the order they had.  [sort] computes it by insertion from the
    right; for a comparator that is not consistent the order is the
    runtime's, and the list is some arrangement of the same elements. *)
Fixpoint sort_insert {A : Type} (cmp : A -> A -> comparison) (x : A)
    (l : list A) : list A :=
  match l with
  | [] => [x]
  | y :: l' =>
      match cmp x y with
      | Gt => y :: sort_insert cmp x l'
      | _ => x :: l
      end
  end.

Definition sort {A : Type} (cmp : A -> A -> comparison) (l : list A) : list A :=
  foldr (sort_insert cmp) [] l.

(** [results.sort(...); return { ok: true, results: results.slice(0, limit) }] *)
Definition finish (c : scan_config) (st : scan_state) : search_reply :=
  SearchResults (slice_0 (limit c) (sort by_modified_desc (results st))).

(** A file of the Drive listing, with what [gdriveReadFile] gives for it.
    An absent [name], [mimeType] or [modifiedTime] is the empty string. *)
Record drive_file := DriveFile {
  f_id : jsstring;
  f_name : jsstring;
  f_mimeType : jsstring;
  f_modifiedTime : jsstring;
  f_content : result jsstring
}.

(** What a request finds outside the process. *)
Record world := World {
  (** [process.env.TRANSCRIPTS_FOLDER] *)
  TRANSCRIPTS_FOLDER : option jsstring;
  (** [path.join] *)
  path_join : jsstring -> jsstring -> jsstring;
  (** the transcripts folder: [None] when [pathExists] is false, else what
      [readdir] gives for it *)
  local_root : option (result entries);
  (** [Date.now()] *)
  now : Z;
  (** [useGoogleDrive()] *)
  useGoogleDrive : bool;
  (** [gdriveListAllFiles(GDRIVE_FOLDER_ID)] *)
  gdrive_listing : result (list drive_file)
}.

Definition initial_scan_state : scan_state := ScanState [] 0.

(** [findTranscriptsLocal(p)] *)
Definition findTranscriptsLocal (w : world) (p : query) : result search_reply :=
  let c := config_of p in
  let transcriptsFolder := or_default (TRANSCRIPTS_FOLDER w) (lit "./transcripts") in
  match local_root w with
  | None =>
      Ok (SearchFailure (lit "Transcripts folder not found: " ++ transcriptsFolder))
  | Some listing =>
      match scanFolder (path_join w) c transcriptsFolder 0 listing initial_scan_state with
      | Ok st => Ok (finish c st)
      | Throw e => Throw e
      end
  end.

Definition GDOC_MIME : jsstring := lit "application/vnd.google-apps.document".

(** The filter that keeps the transcript files of the listing. *)
Definition is_transcript_file (f : drive_file) : bool :=
  let name := toLowerCase (f_name f) in
  endsWith (lit ".txt") name || endsWith (lit ".vtt") name
  || endsWith (lit ".srt") name || bool_decide (f_mimeType f = GDOC_MIME).

(** [parseNameTimestampMs(f.name) ||
     (f.modifiedTime ? Date.parse(f.modifiedTime) : Date.now())];
    [None] is [NaN]. *)
Definition gdrive_nameMs (now : Z) (f : drive_file) : option Z :=
  match truthy_ms (parseNameTimestampMs (f_name f)) with
  | Some t => Some t
  | None => if nonempty (f_modifiedTime f) then Date_parse (f_modifiedTime f)
            else Some now
  end.

(** A comparison with [NaN] is false. *)
Definition gdrive_excluded (c : scan_config) (nameMs : option Z) : bool :=
  match nameMs with
  | Some t => before_from (fromMs c) t || at_or_after_to (toMs c) t
  | None => false
  end.

(** The body of the [for] loop of [findTranscriptsGDrive] past the [break]
    test.  [modified] is [f.modifiedTime || new Date(nameMs).toISOString()];
    when [f.modifiedTime] is empty, [nameMs] is the timestamp of the name or
    [Date.now()]. *)
Definition gdriveFile (now : Z) (c : scan_config) (f : drive_file)
    (st : scan_state) : scan_state :=
  let nameMs := gdrive_nameMs now f in
  if gdrive_excluded c nameMs then st
  else
    let '(hit, preview, checks') :=
      keyword_check (kws c) (f_name f) (f_content f) (checks st) in
    if hit then
      {| results := results st ++
           [{| id := lit "gdrive:" ++ f_id f; name := f_name f;
               mimeType := or_default (Some (f_mimeType f)) (lit "text/plain");
               modified := or_default (Some (f_modifiedTime f))
                             (toISOString (or_ms (parseNameTimestampMs (f_name f)) now));
               link := lit "https://drive.google.com/file/d/" ++ f_id f ++ lit "/view";
               preview := preview |}];
         checks := checks' |}
    else {| results := results st; checks := checks' |}.

Fixpoint gdriveLoop (now : Z) (c : scan_config) (fs : list drive_file)
    (st : scan_state) : scan_state :=
  match fs with
  | [] => st
  | f :: fs' =>
      if limit_reached c st then st
      else gdriveLoop now c fs' (gdriveFile now c f st)
  end.

(** [findTranscriptsGDrive(p)] *)
Definition findTranscriptsGDrive (w : world) (p : query) : search_reply :=
  let c := config_of p in
  match gdrive_listing w with
  | Throw e => SearchFailure (lit "Google Drive error: " ++ emessage e)
  | Ok allFiles =>
      let transcriptFiles := filter (fun f => is_transcript_file f = true) allFiles in
      finish c (gdriveLoop (now w) c transcriptFiles initial_scan_state)
  end.

(** [findTranscripts(p)] *)
Definition findTranscripts (w : world) (p : query) : result search_reply :=
  if useGoogleDrive w then Ok (findTranscriptsGDrive w p)
  else findTranscriptsLocal w p.

(** ** The request handler *)

(** The JSON object of a response. *)
Inductive response :=
| RFailure (error : jsstring)                 (* { ok: false, error } *)
| RSearch (r : search_reply)
| RTranscript (r : transcript_reply)
| RNote (result : jsstring)                   (* { ok: true, result } *)
| RReports (reports : list row)               (* { ok: true, reports } *)
| RCleared (message : jsstring)               (* { ok: true, message } *)
| RAsk (r : ask_reply).

(** The [catch] of the handler: [{ ok: false, error: String(err) }]. *)
Definition caught (e : exn) : response := RFailure (String_of_exn e).

Definition reports_params (rq : query) : params :=
  {| p_from := or_default (q_from rq) [];
     p_to := or_default (q_to rq) [];
     p_type := lit "Report";
     p_countries := [];
     p_topic := [];
     p_limit := num_of_Z 50;
     p_style := [];
     p_question := [] |}.

(** [app.get('/api', ...)] *)
Definition api (w : world) (rq : query) (st : stores) : io (response * stores) :=
  let action := toLowerCase (or_default (q_action rq) (lit "ask")) in
  if decide (action = lit "findtranscripts") then
    match findTranscripts w rq with
    | Ok r => Ret (RSearch r, st)
    | Throw e => Ret (caught e, st)
    end
  else if decide (action = lit "asktranscript") then
    io_bind (askTranscript rq st) (fun '(r, st') =>
      match r with
      | Ok r => Ret (RTranscript r, st')
      | Throw e => Ret (caught e, st')
      end)
  else if decide (action = lit "addnote") then
    AddNoteToMeetings rq (fun r =>
      match r with
      | Ok result => Ret (RNote result, st)
      | Throw e => Ret (caught e, st)
      end)
  else if decide (action = lit "getreports") then
    FetchFromSupabase (reports_params rq) (fun r =>
      match r with
      | Ok f => Ret (RReports (rows f), st)
      | Throw e => Ret (caught e, st)
      end)
  else if decide (action = lit "clearconversation") then
    let sessionId := or_default (q_sessionId rq) (lit "default") in
    Ret (RCleared (lit "Conversation cleared"),
         Stores (clearConversation sessionId (conversations st))
                (transcriptConversations st))
  else if decide (action = lit "cleartranscriptconversation") then
    let sessionId := or_default (q_sessionId rq) (lit "tr_default") in
    Ret (RCleared (lit "Transcript conversation cleared"),
         Stores (conversations st)
                (clearTranscriptConversation sessionId (transcriptConversations st)))
  else if decide (action = lit "ask") then
    io_bind (ask rq st) (fun '(r, st') =>
      match r with
      | Ok r => Ret (RAsk r, st')
      | Throw e => Ret (caught e, st')
      end)
  else
    Ret (RFailure (lit "Unknown action " ++ [34%N] ++ action ++ [34%N]), st).

(** The stores after a sequence of requests handled one after the other,
    each against what the outside answers at that time. *)
Fixpoint serve (reqs : list (world * env * query)) (st : stores) : stores :=
  match reqs with
  | [] => st
  | (w, e, rq) :: reqs' => serve reqs' (snd (run e (api w rq st)))
  end.

Definition initial_stores : stores := Stores ∅ ∅.

(** ** Password protection

    The [middleware] of [middleware.js], and the middleware of [server.js]
    that guards every route, which takes the same decision from the same two
    inputs: the [APP_PASSWORD] of the environment and the [Authorization]
    header of the request. *)

(** [s.split(sep)] for a separator of one character *)
Fixpoint split_at (sep : N) (s : jsstring) : list jsstring :=
  match s with
  | [] => [[]]
  | c :: s' =>
      if (c =? sep)%N then [] :: split_at sep s'
      else match split_at sep s' with
           | piece :: pieces => (c :: piece) :: pieces
           | [] => [[c]]
           end
  end.

(** What the middleware does with a request. *)
Inductive auth_outcome :=
| Next                                    (* [next()] *)
| AuthenticationRequired                  (* 401 with [WWW-Authenticate] *)
| InvalidCredentials                      (* 401 *)
| AuthThrows.                             (* [Buffer.from(undefined, ...)] *)

Section PasswordProtection.
(** [Buffer.from(s, 'base64').toString('ascii')] *)
Variable decode_base64_ascii : jsstring -> jsstring.

(** [middleware(request)]: [password] is [process.env.APP_PASSWORD], [auth]
    the [Authorization] header; an absent or empty value is falsy. *)
Definition middleware (password auth : option jsstring) : auth_outcome :=
  match password with
  | None | Some [] => Next
  | Some password =>
      match auth with
      | None | Some [] => AuthenticationRequired
      | Some auth =>
          if negb (startsWith (lit "Basic ") auth) then AuthenticationRequired
          else
            match split_at 32 auth !! 1%nat with
            | None => AuthThrows
            | Some base64Credentials =>
                let credentials := decode_base64_ascii base64Credentials in
                let userPassword := split_at 58 credentials !! 1%nat in
                if bool_decide (userPassword ≠ Some password)
                then InvalidCredentials
                else Next
            end
      end
  end.
End PasswordProtection.

(** ** URI components *)

(** [A-Za-z0-9] and [-_.!~*'()]: the characters [encodeURIComponent]
    leaves as they are. *)
Definition uri_unreserved (c : N) : bool :=
  ((65 <=? c) && (c <=? 90) || (97 <=? c) && (c <=? 122) || is_digit c
   || bool_decide (c ∈ [45; 95; 46; 33; 126; 42; 39; 40; 41]))%N.

Definition upper_hex_digit (n : N) : N := (if n <? 10 then 48 + n else 55 + n)%N.

(** [%XX] *)
Definition percent_octet (b : N) : jsstring :=
  [37; upper_hex_digit (b / 16); upper_hex_digit (b mod 16)]%N.

(** The UTF-8 encoding of a code point. *)
Definition utf8_octets (cp : N) : list N :=
  (if cp <? 128 then [cp]
   else if cp <? 2048 then [192 + cp / 64; 128 + cp mod 64]
   else if cp <? 65536
        then [224 + cp / 4096; 128 + (cp / 64) mod 64; 128 + cp mod 64]
   else [240 + cp / 262144; 128 + (cp / 4096) mod 64;
         128 + (cp / 64) mod 64; 128 + cp mod 64])%N.

Definition percent_encoded (cp : N) : jsstring :=
  concat (map percent_octet (utf8_octets cp)).

Definition URIError : exn := Exn (lit "URIError") (lit "URI malformed").

(** [encodeURIComponent(s)]: it throws on a surrogate without its pair. *)
Fixpoint encodeURIComponent (s : jsstring) : result jsstring :=
  match s with
  | [] => Ok []
  | c :: s' =>
      if uri_unreserved c then
        match encodeURIComponent s' with
        | Ok r => Ok (c :: r)
        | Throw e => Throw e
        end
      else if is_high_surrogate c then
        match s' with
        | d :: s'' =>
            if is_low_surrogate d then
              let cp := (65536 + (c - 55296) * 1024 + (d - 56320))%N in
              match encodeURIComponent s'' with
              | Ok r => Ok (percent_encoded cp ++ r)
              | Throw e => Throw e
              end
            else Throw URIError
        | [] => Throw URIError
        end
      else if is_low_surrogate c then Throw URIError
      else
        match encodeURIComponent s' with
        | Ok r => Ok (percent_encoded c ++ r)
        | Throw e => Throw e
        end
  end.

(** ** The language-model call *)

(** What [axios.post] gives to [gemini].
    - A response: [text] is
      [(((data.candidates || [])[0] || {}).content || {}).parts?.[0]?.text],
      a string when there is one, and [meta] is
      [JSON.stringify(data.promptFeedback || data.safetyRatings || data)].
    - A rejection that carries a response: [status] is
      [error.response.status] and [data] is
      [JSON.stringify(error.response.data)].
    - Any other rejection. *)
Inductive post_outcome :=
| Responded (text : option jsstring) (meta : jsstring)
| Rejected (status data : jsstring)
| PostFails (e : exn).

Definition GEMINI_MODELS : jsstring :=
  lit "https://generativelanguage.googleapis.com/v1beta/models/".

(** [gemini(model, userText, conversationHistory)], for the
    [GEMINI_API_KEY] of the environment and what [axios.post] gives for a
    URL and the [contents] of the payload; the rest of the payload and the
    headers are constants.  An entry of [contents] is
    [{ role, parts: [{ text }] }], that is a turn. *)
Definition gemini (apiKey : option jsstring)
    (post : jsstring -> list turn -> post_outcome)
    (model userText : jsstring) (conversationHistory : list turn)
  : result jsstring :=
  match apiKey with
  | None | Some [] =>
      Throw (Error (lit "Missing GEMINI_API_KEY in environment variables."))
  | Some apiKey =>
      match encodeURIComponent model with
      | Throw e => Throw e
      | Ok m =>
          match encodeURIComponent apiKey with
          | Throw e => Throw e
          | Ok k =>
              let url := GEMINI_MODELS ++ m ++ lit ":generateContent?key=" ++ k in
              let contents :=
                map (fun msg => Turn (role_of msg) (text msg)) conversationHistory
                ++ [Turn User userText] in
              match post url contents with
              | Responded text meta =>
                  let text := default [] text in
                  if bool_decide (trim text = [])
                  then Throw (Error (lit "Gemini API error: " ++ meta))
                  else Ok (trim text)
              | Rejected status data =>
                  Throw (Error (lit "Gemini HTTP " ++ status ++ lit ": " ++ data))
              | PostFails e => Throw e
              end
          end
      end
  end.

(** ** The listing of the Drive folder *)

Definition FOLDER_MIME : jsstring := lit "application/vnd.google-apps.folder".

(** A snapshot of a Drive folder, as [gdriveListFiles] shows it: the
    responses to the successive calls for the folder, each with its files and,
    but for the last one, a [nextPageToken]; or a call that throws.  An entry
    is a file of a response, with the listing of its children for the case
    that it is a folder. *)
Inductive drive_entry :=
| DriveEntry (f : drive_file) (children : drive_pages)
with drive_pages :=
| ListFails (e : exn)
| LastPage (files : drive_entries)
| MorePages (files : drive_entries) (next : drive_pages)
with drive_entries :=
| DNil
| DCons (entry : drive_entry) (rest : drive_entries).

(** [allFiles.concat(subFiles)] or [allFiles.push(f)], after what the
    entries before have given. *)
Definition result_app {A : Type} (a b : result (list A)) : result (list A) :=
  match a with
  | Throw e => Throw e
  | Ok x => match b with
            | Throw e => Throw e
            | Ok y => Ok (x ++ y)
            end
  end.

(** [listEntry depth entry] is one turn of the [for] loop of
    [gdriveListAllFiles(folderId, depth)], [listEntries] the loop, and
    [listPages] the [do ... while (pageToken)] loop around it.  The call
    [gdriveListAllFiles(f.id, depth + 1)] for a folder returns [[]] at once
    when [depth + 1 > 3]. *)
Fixpoint listEntry (depth : nat) (entry : drive_entry) {struct entry}
  : result (list drive_file) :=
  match entry with
  | DriveEntry f children =>
      if bool_decide (f_mimeType f = FOLDER_MIME) then
        if (3 <? S depth)%nat then Ok [] else listPages (S depth) children
      else Ok [f]
  end
with listPages (depth : nat) (pages : drive_pages) {struct pages}
  : result (list drive_file) :=
  match pages with
  | ListFails e => Throw e
  | LastPage files => listEntries depth files
  | MorePages files next =>
      result_app (listEntries depth files) (listPages depth next)
  end
with listEntries (depth : nat) (files : drive_entries) {struct files}
  : result (list drive_file) :=
  match files with
  | DNil => Ok []
  | DCons entry rest => result_app (listEntry depth entry) (listEntries depth rest)
  end.

(** [gdriveListAllFiles(folderId, depth)] for a folder whose listing is
    [pages]. *)
Definition gdriveListAllFiles (pages : drive_pages) (depth : nat)
  : result (list drive_file) :=
  if (3 <? depth)%nat then Ok [] else listPages depth pages.

(** ** The query of the data store *)

Definition result_bind {A B : Type} (r : result A) (f : A -> result B) : result B :=
  match r with
  | Ok a => f a
  | Throw e => Throw e
  end.

(** [xs.map(f)] for an [f] that may throw. *)
Fixpoint result_map {A B : Type} (f : A -> result B) (xs : list A)
  : result (list B) :=
  match xs with
  | [] => Ok []
  | x :: xs' =>
      result_bind (f x) (fun y =>
      result_bind (result_map f xs') (fun ys => Ok (y :: ys)))
  end.

(** [s.replace(/\/$/, "")] *)
Definition strip_final_slash (s : jsstring) : jsstring :=
  match rev s with
  | 47%N :: r => rev r
  | _ => s
  end.

(** A number that is falsy: [NaN] or zero. *)
Definition falsy_number (n : jsnum) : bool :=
  match n with
  | NaN => true
  | Num q => Qeq_bool q 0
  | PosInf | NegInf => false
  end.

(** [params.countries.split(",").map(s => s.trim()).filter(Boolean)] *)
Definition countries_list (countries : jsstring) : list jsstring :=
  filter (fun s => nonempty s = true) (map trim (split_at 44 countries)).

Section RestUrl.
(** [String(n)] for a number. *)
Variable Number_toString : jsnum -> jsstring.

(** [params.limit || 100], as a string. *)
Definition limit_text (limit : jsnum) : jsstring :=
  if falsy_number limit then lit "100" else Number_toString limit.

(** The filters [fetchFromSupabase] pushes onto [parts] before the order
    and the limit. *)
Definition filter_parts (p : params) : result (list jsstring) :=
  result_bind
    (if nonempty (p_from p)
     then result_bind (encodeURIComponent (p_from p))
            (fun v => Ok [lit "date=gte." ++ v])
     else Ok []) (fun from_part =>
  result_bind
    (if nonempty (p_to p)
     then result_bind (encodeURIComponent (p_to p))
            (fun v => Ok [lit "date=lte." ++ v])
     else Ok []) (fun to_part =>
  result_bind
    (if nonempty (p_type p) && negb (bool_decide (p_type p = lit "all"))
     then result_bind (encodeURIComponent (p_type p))
            (fun v => Ok [lit "type=eq." ++ v])
     else Ok []) (fun type_part =>
  result_bind
    (if nonempty (p_countries p) then
       let list := countries_list (p_countries p) in
       if nonempty list then
         result_bind
           (result_map
              (fun c => result_bind (encodeURIComponent c)
                          (fun v => Ok (lit "countries.ilike.*" ++ v ++ lit "*")))
              list)
           (fun ors => Ok [lit "or=(" ++ join (lit ",") ors ++ lit ")"])
       else Ok []
     else Ok []) (fun countries_part =>
  result_bind
    (if nonempty (p_topic p)
     then result_bind (encodeURIComponent (p_topic p))
            (fun t => Ok [lit "or=(headline.ilike.*" ++ t
                          ++ lit "*,summary.ilike.*" ++ t ++ lit "*)"])
     else Ok []) (fun topic_part =>
  Ok (from_part ++ to_part ++ type_part ++ countries_part ++ topic_part)))))).

(** [parts] *)
Definition rest_parts (p : params) : result (list jsstring) :=
  result_bind (filter_parts p) (fun filters =>
  Ok (filters ++ [lit "order=date.desc"; lit "limit=" ++ limit_text (p_limit p)])).

(** [restUrl], for the [SUPABASE_URL] of the environment. *)
Definition restUrl_of (SUPABASE_URL : jsstring) (p : params) : result jsstring :=
  let base := strip_final_slash SUPABASE_URL ++ lit "/rest/v1/meetings?select=*" in
  result_bind (rest_parts p) (fun parts =>
  Ok (base ++ (if nonempty parts then lit "&" ++ join (lit "&") parts else []))).
End RestUrl.

(** ** Notes *)

(** The parameters of the request that [addNoteToMeetings] reads. *)
Record note_query := NoteQuery {
  n_date : option jsstring;
  n_countries : option jsstring;
  n_headline : option jsstring;
  n_note_headline : option jsstring;
  n_author : option jsstring;
  n_note : option jsstring
}.

(** The record [addNoteToMeetings] posts. *)
Record note_record := NoteRecord {
  rec_type : jsstring;
  rec_date : jsstring;
  rec_countries : jsstring;
  rec_headline : jsstring;
  rec_summary : jsstring
}.

(** [today()], for the time value of the clock. *)
Definition today (now : Z) : jsstring := slice_to 10 (toISOString now).

(** [rec] *)
Definition note_rec (now : Z) (p : note_query) : note_record :=
  {| rec_type := lit "Note";
     rec_date := or_default (n_date p) (today now);
     rec_countries := or_default (n_countries p) [];
     rec_headline :=
       match trim (or_default (n_headline p) (or_default (n_note_headline p) [])) with
       | [] =>
           match n_author p with
           | Some (c :: author) => lit "Note by " ++ c :: author
           | _ => lit "Note"
           end
       | headline => headline
       end;
     rec_summary := or_default (n_note p) [] |}.

(** * Vocabulary of the specification *)

(** ** Sessions and reads *)

(** The invariant of a session's history: an even number of turns, at most
    [2 * MAX_CONVERSATION_HISTORY]. *)
Definition history_ok (h : list turn) : Prop :=
  Nat.Even (length h) /\ (length h <= 2 * MAX_CONVERSATION_HISTORY)%nat.

Definition stores_ok (st : stores) : Prop :=
  map_Forall (fun _ c => history_ok (history c)) (conversations st)
  /\ map_Forall (fun _ c => history_ok (t_history c)) (transcriptConversations st).

(** What the outside answers to the read of transcript [id], and the call
    that read is. *)
Definition read_outcome (e : env) (id : jsstring) : result jsstring :=
  if startsWith GDRIVE_PREFIX id
  then on_gdrive_read e (drop (length GDRIVE_PREFIX) id)
  else on_fs_read e id.

Definition read_call (id : jsstring) : call :=
  if startsWith GDRIVE_PREFIX id
  then CGdriveRead (drop (length GDRIVE_PREFIX) id)
  else CFsRead id.

(** The session an [ask] request addresses, and what the general store
    holds for a session: its fingerprint ([None] when the session does not
    exist or holds [null]) and its history. *)
Definition session_of (rq : query) : jsstring :=
  or_default (q_sessionId rq) (lit "default").

Definition stored_context (st : stores) (sessionId : jsstring) : option jsstring :=
  conversations st !! sessionId ≫= context.

Definition stored_history (st : stores) (sessionId : jsstring) : list turn :=
  from_option history [] (conversations st !! sessionId).

(** The same for the transcript store; the session id of [askTranscript] is
    trimmed. *)
Definition transcript_session_of (p : query) : jsstring :=
  trim (or_default (q_sessionId p) (lit "tr_default")).

Definition stored_transcriptId (st : stores) (sessionId : jsstring)
  : option jsstring :=
  transcriptConversations st !! sessionId ≫= transcriptId.

Definition stored_transcript_history (st : stores) (sessionId : jsstring)
  : list turn :=
  from_option t_history [] (transcriptConversations st !! sessionId).

(** ** Prompts *)

(** Item [n] of the numbered list of a prompt: the number in brackets, the
    title, the date and, when there are some, the countries, separated by
    the dash of the source; on the next line the summary with its white
    space collapsed, clipped to [PREVIEW_LEN] characters. *)
Definition numbered_item (n : nat) (r : row) : jsstring :=
  lit "[" ++ string_of_nat n ++ lit "] " ++ title r
  ++ lit " " ++ DASH ++ lit " " ++ date_iso r
  ++ (if nonempty (countries r) then lit " " ++ DASH ++ lit " " ++ countries r
      else [])
  ++ NL ++ clip (collapse_spaces (summary_text r)) PREVIEW_LEN.

(** The numbered list of the items, from number [n] on, with an empty line
    between two items. *)
Inductive numbered_list : nat -> list row -> jsstring -> Prop :=
| numbered_none (n : nat) : numbered_list n [] []
| numbered_last (n : nat) (r : row) : numbered_list n [r] (numbered_item n r)
| numbered_next (n : nat) (r r' : row) (rs : list row) (block : jsstring) :
    numbered_list (S n) (r' :: rs) block ->
    numbered_list n (r :: r' :: rs) (numbered_item n r ++ NL ++ NL ++ block).

(** A prompt with the context of the items: it opens with the instruction
    to answer from the items, and ends with the question, the numbered list
    of the items and the closing reminder. *)
Definition holds_items (prompt question : jsstring) (items : list row) : Prop :=
  exists rules block,
    prompt
    = lit "Answer the user's question using ONLY the Items below." ++ rules
      ++ NL ++ lit "Question:" ++ NL ++ question
      ++ NL ++ NL ++ lit "Items:" ++ NL ++ block
      ++ NL ++ NL
      ++ lit "Remember: Use bullets and bold formatting. Make it easy to scan."
    /\ numbered_list 1 items block.

(** A prompt with the context of a transcript: it opens with the
    instruction to answer about a transcript, and ends with the question,
    the text between two lines of three quotes and the closing reminder. *)
Definition holds_transcript (prompt question text : jsstring) : Prop :=
  exists rules,
    prompt
    = lit "You answer questions about a meeting transcript." ++ rules
      ++ NL ++ lit "Question:" ++ NL ++ question
      ++ NL ++ NL ++ lit "Transcript:" ++ NL ++ [34; 34; 34]%N ++ NL ++ text
      ++ NL ++ [34; 34; 34]%N ++ NL ++ NL
      ++ lit "Remember: Use bullets and bold formatting. Make it easy to scan.".

(** [text] is what is left of [raw] when its carriage returns are taken
    out and all but the last [MAX_TRANSCRIPT_CHARS] characters dropped. *)
Definition tail_of_transcript (raw text : jsstring) : Prop :=
  exists dropped,
    filter (fun c => c ≠ 13%N) raw = dropped ++ text
    /\ (dropped = [] \/ length text = MAX_TRANSCRIPT_CHARS)
    /\ (length text <= MAX_TRANSCRIPT_CHARS)%nat.

(** ** Patterns and dates *)

(** Character [c] is of the class [a]. *)
Definition atom_ok (a : atom) (c : N) : Prop := atom_matches a c = true.

(** [n] decimal digits. *)
Definition digits (n : nat) (s : jsstring) : Prop :=
  length s = n /\ Forall (fun c => is_digit c = true) s.

(** The timestamp pattern of a file name: [YYYY-MM-DD] or [YYYY/MM/DD], a
    separator (space, underscore or [T]) and [HH:MM:SS] or [HH.MM.SS]. *)
Definition is_stamp (s : jsstring) : Prop :=
  exists y mo d hh mm ss c1 c2 c3 c4 c5,
    s = y ++ [c1] ++ mo ++ [c2] ++ d ++ [c3] ++ hh ++ [c4] ++ mm ++ [c5] ++ ss
    /\ digits 4 y /\ digits 2 mo /\ digits 2 d
    /\ digits 2 hh /\ digits 2 mm /\ digits 2 ss
    /\ c1 ∈ [45; 47]%N /\ c2 ∈ [45; 47]%N /\ c3 ∈ [32; 95; 84]%N
    /\ c4 ∈ [46; 58]%N /\ c5 ∈ [46; 58]%N.

(** The pattern occurs in [name] at offset [i] and ends at a word boundary:
    at the end of the name or before a character that is not a letter, a
    digit or an underscore. *)
Definition stamp_at (i : nat) (name : jsstring) : Prop :=
  exists stamp rest,
    drop i name = stamp ++ rest /\ is_stamp stamp
    /\ (rest = [] \/ exists c rest', rest = c :: rest' /\ is_word c = false).

(** A parameter that reads as a date: after trimming, two digits, a slash,
    two digits, a slash and four digits, or four digits, a dash, two
    digits, a dash and two digits. *)
Definition date_shaped (v : option jsstring) : Prop :=
  let t := trim (or_default v []) in
  Forall2 atom_ok MDY_REGEX t \/ Forall2 atom_ok YMD_REGEX t.

(** The two spellings of a date the search accepts: [YYYY-MM-DD] and
    [MM/DD/YYYY]. *)
Definition ymd_string (y m d : Z) : jsstring :=
  pad 4 y ++ [45%N] ++ pad 2 m ++ [45%N] ++ pad 2 d.

Definition mdy_string (y m d : Z) : jsstring :=
  pad 2 m ++ [47%N] ++ pad 2 d ++ [47%N] ++ pad 4 y.

(** The first instant of a date, as the source computes it:
    [Date.UTC(y, m - 1, d)]. *)
Definition start_of_date (y m d : Z) : Z := Date_UTC y (m - 1) d 0 0 0.

(** ** Keywords *)

(** The words of a text: its longest runs of characters that are neither
    commas nor white space, in their order.  The text is some separators,
    a word, and then nothing or a text that begins with a separator. *)
Inductive words_of : jsstring -> list jsstring -> Prop :=
| words_none (s : jsstring) :
    Forall (fun c => is_sep c = true) s -> words_of s []
| words_more (seps w rest : jsstring) (ws : list jsstring) :
    Forall (fun c => is_sep c = true) seps ->
    w ≠ [] -> Forall (fun c => is_sep c = false) w ->
    (rest = [] \/ exists c r, rest = c :: r /\ is_sep c = true) ->
    words_of rest ws ->
    words_of (seps ++ w ++ rest) (w :: ws).

(** A text of white space only, or of nothing. *)
Definition blank (s : jsstring) : Prop :=
  Forall (fun c => is_space c = true) s.

(** [w] is a substring of [h] when case is ignored: lower-cased, [w]
    stands somewhere in the lower-cased [h]. *)
Definition ci_substring (w h : jsstring) : Prop :=
  exists pre post, toLowerCase h = pre ++ toLowerCase w ++ post.

(** At least one of the terms is a case-insensitive substring of [h]. *)
Definition some_term_in (terms : list jsstring) (h : jsstring) : Prop :=
  exists w, w ∈ terms /\ ci_substring w h.

(** The matching rule of the specification for one candidate: a term occurs
    in the file name, or no term does, fewer than [MAX_CONTENT_CHECKS]
    content checks were made so far, the content can be read and a term
    occurs in it. *)
Definition keyword_rule (terms : list jsstring) (name : jsstring)
    (content : result jsstring) (checks : Z) : Prop :=
  some_term_in terms name
  \/ (~ some_term_in terms name /\ checks < MAX_CONTENT_CHECKS
      /\ exists body, content = Ok body /\ some_term_in terms body).

(** ** Order and number of results *)

(** The lexicographic order of strings, by code units. *)
Inductive lex_le : jsstring -> jsstring -> Prop :=
| lex_le_nil (b : jsstring) : lex_le [] b
| lex_le_lt (x y : N) (a b : jsstring) : (x < y)%N -> lex_le (x :: a) (y :: b)
| lex_le_eq (x : N) (a b : jsstring) : lex_le a b -> lex_le (x :: a) (x :: b).

(** [x] may stand before [y] for the comparator [cmp] of a sort. *)
Definition in_order {A : Type} (cmp : A -> A -> comparison) (x y : A) : Prop :=
  cmp x y ≠ Gt.

(** Sorted by [modified], descending: every element's [modified] is at
    least that of every element after it. *)
Definition sorted_by_modified_desc (rs : list transcript_file) : Prop :=
  StronglySorted (fun a b => lex_le (modified b) (modified a)) rs.

(** A consistent comparator, as the language definition asks of the
    argument of [sort]: it orders every two elements one way, and its
    "not after" is transitive. *)
Definition consistent_comparator {A : Type} (cmp : A -> A -> comparison) : Prop :=
  (forall x y, cmp y x = CompOpp (cmp x y))
  /\ (forall x y z, cmp x y ≠ Gt -> cmp y z ≠ Gt -> cmp x z ≠ Gt).

(** The elements of [l'] that compare equal to [x] are those of [l], in the
    order they have in [l]. *)
Definition is_equal {A : Type} (cmp : A -> A -> comparison) (x y : A) : bool :=
  match cmp x y with Eq => true | _ => false end.

Definition keeps_equals_in_order {A : Type} (cmp : A -> A -> comparison)
    (l l' : list A) : Prop :=
  forall x, List.filter (is_equal cmp x) l' = List.filter (is_equal cmp x) l.

(** The number [x] is the whole number [n]. *)
Definition whole_number (x : jsnum) (n : Z) : Prop :=
  match x with
  | Num q => (q == inject_Z n)%Q
  | _ => False
  end.

(** [n <= x] for an array length [n]; a comparison with [NaN] is false. *)
Definition length_le (n : nat) (x : jsnum) : Prop :=
  match x with
  | NaN => False
  | PosInf => True
  | NegInf => False
  | Num q => (inject_Z (Z.of_nat n) <= q)%Q
  end.

(** ** Histories *)

(** A history made of exchanges: a user turn, then the model's turn. *)
Inductive exchanges : list turn -> Prop :=
| exchanges_nil : exchanges []
| exchanges_cons (prompt answer : jsstring) (h : list turn) :
    exchanges h -> exchanges (Turn User prompt :: Turn Model answer :: h).

(** The action of a request, as the handler compares it. *)
Definition action_of (rq : query) : jsstring :=
  toLowerCase (or_default (q_action rq) (lit "ask")).

(** The session a [cleartranscriptconversation] request removes. *)
Definition cleared_transcript_session_of (rq : query) : jsstring :=
  or_default (q_sessionId rq) (lit "tr_default").

(** Every history of both stores satisfies [P]. *)
Definition histories_satisfy (P : list turn -> Prop) (st : stores) : Prop :=
  map_Forall (fun _ c => P (history c)) (conversations st)
  /\ map_Forall (fun _ c => P (t_history c)) (transcriptConversations st).

(** Every answer of the language model satisfies [Q]. *)
Definition answers_satisfy (Q : jsstring -> Prop) (e : env) : Prop :=
  forall model userText h answer,
    on_gemini e model userText h = Ok answer -> Q answer.

(** ** Credentials *)

(** [x] stands in [s] between the first and the second [sep], or between
    the first [sep] and the end. *)
Definition second_field (sep : N) (s x : jsstring) : Prop :=
  exists first rest,
    s = first ++ [sep] ++ x ++ rest
    /\ (sep ∉ first) /\ (sep ∉ x) /\ (rest = [] \/ exists r, rest = sep :: r).

(** The header [auth] reads [Basic], a space and a token, which may be
    followed by a space and more; the token decodes to a user name, a colon
    and [password], which may be followed by a colon and more. *)
Definition basic_credentials (decode : jsstring -> jsstring)
    (password auth : jsstring) : Prop :=
  exists token,
    second_field 32 auth token
    /\ startsWith (lit "Basic ") auth = true
    /\ second_field 58 (decode token) password.

(** ** Reading a string literal back *)

Definition hex_val (c : N) : option N :=
  if is_digit c then Some (c - 48)%N
  else if ((97 <=? c) && (c <=? 102))%N then Some (c - 87)%N
  else None.

Definition hex4 (a b c d : N) : option N :=
  match hex_val a, hex_val b, hex_val c, hex_val d with
  | Some x, Some y, Some z, Some w => Some (4096 * x + 256 * y + 16 * z + w)%N
  | _, _, _, _ => None
  end.

(** The code unit a escape letter stands for. *)
Definition escaped_unit (e : N) : option N :=
  if (e =? 98)%N then Some 8%N
  else if (e =? 116)%N then Some 9%N
  else if (e =? 110)%N then Some 10%N
  else if (e =? 102)%N then Some 12%N
  else if (e =? 114)%N then Some 13%N
  else if (e =? 34)%N then Some 34%N
  else if (e =? 92)%N then Some 92%N
  else None.

(** Read the inside of a string literal up to its closing quote: the
    string and what follows the quote. *)
Fixpoint unquote_units (s : jsstring) : option (jsstring * jsstring) :=
  match s with
  | [] => None
  | c :: s1 =>
      if (c =? 34)%N then Some ([], s1)
      else if (c =? 92)%N then
        match s1 with
        | [] => None
        | e :: s2 =>
            if (e =? 117)%N then
              match s2 with
              | a :: b :: c' :: d :: s3 =>
                  match hex4 a b c' d, unquote_units s3 with
                  | Some u, Some (t, rest) => Some (u :: t, rest)
                  | _, _ => None
                  end
              | _ => None
              end
            else
              match escaped_unit e, unquote_units s2 with
              | Some u, Some (t, rest) => Some (u :: t, rest)
              | _, _ => None
              end
        end
      else
        match unquote_units s1 with
        | Some (t, rest) => Some (c :: t, rest)
        | None => None
        end
  end.

(** ** What the local search returns *)

(** Timestamp [t] passes the two date tests of a scan. *)
Definition in_window (c : scan_config) (t : Z) : Prop :=
  before_from (fromMs c) t = false /\ at_or_after_to (toMs c) t = false.

(** An entry as the local scan builds it for a file [name] of some folder:
    the name has a transcript extension, the id is the path of the file, the
    link is the [file://] link of that path and [modified] is the ISO form
    of a timestamp that passes the date tests. *)
Definition local_entry (path_join : jsstring -> jsstring -> jsstring)
    (c : scan_config) (r : transcript_file) : Prop :=
  hasAllowedTranscriptExt (name r) = true
  /\ (exists folder, id r = path_join folder (name r))
  /\ mimeType r = lit "text/plain"
  /\ link r = lit "file://" ++ id r
  /\ exists t, modified r = toISOString t /\ in_window c t.

(** The folder tree as far as the scan reads it: [levels] is the number of
    levels of subfolders that are still read; a subfolder below them is
    taken as empty. *)
Fixpoint prune (levels : nat) (n : node) {struct n} : node :=
  match n with
  | Dir items =>
      match levels with
      | O => Dir ENil
      | S k => Dir (prune_entries k items)
      end
  | DirUnreadable e =>
      match levels with
      | O => Dir ENil
      | S _ => DirUnreadable e
      end
  | File mtime content => File mtime content
  | NoStat e => NoStat e
  end
with prune_entries (levels : nat) (items : entries) {struct items} : entries :=
  match items with
  | ENil => ENil
  | ECons item n rest => ECons item (prune levels n) (prune_entries levels rest)
  end.

(** The world with another transcripts folder. *)
Definition with_local_root (root : option (result entries)) (w : world) : world :=
  {| TRANSCRIPTS_FOLDER := TRANSCRIPTS_FOLDER w;
     path_join := path_join w;
     local_root := root;
     now := now w;
     useGoogleDrive := useGoogleDrive w;
     gdrive_listing := gdrive_listing w |}.

(** The transcripts folder with its subfolders of the fourth level and
    below taken as empty. *)
Definition pruned_root (root : option (result entries)) : option (result entries) :=
  match root with
  | Some (Ok items) => Some (Ok (prune_entries 3 items))
  | other => other
  end.

(** ** The candidates of a search and its hits *)

(** A candidate of a search: a transcript file that passes the date filter,
    with its name, what reading its content gives, and the entry the search
    makes for it around a preview. *)
Record candidate := Candidate {
  c_name : jsstring;
  c_content : result jsstring;
  c_entry : jsstring -> transcript_file
}.

(** The file [item] at [itemPath] as a candidate of the local search, if it
    is one: its name has a transcript extension and its timestamp, the one
    of its name or else its modification time, passes the date tests. *)
Definition local_candidate (c : scan_config) (itemPath item : jsstring)
    (mtime : Z) (content : result jsstring) : list candidate :=
  let nameMs := or_ms (parseNameTimestampMs item) mtime in
  if hasAllowedTranscriptExt item
     && negb (before_from (fromMs c) nameMs)
     && negb (at_or_after_to (toMs c) nameMs)
  then [{| c_name := item;
           c_content := content;
           c_entry := fun preview =>
             {| id := itemPath; name := item; mimeType := lit "text/plain";
                modified := toISOString nameMs;
                link := lit "file://" ++ itemPath;
                preview := preview |} |}]
  else [].

(** The candidates of a folder in the order of its listing: those among its
    files, and among the files of [levels] levels of subfolders, each
    subfolder at the place of its name.  An item that cannot be examined
    and a folder that cannot be listed hold none. *)
Fixpoint candidates_of_node (pj : jsstring -> jsstring -> jsstring)
    (c : scan_config) (levels : nat) (folderPath item : jsstring) (n : node)
    {struct n} : list candidate :=
  match n with
  | File mtime content => local_candidate c (pj folderPath item) item mtime content
  | Dir items =>
      match levels with
      | O => []
      | S k => candidates_of_entries pj c k (pj folderPath item) items
      end
  | DirUnreadable _ => []
  | NoStat _ => []
  end
with candidates_of_entries (pj : jsstring -> jsstring -> jsstring)
    (c : scan_config) (levels : nat) (folderPath : jsstring) (items : entries)
    {struct items} : list candidate :=
  match items with
  | ENil => []
  | ECons item n rest =>
      candidates_of_node pj c levels folderPath item n
      ++ candidates_of_entries pj c levels folderPath rest
  end.

(** The candidates of a local search: those of the transcripts folder and
    of three levels of subfolders. *)
Definition local_candidates (w : world) (p : query) : list candidate :=
  match local_root w with
  | Some (Ok items) =>
      candidates_of_entries (path_join w) (config_of p) 3
        (or_default (TRANSCRIPTS_FOLDER w) (lit "./transcripts")) items
  | _ => []
  end.

(** The file [f] of the Drive listing as a candidate, if the date tests do
    not exclude it. *)
Definition drive_candidate (now : Z) (c : scan_config) (f : drive_file)
  : list candidate :=
  if gdrive_excluded c (gdrive_nameMs now f) then []
  else [{| c_name := f_name f;
           c_content := f_content f;
           c_entry := fun preview =>
             {| id := lit "gdrive:" ++ f_id f; name := f_name f;
                mimeType := or_default (Some (f_mimeType f)) (lit "text/plain");
                modified := or_default (Some (f_modifiedTime f))
                              (toISOString (or_ms (parseNameTimestampMs (f_name f)) now));
                link := lit "https://drive.google.com/file/d/" ++ f_id f ++ lit "/view";
                preview := preview |} |}].

(** The candidates of a Drive search: those among the transcript files of
    the listing, in its order. *)
Definition drive_candidates (w : world) (p : query) : list candidate :=
  match gdrive_listing w with
  | Ok allFiles =>
      flat_map (drive_candidate (now w) (config_of p))
        (filter (fun f => is_transcript_file f = true) allFiles)
  | Throw _ => []
  end.

(** The hits among the candidates, taken in their order, when [checks]
    contents have been read before: a candidate with a term in its name is a
    hit, without a preview; for any other candidate the content is read as
    long as fewer than [MAX_CONTENT_CHECKS] contents have been read, a
    content that is read counts, and the candidate is a hit when a term is in
    its content, with the preview of that content. *)
Inductive scan_hits (terms : list jsstring)
  : Z -> list candidate -> list transcript_file -> Prop :=
| hits_done (checks : Z) : scan_hits terms checks [] []
| hit_by_name (checks : Z) (f : candidate) (fs : list candidate)
    (hits : list transcript_file) :
    some_term_in terms (c_name f) ->
    scan_hits terms checks fs hits ->
    scan_hits terms checks (f :: fs) (c_entry f [] :: hits)
| hit_by_content (checks : Z) (f : candidate) (fs : list candidate)
    (hits : list transcript_file) (body : jsstring) :
    ~ some_term_in terms (c_name f) -> checks < MAX_CONTENT_CHECKS ->
    c_content f = Ok body -> some_term_in terms body ->
    scan_hits terms (checks + 1) fs hits ->
    scan_hits terms checks (f :: fs) (c_entry f (makePreview body 500) :: hits)
| miss_by_content (checks : Z) (f : candidate) (fs : list candidate)
    (hits : list transcript_file) (body : jsstring) :
    ~ some_term_in terms (c_name f) -> checks < MAX_CONTENT_CHECKS ->
    c_content f = Ok body -> ~ some_term_in terms body ->
    scan_hits terms (checks + 1) fs hits ->
    scan_hits terms checks (f :: fs) hits
| miss_unreadable (checks : Z) (f : candidate) (fs : list candidate)
    (hits : list transcript_file) (e : exn) :
    ~ some_term_in terms (c_name f) -> checks < MAX_CONTENT_CHECKS ->
    c_content f = Throw e ->
    scan_hits terms checks fs hits ->
    scan_hits terms checks (f :: fs) hits
| miss_unchecked (checks : Z) (f : candidate) (fs : list candidate)
    (hits : list transcript_file) :
    ~ some_term_in terms (c_name f) -> MAX_CONTENT_CHECKS <= checks ->
    scan_hits terms checks fs hits ->
    scan_hits terms checks (f :: fs) hits.

(** ** Calendar dates *)

(** [y-m-d] is a date of the calendar. *)
Definition valid_date (y m d : Z) : Prop :=
  1 <= m <= 12 /\ 1 <= d <= DaysInMonth y m.

(** The time values whose year has four digits: from 0000-01-01T00:00:00Z
    to 9999-12-31T23:59:59.999Z. *)
Definition four_digit_year (t : Z) : Prop :=
  -62167219200000 <= t <= 253402300799999.

(** The time value of a date and a time of day. *)
Definition time_value (y m d h mi s ms : Z) : Z :=
  MakeDate (MakeDay y (m - 1) d) (MakeTime h mi s ms).

(** [YYYY-MM-DDTHH:MM:SS.mmmZ] *)
Definition iso_string (y m d h mi s ms : Z) : jsstring :=
  pad 4 y ++ [45%N] ++ pad 2 m ++ [45%N] ++ pad 2 d ++ [84%N]
  ++ pad 2 h ++ [58%N] ++ pad 2 mi ++ [58%N] ++ pad 2 s ++ [46%N]
  ++ pad 3 ms ++ [90%N].

(** The year [Date.UTC] takes for [y]. *)
Definition full_year (y : Z) : Z :=
  if (0 <=? y) && (y <=? 99) then 1900 + y else y.

(** The month after month [m] of year [y]. *)
Definition next_month (y m : Z) : Z * Z :=
  if m =? 12 then (y + 1, 1) else (y, m + 1).

(** A timestamp as a file name may carry it: the date, a separator, the
    time of day, with the separators [c1] to [c5]. *)
Definition stamp_string (y m d h mi s : Z) (c1 c2 c3 c4 c5 : N) : jsstring :=
  pad 4 y ++ [c1] ++ pad 2 m ++ [c2] ++ pad 2 d ++ [c3]
  ++ pad 2 h ++ [c4] ++ pad 2 mi ++ [c5] ++ pad 2 s.

(** ** Answers *)

(** A text that is not empty and has no white space at either end. *)
Definition trimmed_text (s : jsstring) : Prop := s ≠ [] /\ trim s = s.

(** Every model turn of the history holds a trimmed text. *)
Definition answers_trimmed (h : list turn) : Prop :=
  Forall (fun t => role_of t = Model -> trimmed_text (text t)) h.

(** The language model of the outside is [gemini] over some key and some
    HTTP client. *)
Definition calls_gemini (e : env) : Prop :=
  exists apiKey post, on_gemini e = gemini apiKey post.

(** ** The Drive folder *)

(** The Drive folder as far as the listing reads it: [levels] is the number
    of levels of subfolders that are still listed; the listing of a folder
    below them is taken as one empty page. *)
Fixpoint prune_drive (levels : nat) (entry : drive_entry) {struct entry}
  : drive_entry :=
  match entry with
  | DriveEntry f children =>
      DriveEntry f
        (match levels with
         | O => LastPage DNil
         | S k => prune_pages k children
         end)
  end
with prune_pages (levels : nat) (pages : drive_pages) {struct pages}
  : drive_pages :=
  match pages with
  | ListFails e => ListFails e
  | LastPage files => LastPage (prune_drive_entries levels files)
  | MorePages files next =>
      MorePages (prune_drive_entries levels files) (prune_pages levels next)
  end
with prune_drive_entries (levels : nat) (files : drive_entries) {struct files}
  : drive_entries :=
  match files with
  | DNil => DNil
  | DCons entry rest =>
      DCons (prune_drive levels entry) (prune_drive_entries levels rest)
  end.

(** The files of a snapshot, at any depth. *)
Fixpoint files_of_entry (entry : drive_entry) : list drive_file :=
  match entry with
  | DriveEntry f children => f :: files_of_pages children
  end
with files_of_pages (pages : drive_pages) : list drive_file :=
  match pages with
  | ListFails _ => []
  | LastPage files => files_of_entries files
  | MorePages files next => files_of_entries files ++ files_of_pages next
  end
with files_of_entries (files : drive_entries) : list drive_file :=
  match files with
  | DNil => []
  | DCons entry rest => files_of_entry entry ++ files_of_entries rest
  end.

(** The entries a folder shows, over all the pages of its listing. *)
Fixpoint entries_list (files : drive_entries) : list drive_entry :=
  match files with
  | DNil => []
  | DCons entry rest => entry :: entries_list rest
  end.

Fixpoint entries_of_pages (pages : drive_pages) : list drive_entry :=
  match pages with
  | ListFails _ => []
  | LastPage files => entries_list files
  | MorePages files next => entries_list files ++ entries_of_pages next
  end.

(** File [f] is within [levels] levels of subfolders of the folder whose
    listing is [pages]: it is an entry of the folder that is no folder, or it
    is within one level less of a folder that is an entry of the folder. *)
Inductive listed_in : nat -> drive_pages -> drive_file -> Prop :=
| listed_here (levels : nat) (pages children : drive_pages) (f : drive_file) :
    DriveEntry f children ∈ entries_of_pages pages ->
    f_mimeType f ≠ FOLDER_MIME ->
    listed_in levels pages f
| listed_below (levels : nat) (pages children : drive_pages)
    (folder f : drive_file) :
    DriveEntry folder children ∈ entries_of_pages pages ->
    f_mimeType folder = FOLDER_MIME ->
    listed_in levels children f ->
    listed_in (S levels) pages f.

Scheme drive_entry_mut := Induction for drive_entry Sort Prop
  with drive_pages_mut := Induction for drive_pages Sort Prop
  with drive_entries_mut := Induction for drive_entries Sort Prop.
Combined Scheme drive_ind from drive_entry_mut, drive_pages_mut, drive_entries_mut.

(** An entry as the Drive scan builds it for a file [f]. *)
Definition drive_entry_of (f : drive_file) (r : transcript_file) : Prop :=
  id r = lit "gdrive:" ++ f_id f
  /\ name r = f_name f
  /\ mimeType r = or_default (Some (f_mimeType f)) (lit "text/plain")
  /\ link r = lit "https://drive.google.com/file/d/" ++ f_id f ++ lit "/view".

(** The world in which the Drive folder is [root]. *)
Definition with_drive (root : drive_pages) (w : world) : world :=
  {| TRANSCRIPTS_FOLDER := TRANSCRIPTS_FOLDER w;
     path_join := path_join w;
     local_root := local_root w;
     now := now w;
     useGoogleDrive := useGoogleDrive w;
     gdrive_listing := gdriveListAllFiles root 0 |}.

(** ** Query strings *)

(** A character that ends or separates the parameters of a query string:
    an ampersand, a number sign, a plus sign or a space. *)
Definition is_query_delimiter (c : N) : bool :=
  ((c =? 38) || (c =? 35) || (c =? 43) || (c =? 32))%N.

Definition delimiter_free (s : jsstring) : Prop :=
  forallb (fun c => negb (is_query_delimiter c)) s = true.

(** ** Checks of the calendar computation, and induction on a folder *)

(** [f] holds for the [n] integers from [z] on. *)
Fixpoint all_from (n : nat) (z : Z) (f : Z -> bool) : bool :=
  match n with
  | O => true
  | S k => if f z then all_from k (z + 1) f else false
  end.

(** Year [yoe] of an era starts on 1 March: its day number in the era, as
    the calendar computation takes it, against [DayFromYear]
    ([719468] days separate 0000-03-01 from 1970-01-01; January and February
    belong to the next year). *)
Definition year_of_era_ok (yoe : Z) : bool :=
  let start := 365 * yoe + yoe / 4 - yoe / 100 in
  (DayFromYear yoe + 59 + (if InLeapYear yoe then 1 else 0) =? start - 719468)
  && (DayFromYear (yoe + 1) =? start + 306 - 719468).

(** Day [doy] of a year that starts on 1 March: the month and the day of
    the month the calendar computation gives, against the table of
    [MakeDay]; [leap] tells whether the calendar year of the date is a leap
    year, and day 365 exists only before a leap year's March. *)
Definition day_of_year_ok (leap : bool) (doy : Z) : bool :=
  let mp := (5 * doy + 2) / 153 in
  let m := if mp <? 10 then mp + 3 else mp - 9 in
  let d := doy - (153 * mp + 2) / 5 + 1 in
  if (doy =? 365) && negb leap then true
  else (1 <=? m) && (m <=? 12) && (1 <=? d) && (d <=? days_in_month leap m)
       && (days_before_month leap (m - 1) + d - 1
           =? (if m <=? 2 then doy - 306
               else doy + 59 + (if leap then 1 else 0))).

(** One turn of a scan for a candidate, the scan as a loop over candidates
    that stops at the limit, and the entries the keyword test accepts along
    a list of candidates with the number of contents read at its end. *)
Definition scan_candidate (kws : list jsstring) (f : candidate)
    (st : scan_state) : scan_state :=
  let '(hit, preview, checks') :=
    keyword_check kws (c_name f) (c_content f) (checks st) in
  if hit then {| results := results st ++ [c_entry f preview]; checks := checks' |}
  else {| results := results st; checks := checks' |}.

Fixpoint scan_list (c : scan_config) (fs : list candidate) (st : scan_state)
  : scan_state :=
  match fs with
  | [] => st
  | f :: fs' =>
      if limit_reached c st then st
      else scan_list c fs' (scan_candidate (kws c) f st)
  end.

Fixpoint hits_from (kws : list jsstring) (checks : Z) (fs : list candidate)
  : list transcript_file * Z :=
  match fs with
  | [] => ([], checks)
  | f :: fs' =>
      let '(hit, preview, checks') :=
        keyword_check kws (c_name f) (c_content f) checks in
      let '(hits, k) := hits_from kws checks' fs' in
      (if hit then c_entry f preview :: hits else hits, k)
  end.

Scheme node_mut := Induction for node Sort Prop
  with entries_mut := Induction for entries Sort Prop.
Combined Scheme node_entries_ind from node_mut, entries_mut.

(** ** Example data *)

(** Example data: one row of the data store, an outside that answers every
    query with it and every language-model call with the same text, and in
    which no transcript can be read. *)
Definition example_fetched : fetched :=
  {| rows := [Row (lit "Kickoff") (lit "2024-01-05") (lit "Budget  review")
                  (lit "Ukraine") (lit "Meeting") [] [] []];
     restUrl := lit "https://db.example/rest/v1/meetings?select=*";
     sqlApprox := lit "select * from public.meetings";
     filters := lit "limit=100" |}.

Definition example_env : env :=
  {| on_fetch := fun _ => Ok example_fetched;
     on_gemini := fun _ _ _ => Ok (lit "<ul><li>Budget</li></ul>");
     on_fs_read := fun _ => Throw (Error (lit "ENOENT: no such file or directory"));
     on_gdrive_read := fun _ => Throw (Error (lit "Google Drive not configured"));
     on_add_note := fun _ => Throw (Error (lit "Supabase insert HTTP 401")) |}.

Definition example_ask : query :=
  Query (Some (lit "ask")) (Some (lit "s1")) None None None None
        (Some (lit "budget")) None None (Some (lit "What changed?")) None None None.

(** [path.join] of a POSIX platform, for two arguments: the arguments
    that are not empty, joined by a slash and normalised.  The segments
    [.] and the empty ones go; a segment [..] takes away the segment before
    it, or stays when there is none to take in a relative path. *)
Fixpoint posix_segments (absolute : bool) (acc segments : list jsstring)
  : list jsstring :=
  match segments with
  | [] => rev acc
  | s :: segments' =>
      if bool_decide (s = [] \/ s = lit ".") then
        posix_segments absolute acc segments'
      else if bool_decide (s = lit "..") then
        match acc with
        | a :: acc' =>
            if bool_decide (a = lit "..")
            then posix_segments absolute (s :: acc) segments'
            else posix_segments absolute acc' segments'
        | [] =>
            if absolute then posix_segments absolute [] segments'
            else posix_segments absolute [s] segments'
        end
      else posix_segments absolute (s :: acc) segments'
  end.

Definition posix_normalize (path : jsstring) : jsstring :=
  match path with
  | [] => lit "."
  | _ =>
      let absolute := startsWith (lit "/") path in
      let trailing := endsWith (lit "/") path in
      match join (lit "/") (posix_segments absolute [] (split_at 47 path)) with
      | [] => if absolute then lit "/"
              else if trailing then lit "./" else lit "."
      | body =>
          (if absolute then lit "/" else [])
          ++ body ++ (if trailing then lit "/" else [])
      end
  end.

Definition example_path_join (folder item : jsstring) : jsstring :=
  match folder, item with
  | [], [] => lit "."
  | [], _ => posix_normalize item
  | _, [] => posix_normalize folder
  | _, _ => posix_normalize (folder ++ lit "/" ++ item)
  end.

(** A runtime for the scenarios, whose texts are ASCII and whose dates are
    written in the format of [toISOString]: lower-casing maps the letters
    [A] to [Z], strings compare by their code units from the left, and no
    other date format is read. *)
Definition example_lower_unit (c : N) : N :=
  if ((65 <=? c) && (c <=? 90))%N then (c + 32)%N else c.

Fixpoint compare_units (a b : jsstring) : comparison :=
  match a, b with
  | [], [] => Eq
  | [], _ :: _ => Lt
  | _ :: _, [] => Gt
  | x :: a', y :: b' =>
      match (x ?= y)%N with
      | Eq => compare_units a' b'
      | o => o
      end
  end.

Definition example_runtime : Runtime :=
  {| toLowerCase := map example_lower_unit;
     localeCompare := compare_units;
     Date_parse_other := fun _ => None |}.

(** A world with an empty transcripts folder and no Drive. *)
Definition example_world : world :=
  {| TRANSCRIPTS_FOLDER := None;
     path_join := example_path_join;
     local_root := Some (Ok ENil);
     now := 1704448800000;
     useGoogleDrive := false;
     gdrive_listing := Throw (Error (lit "Google Drive not configured")) |}.

Definition example_asktranscript : query :=
  Query (Some (lit "asktranscript")) None None None None None None None None
        (Some (lit "Who spoke?")) None (Some (lit "/data/missing.txt")) None.

(** The transcript store in which the default session has had one turn
    about [/data/missing.txt]. *)
Definition example_followup_stores : stores :=
  Stores ∅
    {[ lit "tr_default" :=
         TranscriptConversation
           [Turn User (lit "first prompt"); Turn Model (lit "first answer")]
           (Some (lit "/data/missing.txt")) ]}.

(** A name that carries the timestamp pattern, but not at its start. *)
Definition example_late_stamp_name : jsstring :=
  lit "Notes 2024-01-05 10.00.00.txt".

(** The search scenario of the specification: the keyword [budget], a file
    whose content holds it and a file without it. *)
Definition example_search : query :=
  Query (Some (lit "findtranscripts")) None None None None None None None None
        None None None (Some (lit "budget")).

Definition example_notes_name : jsstring := lit "2024-01-05 10.00.00 notes.txt".
Definition example_notes_body : jsstring := lit "Budget   review".

Definition example_search_world : world :=
  {| TRANSCRIPTS_FOLDER := None;
     path_join := example_path_join;
     local_root :=
       Some (Ok (ECons example_notes_name (File 0 (Ok example_notes_body))
                (ECons (lit "2024-02-01 09.00.00 other.txt")
                       (File 0 (Ok (lit "nothing here"))) ENil)));
     now := 1704448800000;
     useGoogleDrive := false;
     gdrive_listing := Throw (Error (lit "Google Drive not configured")) |}.

(** A search for [2024] with [limit=1]: both files of the scenario hold
    the term in their names. *)
Definition example_limit_one : query :=
  Query (Some (lit "findtranscripts")) None None None None None None
        (Some (lit "1")) None None None None (Some (lit "2024")).

(** A search without keywords, dates or limit. *)
Definition example_plain_search : query :=
  Query (Some (lit "findtranscripts")) None None None None None None None None
        None None None None.

(** A transcripts folder with one file three folders down, in [a/b/c], and
    one file four folders down, in [a/b/c/d]. *)
Definition example_deep_world : world :=
  {| TRANSCRIPTS_FOLDER := None;
     path_join := example_path_join;
     local_root :=
       Some (Ok
         (ECons (lit "a")
            (Dir (ECons (lit "b")
               (Dir (ECons (lit "c")
                  (Dir (ECons (lit "2024-03-01 08.00.00 deep.txt")
                          (File 0 (Ok (lit "Three folders down.")))
                       (ECons (lit "d")
                          (Dir (ECons (lit "2024-03-02 08.00.00 deeper.txt")
                                  (File 0 (Ok (lit "Four folders down.")))
                                  ENil))
                          ENil)))
                  ENil))
               ENil))
            ENil));
     now := 1704448800000;
     useGoogleDrive := false;
     gdrive_listing := Throw (Error (lit "Google Drive not configured")) |}.

(** A transcript whose text, once white space is collapsed, is longer than
    500 characters: [budget] and 600 times the letter x. *)
Definition example_long_body : jsstring :=
  lit "budget " ++ repeat 120%N 600.

(** A search with [limit=-5]. *)
Definition example_negative_limit : query :=
  Query (Some (lit "findtranscripts")) None None None None None None
        (Some (lit "-5")) None None None None None.

(** A search for the transcripts up to 31 December 1969. *)
Definition example_epoch_query : query :=
  Query (Some (lit "findtranscripts")) None None (Some (lit "1969-12-31"))
        None None None None None None None None None.

(** A search for the transcripts up to 5 January 2024. *)
Definition example_to_query : query :=
  Query (Some (lit "findtranscripts")) None None (Some (lit "2024-01-05"))
        None None None None None None None None None.

(** A document of the Drive listing whose content holds [budget]. *)
Definition example_drive_file : drive_file :=
  {| f_id := lit "1AbC";
     f_name := lit "Weekly sync";
     f_mimeType := lit "application/vnd.google-apps.document";
     f_modifiedTime := lit "2024-01-05T10:00:00.000Z";
     f_content := Ok (lit "The BUDGET was approved.") |}.

(** An outside whose data store is down. *)
Definition example_down_env : env :=
  {| on_fetch := fun _ => Throw (Error (lit "Supabase HTTP 503: unavailable"));
     on_gemini := fun _ _ _ => Ok (lit "<ul><li>Budget</li></ul>");
     on_fs_read := fun _ => Throw (Error (lit "ENOENT: no such file or directory"));
     on_gdrive_read := fun _ => Throw (Error (lit "Google Drive not configured"));
     on_add_note := fun _ => Throw (Error (lit "Supabase insert HTTP 401")) |}.

(** An outside in which every local transcript reads as the same text. *)
Definition example_reading_env : env :=
  {| on_fetch := fun _ => Ok example_fetched;
     on_gemini := fun _ _ _ => Ok (lit "<ul><li>Ana</li></ul>");
     on_fs_read := fun _ => Ok (lit "Ana: welcome." ++ [13; 10]%N ++ lit "Ben: thanks.");
     on_gdrive_read := fun _ => Throw (Error (lit "Google Drive not configured"));
     on_add_note := fun _ => Throw (Error (lit "Supabase insert HTTP 401")) |}.

(** The general store in which session [s1] holds twenty exchanges under
    the fingerprint of [example_ask]. *)
Definition example_full_stores : stores :=
  Stores
    {[ lit "s1" :=
         Conversation
           (concat (replicate 20 [Turn User (lit "question"); Turn Model (lit "answer")]))
           (Some (filtersKey_of (ask_params example_ask))) ]}
    ∅.

(** A decoder that knows one token, the base64 form of [user:secret]. *)
Definition example_decode (token : jsstring) : jsstring :=
  if decide (token = lit "dXNlcjpzZWNyZXQ=") then lit "user:secret" else [].

(** A search from 5 January 2024 to 5 January 2024. *)
Definition example_day_query : query :=
  Query (Some (lit "findtranscripts")) None (Some (lit "2024-01-05"))
        (Some (lit "01/05/2024")) None None None None None None None None None.

(** A Drive folder with one page: the document of the scenario and a
    folder named [archive.txt] that holds one text file. *)
Definition example_drive : drive_pages :=
  LastPage
    (DCons (DriveEntry example_drive_file (LastPage DNil))
       (DCons
          (DriveEntry
             {| f_id := lit "2DeF";
                f_name := lit "archive.txt";
                f_mimeType := FOLDER_MIME;
                f_modifiedTime := lit "2024-01-02T08:00:00.000Z";
                f_content := Throw (Error (lit "not a file")) |}
             (LastPage
                (DCons
                   (DriveEntry
                      {| f_id := lit "3GhI";
                         f_name := lit "2023-12-01 09.00.00 retro.txt";
                         f_mimeType := lit "text/plain";
                         f_modifiedTime := lit "2023-12-01T10:00:00.000Z";
                         f_content := Ok (lit "No money talk.") |}
                      (LastPage DNil))
                   DNil)))
          DNil)).

(** The filters of a query for the topic [R&D]. *)
Definition example_topic_params : params :=
  {| p_from := lit "2024-01-01";
     p_to := [];
     p_type := lit "all";
     p_countries := lit "Spain, Italy";
     p_topic := lit "R&D";
     p_limit := num_of_Z 0;
     p_style := lit "normal";
     p_question := lit "What changed?" |}.

(** A [String(n)] that is right on the natural numbers. *)
Definition example_Number_toString (n : jsnum) : jsstring :=
  match n with
  | Num q => string_of_nat (Z.to_nat (Qnum q / Z.pos (Qden q)))
  | _ => lit "NaN"
  end.

(** * Properties *)

(** ** The conversation stores *)

(** C7: [clear] removes the session's entry and leaves the other sessions
    alone; the [get] that follows returns and stores the fresh state
    [{history: [], context: null}] (resp. [transcriptId: null]), and it does
    exactly what [get] does on a store that never held the id. *)
Theorem clear_then_get_is_fresh (sessionId : jsstring)
    (m m0 : gmap jsstring conversation)
    (tm tm0 : gmap jsstring transcript_conversation) :
  m0 !! sessionId = None ->
  (forall s, s ≠ sessionId -> m0 !! s = m !! s) ->
  tm0 !! sessionId = None ->
  (forall s, s ≠ sessionId -> tm0 !! s = tm !! s) ->
  (clearConversation sessionId m !! sessionId = None
   /\ (forall s, s ≠ sessionId -> clearConversation sessionId m !! s = m !! s)
   /\ getConversation sessionId (clearConversation sessionId m)
      = (Conversation [] None, <[sessionId := Conversation [] None]> m)
   /\ getConversation sessionId (clearConversation sessionId m)
      = getConversation sessionId m0)
  /\
  (clearTranscriptConversation sessionId tm !! sessionId = None
   /\ (forall s, s ≠ sessionId ->
         clearTranscriptConversation sessionId tm !! s = tm !! s)
   /\ getTranscriptConversation sessionId (clearTranscriptConversation sessionId tm)
      = (TranscriptConversation [] None,
         <[sessionId := TranscriptConversation [] None]> tm)
   /\ getTranscriptConversation sessionId (clearTranscriptConversation sessionId tm)
      = getTranscriptConversation sessionId tm0).
Proof.
  intros Hm0 Hrest Htm0 Htrest.
  assert (Em : m0 = delete sessionId m).
  { apply map_eq; intros s. destruct (decide (s = sessionId)) as [->|Hne].
    - by rewrite lookup_delete_eq.
    - rewrite lookup_delete_ne by done. by apply Hrest. }
  assert (Etm : tm0 = delete sessionId tm).
  { apply map_eq; intros s. destruct (decide (s = sessionId)) as [->|Hne].
    - by rewrite lookup_delete_eq.
    - rewrite lookup_delete_ne by done. by apply Htrest. }
  split.
  - unfold clearConversation, getConversation.
    rewrite lookup_delete_eq, insert_delete_eq. repeat split.
    + intros s Hne. by rewrite lookup_delete_ne.
    + subst m0. by rewrite lookup_delete_eq, insert_delete_eq.
  - unfold clearTranscriptConversation, getTranscriptConversation.
    rewrite lookup_delete_eq, insert_delete_eq. repeat split.
    + intros s Hne. by rewrite lookup_delete_ne.
    + subst tm0. by rewrite lookup_delete_eq, insert_delete_eq.
Qed.

(** The same on concrete stores: session [s1] holds two turns, is cleared
    and fetched again; [m0] is the store in which [s1] never appeared. *)
Lemma clear_then_get_is_fresh_witness :
  let s1 := lit "s1" in
  let c := Conversation [Turn User (lit "q"); Turn Model (lit "a")] (Some (lit "k")) in
  let t := TranscriptConversation [Turn User (lit "q"); Turn Model (lit "a")]
             (Some (lit "f.txt")) in
  getConversation s1 (clearConversation s1 (<[s1 := c]> ∅))
  = getConversation s1 ∅
  /\ getTranscriptConversation s1 (clearTranscriptConversation s1 (<[s1 := t]> ∅))
     = getTranscriptConversation s1 ∅.
Proof.
  intros s1 c t.
  pose proof (clear_then_get_is_fresh s1 (<[s1 := c]> ∅) ∅ (<[s1 := t]> ∅) ∅) as H.
  destruct H as [(_ & _ & _ & H1) (_ & _ & _ & H2)].
  - apply lookup_empty.
  - intros s Hne. by rewrite lookup_insert_ne.
  - apply lookup_empty.
  - intros s Hne. by rewrite lookup_insert_ne.
  - split; assumption.
Defined.

Lemma history_ok_nil : history_ok [].
Proof. split; [exists 0%nat; reflexivity | simpl; lia]. Qed.

Lemma push_turns_length (h : list turn) (prompt answer : jsstring) :
  length (push_turns h prompt answer) = Nat.min (length h + 2) 40.
Proof.
  unfold push_turns, MAX_CONVERSATION_HISTORY.
  change (20 * 2)%nat with 40%nat.
  destruct (40 <? length (h ++ [Turn User prompt; Turn Model answer]))%nat eqn:E.
  - apply Nat.ltb_lt in E. rewrite length_drop. rewrite length_app in *.
    simpl in *. lia.
  - apply Nat.ltb_ge in E. rewrite length_app in *. simpl in *. lia.
Qed.

Lemma push_turns_ok (h : list turn) (prompt answer : jsstring) :
  history_ok h -> history_ok (push_turns h prompt answer).
Proof.
  intros [[k Hk] Hle]. unfold history_ok, MAX_CONVERSATION_HISTORY in *.
  rewrite push_turns_length. split; [|lia].
  destruct (Nat.le_gt_cases (length h + 2) 40).
  - exists (S k). lia.
  - exists 20%nat. lia.
Qed.

Lemma stores_ok_initial : stores_ok initial_stores.
Proof. split; apply map_Forall_empty. Qed.

Lemma stores_ok_set_conversation (sessionId : jsstring) (c : conversation)
    (st : stores) :
  stores_ok st -> history_ok (history c) ->
  stores_ok (set_conversation sessionId c st).
Proof.
  intros [H1 H2] Hc. split; simpl; [|exact H2].
  by apply map_Forall_insert_2.
Qed.

Lemma stores_ok_set_transcript_conversation (sessionId : jsstring)
    (c : transcript_conversation) (st : stores) :
  stores_ok st -> history_ok (t_history c) ->
  stores_ok (set_transcript_conversation sessionId c st).
Proof.
  intros [H1 H2] Hc. split; simpl; [exact H1|].
  by apply map_Forall_insert_2.
Qed.

(** [get...] keeps the invariant and returns a session that satisfies it. *)
Lemma getConversation_ok (sessionId : jsstring) (st : stores) :
  stores_ok st ->
  history_ok (history (getConversation sessionId (conversations st)).1)
  /\ stores_ok (Stores (getConversation sessionId (conversations st)).2
                       (transcriptConversations st)).
Proof.
  intros [H1 H2]. unfold getConversation.
  destruct (conversations st !! sessionId) as [c|] eqn:E; simpl.
  - split; [exact (H1 _ _ E) | by split].
  - split; [apply history_ok_nil|].
    split; simpl; [|exact H2].
    apply map_Forall_insert_2; [apply history_ok_nil | exact H1].
Qed.

Lemma getTranscriptConversation_ok (sessionId : jsstring) (st : stores) :
  stores_ok st ->
  history_ok (t_history (getTranscriptConversation sessionId
                           (transcriptConversations st)).1)
  /\ stores_ok (Stores (conversations st)
                  (getTranscriptConversation sessionId
                     (transcriptConversations st)).2).
Proof.
  intros [H1 H2]. unfold getTranscriptConversation.
  destruct (transcriptConversations st !! sessionId) as [c|] eqn:E; simpl.
  - split; [exact (H2 _ _ E) | by split].
  - split; [apply history_ok_nil|].
    split; simpl; [exact H1|].
    apply map_Forall_insert_2; [apply history_ok_nil | exact H2].
Qed.

Lemma ask_keeps_stores_ok (e : env) (rq : query) (st : stores) :
  stores_ok st -> stores_ok (run e (ask rq st)).2.
Proof.
  intros Hst. unfold ask.
  destruct (getConversation_ok (or_default (q_sessionId rq) (lit "default")) st Hst)
    as [Hc Hst'].
  destruct (getConversation _ (conversations st)) as [conv cs]; simpl in Hc, Hst'.
  cbn [run]. destruct (on_fetch e _) as [f|err]; [|exact Hst'].
  cbn [run].
  set (conv' := if needsNewContext_of conv _ then _ else conv).
  assert (Hc' : history_ok (history conv')).
  { subst conv'. destruct (needsNewContext_of conv _); [apply history_ok_nil | exact Hc]. }
  destruct (on_gemini e _ _ _) as [answer|err]; cbn [run snd].
  - apply stores_ok_set_conversation; simpl.
    + by apply stores_ok_set_conversation.
    + by apply push_turns_ok.
  - by apply stores_ok_set_conversation.
Qed.

(** What the read of [askTranscript] gives for [id]. *)
Lemma run_read_transcript {A : Type} (e : env) (id : jsstring)
    (k : result jsstring -> io A) :
  run e (read_transcript id k) = run e (k (read_outcome e id)).
Proof.
  unfold read_transcript, read_outcome. by destruct (startsWith _ _).
Qed.

Lemma calls_read_transcript {A : Type} (e : env) (id : jsstring)
    (k : result jsstring -> io A) :
  calls e (read_transcript id k)
  = read_call id :: calls e (k (read_outcome e id)).
Proof.
  unfold read_transcript, read_outcome, read_call. by destruct (startsWith _ _).
Qed.

Lemma askTranscript_keeps_stores_ok (e : env) (p : query) (st : stores) :
  stores_ok st -> stores_ok (run e (askTranscript p st)).2.
Proof.
  intros Hst. unfold askTranscript.
  repeat (case_bool_decide; [exact Hst|]).
  destruct (getTranscriptConversation_ok
              (trim (or_default (q_sessionId p) (lit "tr_default"))) st Hst)
    as [Hc Hst'].
  destruct (getTranscriptConversation _ (transcriptConversations st))
    as [conv ts]; simpl in Hc, Hst'.
  rewrite run_read_transcript.
  destruct (read_outcome e _) as [raw|err]; [|exact Hst'].
  case_bool_decide; [exact Hst'|]. cbn [run].
  set (conv' := if _ || _ then _ else conv).
  assert (Hc' : history_ok (t_history conv')).
  { subst conv'. destruct (_ || _); [apply history_ok_nil | exact Hc]. }
  destruct (on_gemini e _ _ _) as [answer|err']; cbn [run snd].
  - apply stores_ok_set_transcript_conversation; simpl.
    + by apply stores_ok_set_transcript_conversation.
    + by apply push_turns_ok.
  - by apply stores_ok_set_transcript_conversation.
Qed.

Lemma run_bind {A B : Type} (e : env) (m : io A) (f : A -> io B) :
  run e (io_bind m f) = run e (f (run e m)).
Proof. induction m; simpl; auto. Qed.

Lemma stores_ok_clear (st : stores) (s1 s2 : jsstring) :
  stores_ok st ->
  stores_ok (Stores (clearConversation s1 (conversations st))
                    (transcriptConversations st))
  /\ stores_ok (Stores (conversations st)
                  (clearTranscriptConversation s2 (transcriptConversations st))).
Proof.
  intros [H1 H2]. split; split; simpl; try assumption;
    by apply map_Forall_delete.
Qed.

(** Every request keeps the invariant, whatever the outside answers. *)
Lemma api_keeps_stores_ok (w : world) (e : env) (rq : query) (st : stores) :
  stores_ok st -> stores_ok (run e (api w rq st)).2.
Proof.
  intros Hst. unfold api.
  repeat case_decide.
  - by destruct (findTranscripts w rq).
  - rewrite run_bind.
    pose proof (askTranscript_keeps_stores_ok e rq st Hst) as Hk.
    destruct (run e (askTranscript rq st)) as [[r|err] st']; exact Hk.
  - cbn [run]. by destruct (on_add_note e rq).
  - cbn [run]. by destruct (on_fetch e _).
  - apply (stores_ok_clear st _ []). exact Hst.
  - apply (stores_ok_clear st [] _). exact Hst.
  - rewrite run_bind.
    pose proof (ask_keeps_stores_ok e rq st Hst) as Hk.
    destruct (run e (ask rq st)) as [[r|err] st']; exact Hk.
  - exact Hst.
Qed.

Lemma serve_keeps_stores_ok (reqs : list (world * env * query)) (st : stores) :
  stores_ok st -> stores_ok (serve reqs st).
Proof.
  revert st. induction reqs as [|[[w e] rq] reqs IH]; intros st Hst; simpl.
  - exact Hst.
  - apply IH. by apply api_keeps_stores_ok.
Qed.

(** C4: after any sequence of requests, handled one after the other from
    the empty stores and whatever the data store, the language model and the
    file reads answer, every session of either store has a history of even
    length, at most 2 * 20 = 40. *)
Theorem history_even_and_bounded (reqs : list (world * env * query))
    (sessionId : jsstring) :
  let st := serve reqs initial_stores in
  (forall c, conversations st !! sessionId = Some c ->
     Nat.Even (length (history c)) /\ (length (history c) <= 40)%nat)
  /\ (forall c, transcriptConversations st !! sessionId = Some c ->
        Nat.Even (length (t_history c)) /\ (length (t_history c) <= 40)%nat).
Proof.
  intros st.
  destruct (serve_keeps_stores_ok reqs initial_stores stores_ok_initial)
    as [H1 H2].
  split; intros c Hc.
  - exact (H1 _ _ Hc).
  - exact (H2 _ _ Hc).
Qed.

(** ** What a prompt holds *)

Lemma join_app (sep : jsstring) (l1 l2 : list jsstring) :
  l1 ≠ [] -> l2 ≠ [] ->
  join sep (l1 ++ l2) = join sep l1 ++ sep ++ join sep l2.
Proof.
  intros H1 H2. induction l1 as [|x l1 IH]; [done|].
  destruct l1 as [|y l1].
  - destruct l2; [done | reflexivity].
  - change (join sep ((x :: y :: l1) ++ l2))
      with (x ++ sep ++ join sep ((y :: l1) ++ l2)).
    rewrite IH by done.
    change (join sep (x :: y :: l1)) with (x ++ sep ++ join sep (y :: l1)).
    by rewrite <- !app_assoc.
Qed.

(** The first line of a list of lines, then some of its lines, then the
    rest. *)
Lemma join_lines (sep a : jsstring) (n : nat) (l : list jsstring) :
  take n l ≠ [] -> drop n l ≠ [] ->
  join sep (a :: l)
  = a ++ (sep ++ join sep (take n l)) ++ sep ++ join sep (drop n l).
Proof.
  intros H1 H2. rewrite <- (take_drop n l) at 1.
  assert (Hc : forall l', l' ≠ [] -> join sep (a :: l') = a ++ sep ++ join sep l')
    by (by intros [|x l']).
  rewrite Hc by (by destruct (take n l)).
  rewrite join_app by done. by rewrite <- !app_assoc.
Qed.

Lemma item_entry_numbered (i : nat) (r : row) :
  item_entry i r = numbered_item (i + 1) r.
Proof. unfold item_entry, numbered_item. by destruct (countries r). Qed.

Lemma numbered_list_imap (items : list row) (g : nat -> row -> jsstring)
    (n : nat) :
  (forall i r, g i r = numbered_item (n + i) r) ->
  numbered_list n items (join (NL ++ NL) (imap g items)).
Proof.
  revert g n. induction items as [|r items IH]; intros g n Hg.
  - constructor.
  - destruct items as [|r' items].
    + cbn. rewrite Hg, Nat.add_0_r. constructor.
    + change (join (NL ++ NL) (imap g (r :: r' :: items)))
        with (g 0%nat r ++ (NL ++ NL)
              ++ join (NL ++ NL) (imap (g ∘ S) (r' :: items))).
      rewrite Hg, Nat.add_0_r, <- app_assoc. constructor.
      apply IH. intros i x. unfold compose. rewrite Hg.
      by replace (n + S i)%nat with (S n + i)%nat by lia.
Qed.

(** The full prompt of [ask] is a prompt with the context of the items. *)
Lemma buildPromptSimple_holds_items (question : jsstring) (items : list row)
    (style : jsstring) :
  holds_items (buildPromptSimple question items style) (trim question) items.
Proof.
  unfold buildPromptSimple, holds_items.
  match goal with
  | |- context [join NL (?a :: ?l)] =>
      exists (NL ++ join NL (take 19 l)), (itemsBlock items);
      split; [rewrite (join_lines NL a 19 l) by done; reflexivity|]
  end.
  unfold itemsBlock. apply numbered_list_imap.
  intros i r. rewrite item_entry_numbered.
  by replace (i + 1)%nat with (1 + i)%nat by lia.
Qed.

(** The full prompt of [askTranscript] is a prompt with the context of a
    transcript. *)
Lemma transcriptPrompt_holds_transcript (q text : jsstring) :
  holds_transcript (transcriptPrompt q text) q text.
Proof.
  unfold transcriptPrompt, holds_transcript.
  match goal with
  | |- context [join NL (?a :: ?l)] =>
      exists (NL ++ join NL (take 17 l));
      rewrite (join_lines NL a 17 l) by done; reflexivity
  end.
Qed.

Lemma truncate_transcript_tail (raw : jsstring) :
  tail_of_transcript raw (truncate_transcript (strip_cr raw)).
Proof.
  unfold tail_of_transcript, truncate_transcript.
  change (filter (fun c => c ≠ 13%N) raw) with (strip_cr raw).
  destruct (MAX_TRANSCRIPT_CHARS <? length (strip_cr raw))%nat eqn:E.
  - apply Nat.ltb_lt in E.
    exists (take (length (strip_cr raw) - MAX_TRANSCRIPT_CHARS) (strip_cr raw)).
    rewrite take_drop, length_drop. repeat split; [right|]; lia.
  - apply Nat.ltb_ge in E. exists []. repeat split; [by left | exact E].
Qed.

(** The tail of a transcript is determined by the transcript. *)
Lemma tail_of_transcript_unique (raw text : jsstring) :
  tail_of_transcript raw text -> text = truncate_transcript (strip_cr raw).
Proof.
  intros (dropped & Heq & Hcase & Hlen).
  unfold truncate_transcript, strip_cr. rewrite Heq, length_app.
  destruct Hcase as [-> | Hfull].
  - simpl. by rewrite (proj2 (Nat.ltb_ge _ _) Hlen).
  - destruct dropped as [|d dropped].
    + simpl. by rewrite (proj2 (Nat.ltb_ge _ _) Hlen).
    + rewrite (proj2 (Nat.ltb_lt _ _)) by (simpl; lia).
      replace (length (d :: dropped) + length text - MAX_TRANSCRIPT_CHARS)%nat
        with (length (d :: dropped)) by lia.
      by rewrite drop_app_length.
Qed.

(** ** Context invalidation of the [ask] action *)

Lemma stored_after_set (sessionId : jsstring) (c : conversation) (st : stores) :
  stored_history (set_conversation sessionId c st) sessionId = history c
  /\ stored_context (set_conversation sessionId c st) sessionId = context c.
Proof.
  unfold stored_history, stored_context, set_conversation; simpl.
  by rewrite lookup_insert_eq.
Qed.

(** What [getConversation] returns, in terms of what the store held. *)
Lemma getConversation_stored (sessionId : jsstring) (st : stores) :
  history (getConversation sessionId (conversations st)).1
  = stored_history st sessionId
  /\ context (getConversation sessionId (conversations st)).1
     = stored_context st sessionId.
Proof.
  unfold getConversation, stored_history, stored_context.
  by destruct (conversations st !! sessionId).
Qed.

(** C5: one [ask] call whose data-store query succeeds, from any state of
    the session (in particular the state the previous [ask] left).
    - When the fingerprint of the request differs from the stored one, the
      language model is called with the full items prompt and an empty
      history; on its answer the response reports [isNewConversation: true]
      and the session holds exactly the two new turns; if the model call
      throws the history stays empty.
    - When the fingerprint is the stored one and the history is not empty,
      the model is called with the follow-up template, a text built from the
      question alone, on top of the stored history, and the response reports
      [isNewConversation: false].
    - A call that succeeds stores the request's fingerprint and leaves a
      history that is not empty, which is the state the next call sees.
    - The full items prompt opens with the instruction to answer from the
      items and ends with the trimmed question, the numbered list of the rows
      that were fetched and the reminder; the follow-up template is a fixed
      text around the question and holds nothing of the rows. *)
Theorem ask_context_invalidation (e : env) (rq : query) (st : stores)
    (f : fetched) :
  let sid := session_of rq in
  let p := ask_params rq in
  let key := filtersKey_of p in
  let full := buildPromptSimple (p_question p) (rows f) (p_style p) in
  let follow := followUpPrompt (p_question p) in
  on_fetch e p = Ok f ->
  (stored_context st sid ≠ Some key ->
     calls e (ask rq st) = [CFetch p; CGemini MODEL_SYNTH full []]
     /\ (forall answer, on_gemini e MODEL_SYNTH full [] = Ok answer ->
           exists reply st',
             run e (ask rq st) = (Ok reply, st')
             /\ a_isNewConversation reply = true
             /\ a_debug_prompt reply = full
             /\ stored_history st' sid = [Turn User full; Turn Model answer]
             /\ stored_context st' sid = Some key)
     /\ (forall err, on_gemini e MODEL_SYNTH full [] = Throw err ->
           (run e (ask rq st)).1 = Throw err
           /\ stored_history (run e (ask rq st)).2 sid = []))
  /\ (stored_context st sid = Some key -> stored_history st sid ≠ [] ->
        calls e (ask rq st)
        = [CFetch p; CGemini MODEL_SYNTH follow (stored_history st sid)]
        /\ (forall answer,
              on_gemini e MODEL_SYNTH follow (stored_history st sid) = Ok answer ->
              exists reply st',
                run e (ask rq st) = (Ok reply, st')
                /\ a_isNewConversation reply = false
                /\ a_debug_prompt reply = follow
                /\ stored_history st' sid
                   = push_turns (stored_history st sid) follow answer
                /\ stored_context st' sid = Some key))
  /\ (forall reply st', run e (ask rq st) = (Ok reply, st') ->
        stored_context st' sid = Some key /\ stored_history st' sid ≠ [])
  /\ holds_items full (trim (p_question p)) (rows f)
  /\ follow
     = lit "Follow-up question (use the same data context from our conversation):"
       ++ NL ++ NL ++ p_question p ++ NL ++ NL
       ++ lit "Remember to return clean HTML and cite sources using [n] format if relevant.".
Proof.
  intros sid p key full follow Hfetch.
  assert (Hfull : holds_items full (trim (p_question p)) (rows f))
    by apply buildPromptSimple_holds_items.
  assert (Hfollow : follow
     = lit "Follow-up question (use the same data context from our conversation):"
       ++ NL ++ NL ++ p_question p ++ NL ++ NL
       ++ lit "Remember to return clean HTML and cite sources using [n] format if relevant.")
    by reflexivity.
  destruct (getConversation_stored sid st) as [Hh Hc].
  unfold ask. change (or_default (q_sessionId rq) (lit "default")) with sid.
  fold p.
  destruct (getConversation sid (conversations st)) as [conv cs] eqn:Eget.
  simpl in Hh, Hc. cbn [run calls]. rewrite Hfetch. fold key.
  unfold needsNewContext_of. rewrite Hh, Hc.
  split; [|split; [|split; [|split; [exact Hfull | exact Hfollow]]]].
  - intros Hne. rewrite bool_decide_eq_false_2 by exact Hne.
    cbn [negb orb history context run calls]. fold full.
    split; [|split].
    + by destruct (on_gemini e MODEL_SYNTH full []).
    + intros answer Hg. rewrite Hg. cbn [run].
      eexists _, _. split; [reflexivity|]. cbn [a_isNewConversation a_debug_prompt].
      repeat split; try apply stored_after_set.
    + intros err Hg. rewrite Hg. cbn [run fst snd].
      split; [reflexivity | apply stored_after_set].
  - intros Heq Hnil. rewrite bool_decide_eq_true_2 by exact Heq.
    rewrite bool_decide_eq_false_2
      by (intros Hl; apply Hnil; by apply length_zero_iff_nil).
    cbn [negb orb run calls]. fold follow. rewrite Hh.
    split.
    + by destruct (on_gemini e MODEL_SYNTH follow _).
    + intros answer Hg. rewrite Hg. cbn [run].
      eexists _, _. split; [reflexivity|]. cbn [a_isNewConversation a_debug_prompt].
      split; [reflexivity|]. split; [reflexivity|]. split.
      * etransitivity; [apply stored_after_set|]. reflexivity.
      * etransitivity; [apply stored_after_set|]. simpl. by rewrite Hc.
  - intros reply st'.
    set (fresh := negb (bool_decide (stored_context st sid = Some key))
                  || bool_decide (length (stored_history st sid) = 0%nat)).
    set (conv' := if fresh then Conversation [] (Some key) else conv).
    assert (Hctx : context conv' = Some key).
    { subst conv' fresh. case_bool_decide as Hk; simpl; [|reflexivity].
      case_bool_decide; simpl; [reflexivity | by rewrite Hc]. }
    cbn [run].
    match goal with
    | |- context [on_gemini e ?m ?u ?h] =>
        destruct (on_gemini e m u h) as [answer|err]
    end; cbn [run]; intros Hrun; [|discriminate].
    injection Hrun as _ <-.
    split.
    + etransitivity; [apply stored_after_set|]. exact Hctx.
    + intros Hnil.
      unfold stored_history, set_conversation in Hnil. cbn [conversations] in Hnil.
      rewrite lookup_insert_eq in Hnil. cbn [from_option history] in Hnil.
      apply (f_equal length) in Hnil.
      rewrite push_turns_length in Hnil. simpl in Hnil. lia.
Qed.

(** Two [ask] calls with the same filters on a new session: the first
    reports a new conversation, the second sends the follow-up template. *)
Lemma ask_context_invalidation_witness :
  let st1 := (run example_env (ask example_ask initial_stores)).2 in
  (exists reply st',
      run example_env (ask example_ask initial_stores) = (Ok reply, st')
      /\ a_isNewConversation reply = true
      /\ holds_items (a_debug_prompt reply) (lit "What changed?")
           (rows example_fetched))
  /\ (exists reply st',
        run example_env (ask example_ask st1) = (Ok reply, st')
        /\ a_isNewConversation reply = false
        /\ a_debug_prompt reply = followUpPrompt (lit "What changed?")).
Proof.
  intros st1.
  destruct (ask_context_invalidation example_env example_ask initial_stores
              example_fetched eq_refl) as (A & _ & C & Hitems & _).
  destruct A as (_ & A & _).
  { unfold stored_context, initial_stores. cbn [conversations].
    rewrite lookup_empty. discriminate. }
  destruct (A _ eq_refl) as (reply & st' & Hrun & Hnew & Hprompt0 & _).
  destruct (C reply st' Hrun) as [Hctx Hhist].
  split.
  - exists reply, st'. split; [assumption|]. split; [assumption|].
    rewrite Hprompt0. exact Hitems.
  - subst st1. rewrite Hrun. cbn [snd].
    destruct (ask_context_invalidation example_env example_ask st'
                example_fetched eq_refl) as (_ & B & _).
    destruct (B Hctx Hhist) as (_ & B').
    destruct (B' _ eq_refl) as (reply2 & st2 & Hrun2 & Hnew2 & Hprompt & _).
    exists reply2, st2. repeat split; assumption.
Defined.

(** ** [askTranscript]: reading the transcript *)

Lemma stores_eta (st : stores) :
  Stores (conversations st) (transcriptConversations st) = st.
Proof. by destruct st. Qed.

(** What [getTranscriptConversation] returns, in terms of what the store
    held; the history it leaves in the store is the one that was there. *)
Lemma getTranscriptConversation_stored (sessionId : jsstring) (st : stores) :
  let r := getTranscriptConversation sessionId (transcriptConversations st) in
  t_history r.1 = stored_transcript_history st sessionId
  /\ transcriptId r.1 = stored_transcriptId st sessionId
  /\ stored_transcript_history (Stores (conversations st) r.2) sessionId
     = stored_transcript_history st sessionId
  /\ (is_Some (transcriptConversations st !! sessionId) ->
      Stores (conversations st) r.2 = st).
Proof.
  unfold getTranscriptConversation, stored_transcript_history, stored_transcriptId.
  destruct (transcriptConversations st !! sessionId) eqn:E; simpl.
  - rewrite E. repeat split. intros _. apply stores_eta.
  - rewrite lookup_insert_eq. repeat split. intros [? Hx]. discriminate Hx.
Qed.

(** C8: an [asktranscript] call (an id and a question are given) whose
    transcript cannot be read returns the object
    [{ok: false, error: "Failed to read transcript: " + e.message}]: it is
    returned, not thrown, so the request handler relays it as it is; it
    carries no answer, the language model is not called and the session's
    history is left as it was.  Without a question the call fails as well,
    with a structured failure and no answer. *)
Theorem askTranscript_unreadable (e : env) (p : query) (st : stores)
    (err : exn) :
  let id := trim (or_default (q_id p) []) in
  let q := trim (or_default (q_question p) []) in
  let sid := transcript_session_of p in
  let failure :=
    TranscriptFailure (lit "Failed to read transcript: " ++ emessage err) in
  id ≠ [] ->
  read_outcome e id = Throw err ->
  (exists msg, (run e (askTranscript p st)).1 = Ok (TranscriptFailure msg))
  /\ stored_transcript_history (run e (askTranscript p st)).2 sid
     = stored_transcript_history st sid
  /\ (q ≠ [] ->
      (run e (askTranscript p st)).1 = Ok failure
      /\ calls e (askTranscript p st) = [read_call id]
      /\ forall w,
           toLowerCase (or_default (q_action p) (lit "ask")) = lit "asktranscript" ->
           (run e (api w p st)).1 = RTranscript failure).
Proof.
  intros id q sid failure Hid Hread.
  assert (Hmain : q ≠ [] ->
            run e (askTranscript p st)
            = (Ok failure,
               Stores (conversations st)
                 (getTranscriptConversation sid (transcriptConversations st)).2)
            /\ calls e (askTranscript p st) = [read_call id]).
  { intros Hq. unfold askTranscript. fold id q.
    rewrite bool_decide_eq_false_2 by exact Hid.
    rewrite bool_decide_eq_false_2 by exact Hq.
    change (trim (or_default (q_sessionId p) (lit "tr_default"))) with sid.
    destruct (getTranscriptConversation sid (transcriptConversations st))
      as [conv ts].
    rewrite run_read_transcript, calls_read_transcript, Hread. by cbn. }
  destruct (decide (q = [])) as [Hq|Hq].
  - assert (Hrun : run e (askTranscript p st)
                   = (Ok (TranscriptFailure (lit "Missing question")), st)).
    { unfold askTranscript. fold id q.
      rewrite bool_decide_eq_false_2 by exact Hid.
      by rewrite bool_decide_eq_true_2 by exact Hq. }
    rewrite Hrun. cbn [fst snd]. split; [eauto|]. split; [reflexivity|].
    intros Hq'. by destruct Hq'.
  - destruct (Hmain Hq) as [Hrun Hcalls]. rewrite Hrun. cbn [fst snd].
    split; [eauto|]. split.
    + apply getTranscriptConversation_stored.
    + intros _. split; [reflexivity|]. split; [exact Hcalls|].
      intros w Hact. unfold api. rewrite Hact.
      destruct (decide (lit "asktranscript" = lit "findtranscripts")) as [E|_];
        [discriminate E|].
      destruct (decide (lit "asktranscript" = lit "asktranscript")) as [_|E];
        [|by destruct E].
      rewrite run_bind, Hrun. reflexivity.
Qed.

(** C9: every [asktranscript] call that names an id and a question starts
    by reading the transcript, whatever the session holds.  On a follow-up
    turn (the session holds this transcript id and a history that is not
    empty): when the read throws or gives only white space the call returns
    a failure, the language model is not called and the stores are exactly
    as before; when the read gives a text, the prompt sent is the follow-up
    template, built from the question alone. *)
Theorem askTranscript_rereads (e : env) (p : query) (st : stores) :
  let id := trim (or_default (q_id p) []) in
  let q := trim (or_default (q_question p) []) in
  let sid := transcript_session_of p in
  id ≠ [] -> q ≠ [] ->
  head (calls e (askTranscript p st)) = Some (read_call id)
  /\ (stored_transcriptId st sid = Some id ->
      stored_transcript_history st sid ≠ [] ->
      ((exists err, read_outcome e id = Throw err)
       \/ (exists raw, read_outcome e id = Ok raw /\ trim raw = []) ->
       (exists msg, (run e (askTranscript p st)).1 = Ok (TranscriptFailure msg))
       /\ calls e (askTranscript p st) = [read_call id]
       /\ (run e (askTranscript p st)).2 = st)
      /\ (forall raw, read_outcome e id = Ok raw -> trim raw ≠ [] ->
          calls e (askTranscript p st)
          = [read_call id;
             CGemini MODEL_SYNTH (transcriptFollowUpPrompt q)
                     (stored_transcript_history st sid)])).
Proof.
  intros id q sid Hid Hq.
  destruct (getTranscriptConversation_stored sid st) as (Hh & Hi & _ & Hsame).
  unfold askTranscript. fold id q.
  rewrite bool_decide_eq_false_2 by exact Hid.
  rewrite bool_decide_eq_false_2 by exact Hq.
  change (trim (or_default (q_sessionId p) (lit "tr_default"))) with sid.
  destruct (getTranscriptConversation sid (transcriptConversations st))
    as [conv ts]. cbn [fst snd] in Hh, Hi, Hsame.
  rewrite run_read_transcript, calls_read_transcript.
  split; [reflexivity|].
  intros Hstored Hhist.
  assert (Hst : Stores (conversations st) ts = st).
  { apply Hsame. unfold stored_transcriptId in Hstored.
    destruct (transcriptConversations st !! sid); [eauto | discriminate]. }
  split.
  - intros [[err Hr]|(raw & Hr & Hblank)]; rewrite Hr.
    + cbn [run calls fst snd]. eauto.
    + rewrite bool_decide_eq_true_2 by exact Hblank.
      cbn [run calls fst snd]. eauto.
  - intros raw Hr Hne. rewrite Hr.
    rewrite bool_decide_eq_false_2 by exact Hne.
    rewrite Hi, Hh.
    rewrite bool_decide_eq_true_2 by exact Hstored.
    rewrite bool_decide_eq_false_2
      by (intros Hl; apply Hhist; by apply length_zero_iff_nil).
    cbn [negb orb calls]. rewrite Hh.
    by destruct (on_gemini e _ _ _).
Qed.

(** A follow-up turn about a transcript that has been removed since the
    first turn. *)
Lemma askTranscript_rereads_witness :
  calls example_env (askTranscript example_asktranscript example_followup_stores)
  = [CFsRead (lit "/data/missing.txt")]
  /\ (run example_env
        (askTranscript example_asktranscript example_followup_stores)).2
     = example_followup_stores.
Proof.
  destruct (askTranscript_rereads example_env example_asktranscript
              example_followup_stores) as (_ & H).
  - vm_compute. discriminate.
  - vm_compute. discriminate.
  - destruct H as ((_ & Hcalls & Hst) & _).
    + reflexivity.
    + vm_compute. discriminate.
    + left. eexists. reflexivity.
    + split; [exact Hcalls | exact Hst].
Defined.

(** ** Patterns and the timestamp of a file name *)

(** [match_atoms] succeeds exactly on the strings that start with one
    character of each class, in order. *)
Lemma match_atoms_spec (p : list atom) (s rest : jsstring) :
  match_atoms p s = Some rest <->
  exists pre, s = pre ++ rest /\ Forall2 atom_ok p pre.
Proof.
  revert s. induction p as [|a p IH]; intros s; simpl.
  - split.
    + intros [= ->]. exists []. split; [reflexivity | constructor].
    + intros (pre & -> & H). inversion H. reflexivity.
  - destruct s as [|c s].
    + split; [discriminate|]. intros (pre & E & H).
      inversion H; subst. discriminate E.
    + destruct (atom_matches a c) eqn:Ea.
      * rewrite IH. split.
        -- intros (pre & -> & H). exists (c :: pre). split; [reflexivity|].
           by constructor.
        -- intros (pre & E & H). inversion H; subst.
           injection E as -> ->. eauto.
      * split; [discriminate|]. intros (pre & E & H).
        inversion H; subst. injection E as -> ->.
        unfold atom_ok in *. congruence.
Qed.

Lemma atom_ok_D (c : N) : atom_ok D c <-> is_digit c = true.
Proof. reflexivity. Qed.

Lemma atom_ok_OneOf (cs : list N) (c : N) : atom_ok (OneOf cs) c <-> c ∈ cs.
Proof. unfold atom_ok; simpl. apply bool_decide_eq_true. Qed.

Ltac invert_Forall2 :=
  repeat match goal with
         | H : Forall2 _ (_ :: _) _ |- _ => inversion H; clear H; subst
         | H : Forall2 _ [] _ |- _ => inversion H; clear H; subst
         | H : atom_ok D _ |- _ => apply atom_ok_D in H
         | H : atom_ok (OneOf _) _ |- _ => apply atom_ok_OneOf in H
         end.

Ltac destruct_digits :=
  repeat match goal with
         | H : digits _ ?s |- _ =>
             let Hl := fresh "Hl" in
             let Hd := fresh "Hd" in
             destruct H as [Hl Hd];
             repeat (destruct s as [|? s]; [discriminate Hl|]);
             destruct s; [clear Hl | discriminate Hl];
             repeat match goal with
                    | G : Forall _ (_ :: _) |- _ => inversion G; clear G; subst
                    | G : Forall _ [] |- _ => clear G
                    end
         end.

Lemma digits_intro (s : jsstring) (n : nat) :
  length s = n -> forallb is_digit s = true -> digits n s.
Proof.
  intros Hl Hd. split; [exact Hl|].
  apply Forall_forall. intros c Hc.
  rewrite forallb_forall in Hd. apply Hd. by apply list_elem_of_In.
Qed.

(** The atoms of [NAME_TIME_REGEX] describe [is_stamp]. *)
Lemma name_time_atoms_stamp (pre : jsstring) :
  Forall2 atom_ok NAME_TIME_ATOMS pre <-> is_stamp pre.
Proof.
  unfold NAME_TIME_ATOMS, DASH_SLASH. split.
  - intros H. invert_Forall2.
    match goal with
    | |- is_stamp [?y1; ?y2; ?y3; ?y4; ?c1; ?m1; ?m2; ?c2; ?d1; ?d2; ?c3;
                   ?h1; ?h2; ?c4; ?i1; ?i2; ?c5; ?s1; ?s2] =>
        exists [y1; y2; y3; y4], [m1; m2], [d1; d2], [h1; h2], [i1; i2],
               [s1; s2], c1, c2, c3, c4, c5
    end.
    split; [reflexivity|].
    repeat split; try assumption; try (repeat constructor; assumption);
      by apply atom_ok_OneOf.
  - intros (y & mo & d & hh & mm & ss & c1 & c2 & c3 & c4 & c5 & -> & Hy & Hmo
            & Hd & Hhh & Hmm & Hss & H1 & H2 & H3 & H4 & H5).
    destruct_digits. simpl.
    repeat constructor; try assumption; by apply atom_ok_OneOf.
Qed.

Lemma word_boundary_spec (rest : jsstring) :
  word_boundary_after_digit rest = true <->
  rest = [] \/ exists c rest', rest = c :: rest' /\ is_word c = false.
Proof.
  destruct rest as [|c rest]; simpl.
  - split; [by left | reflexivity].
  - rewrite negb_true_iff. split.
    + intros H. right. eauto.
    + by intros [[=]|(? & ? & [= -> ->] & H)].
Qed.

(** The regular expression is anchored: it matches exactly the names that
    carry the pattern at offset 0. *)
Lemma NAME_TIME_REGEX_test_spec (name : jsstring) :
  NAME_TIME_REGEX_test name = true <-> stamp_at 0 name.
Proof.
  unfold NAME_TIME_REGEX_test, stamp_at. rewrite drop_0. split.
  - destruct (match_atoms NAME_TIME_ATOMS name) as [rest|] eqn:E; [|discriminate].
    intros Hb. apply match_atoms_spec in E as (pre & -> & Hpre).
    exists pre, rest. split; [reflexivity|].
    split; [by apply name_time_atoms_stamp | by apply word_boundary_spec].
  - intros (stamp & rest & -> & Hs & Hb).
    assert (E : match_atoms NAME_TIME_ATOMS (stamp ++ rest) = Some rest).
    { apply match_atoms_spec. exists stamp. split; [reflexivity|].
      by apply name_time_atoms_stamp. }
    rewrite E. by apply word_boundary_spec.
Qed.

Lemma example_late_stamp : stamp_at 6 example_late_stamp_name.
Proof.
  exists (lit "2024-01-05 10.00.00"), (lit ".txt").
  split; [reflexivity|]. split.
  - exists (lit "2024"), (lit "01"), (lit "05"), (lit "10"), (lit "00"),
      (lit "00"), 45%N, 45%N, 32%N, 46%N, 46%N.
    split; [reflexivity|].
    repeat split; try (apply Forall_forall; intros c Hc; vm_compute in Hc;
      repeat (apply elem_of_cons in Hc as [->|Hc]; [reflexivity|]);
      by apply elem_of_nil in Hc);
      vm_compute; set_solver.
  - right. exists 46%N, (lit "txt"). split; reflexivity.
Qed.

(** What [scanFile] can do to [results]: nothing, or push one entry for the
    item, dated by the effective timestamp. *)
Lemma scanFile_results (c : scan_config) (itemPath item : jsstring)
    (mtime : Z) (content : result jsstring) (st : scan_state) :
  let st' := scanFile c itemPath item mtime content st in
  results st' = results st
  \/ exists pv,
       results st' = results st ++
         [{| id := itemPath; name := item; mimeType := lit "text/plain";
             modified := toISOString (or_ms (parseNameTimestampMs item) mtime);
             link := lit "file://" ++ itemPath; preview := pv |}].
Proof.
  unfold scanFile.
  destruct (hasAllowedTranscriptExt item); [|by left]. cbn [negb].
  destruct (before_from _ _); [by left|].
  destruct (at_or_after_to _ _); [by left|].
  destruct (keyword_check _ _ _ _) as [[hit pv] checks'].
  destruct hit; [right; by exists pv | by left].
Qed.

(** C10: [parseNameTimestampMs] gives a timestamp exactly for the names
    that carry the pattern (date, separator, time, then a word boundary) at
    offset 0; a name that carries it only at a later offset gives [null],
    as the name [Notes 2024-01-05 10.00.00.txt] shows.  For a name that
    gives [null] the search uses the modification time the backend reports:
    [stats.mtime] in the local scan, where it also dates the result, and
    [Date.parse(f.modifiedTime)] in the Drive scan when the listing reports
    one. *)
Theorem name_timestamp_anchored :
  (forall name, is_Some (parseNameTimestampMs name) <-> stamp_at 0 name)
  /\ (forall name i, stamp_at i name -> ~ stamp_at 0 name ->
        parseNameTimestampMs name = None)
  /\ (stamp_at 6 example_late_stamp_name
      /\ ~ stamp_at 0 example_late_stamp_name
      /\ parseNameTimestampMs example_late_stamp_name = None)
  /\ (forall c itemPath item mtime content st,
        parseNameTimestampMs item = None ->
        or_ms (parseNameTimestampMs item) mtime = mtime
        /\ forall tf,
             tf ∈ results (scanFile c itemPath item mtime content st) ->
             tf ∈ results st \/ modified tf = toISOString mtime)
  /\ (forall now f,
        parseNameTimestampMs (f_name f) = None ->
        f_modifiedTime f ≠ [] ->
        gdrive_nameMs now f = Date_parse (f_modifiedTime f)).
Proof.
  assert (Hspec : forall name,
            is_Some (parseNameTimestampMs name) <-> stamp_at 0 name).
  { intros name. rewrite <- NAME_TIME_REGEX_test_spec.
    unfold parseNameTimestampMs.
    destruct (NAME_TIME_REGEX_test name); split; intros H;
      try reflexivity; try discriminate; eauto.
    by destruct H. }
  assert (Hnone : forall name, ~ stamp_at 0 name ->
            parseNameTimestampMs name = None).
  { intros name Hn. destruct (parseNameTimestampMs name) eqn:E; [|reflexivity].
    exfalso. apply Hn, Hspec. rewrite E. eauto. }
  split; [exact Hspec|]. split; [intros name i _; apply Hnone|].
  split.
  - split; [apply example_late_stamp|].
    assert (E : parseNameTimestampMs example_late_stamp_name = None)
      by reflexivity.
    split; [|exact E].
    intros H. apply Hspec in H. rewrite E in H. by destruct H.
  - split.
    + intros c itemPath item mtime content st E. rewrite E.
      split; [reflexivity|]. intros tf Htf.
      destruct (scanFile_results c itemPath item mtime content st)
        as [Hr|[pv Hr]]; rewrite Hr in Htf; [by left|].
      apply elem_of_app in Htf as [Htf|Htf]; [by left|].
      apply list_elem_of_singleton in Htf as ->. right. simpl. by rewrite E.
    + intros now0 f E Hmt. unfold gdrive_nameMs. rewrite E. simpl.
      destruct (f_modifiedTime f); [by destruct Hmt | reflexivity].
Qed.

(** ** Keyword matching *)

Lemma startsWith_spec (p s : jsstring) :
  startsWith p s = true <-> exists post, s = p ++ post.
Proof.
  revert s. induction p as [|a p IH]; intros s; simpl.
  - split; eauto.
  - destruct s as [|b s].
    + split; [discriminate | by intros [post [=]]].
    + rewrite andb_true_iff, N.eqb_eq, IH. split.
      * intros [-> [post ->]]. eauto.
      * intros [post [= -> ->]]. eauto.
Qed.

Lemma indexOf_from_spec (i : Z) (w h : jsstring) :
  0 <= i ->
  (0 <= indexOf_from i w h <-> exists pre post, h = pre ++ w ++ post).
Proof.
  revert i. induction h as [|c h IH]; intros i Hi; simpl.
  - destruct (startsWith w []) eqn:E.
    + split; [|lia]. intros _. apply startsWith_spec in E as [post E].
      exists [], post. exact E.
    + split; [lia|]. intros (pre & post & Hh).
      destruct pre; [|discriminate]. destruct w; [|discriminate].
      discriminate E.
  - destruct (startsWith w (c :: h)) eqn:E.
    + split; [|lia]. intros _. apply startsWith_spec in E as [post E].
      exists [], post. exact E.
    + rewrite IH by lia. split.
      * intros (pre & post & ->). exists (c :: pre), post. reflexivity.
      * intros (pre & post & Hh). destruct pre as [|c' pre].
        -- exfalso. assert (startsWith w (c :: h) = true); [|congruence].
           apply startsWith_spec. exists post. exact Hh.
        -- injection Hh as -> ->. eauto.
Qed.

Lemma indexOf_spec (h w : jsstring) :
  0 <= indexOf h w <-> exists pre post, h = pre ++ w ++ post.
Proof. apply indexOf_from_spec. lia. Qed.

(** ** The preview of a content match *)

Lemma trimStart_keeps (c : N) (s : jsstring) :
  c ∈ s -> is_space c = false -> c ∈ trimStart s.
Proof.
  intros Hin Hc. induction s as [|x s IH]; [exact Hin|]. simpl.
  destruct (is_space x) eqn:Ex; [|exact Hin].
  apply elem_of_cons in Hin as [->|Hin]; [congruence | by apply IH].
Qed.

Lemma elem_of_rev (c : N) (s : jsstring) : c ∈ rev s <-> c ∈ s.
Proof. rewrite !list_elem_of_In. symmetry. apply in_rev. Qed.

Lemma trim_keeps (c : N) (s : jsstring) :
  c ∈ s -> is_space c = false -> c ∈ trim s.
Proof.
  intros Hin Hc. unfold trim, trimEnd.
  apply elem_of_rev, trimStart_keeps; [|exact Hc].
  apply elem_of_rev. by apply trimStart_keeps.
Qed.

Lemma trimStart_head (s : jsstring) (c : N) (r : jsstring) :
  trimStart s = c :: r -> is_space c = false.
Proof.
  induction s as [|x s IH]; [discriminate|]. simpl.
  destruct (is_space x) eqn:Ex; [exact IH|]. intros [= <- _]. exact Ex.
Qed.

(** A string that [trim] leaves non-empty holds a character that is not
    white space. *)
Lemma trim_nonempty_has_nonspace (s : jsstring) :
  trim s ≠ [] -> exists c, c ∈ trim s /\ is_space c = false.
Proof.
  unfold trim, trimEnd. intros Hne.
  destruct (trimStart (rev (trimStart s))) as [|c r] eqn:E; [by destruct Hne|].
  exists c. split; [|by apply (trimStart_head _ _ _ E)].
  apply elem_of_rev. by left.
Qed.

Lemma collapse_from_keeps (c : N) (b : bool) (s : jsstring) :
  c ∈ s -> is_space c = false -> c ∈ collapse_from b s.
Proof.
  intros Hin Hc. revert b. induction s as [|x s IH]; intros b; [exact Hin|].
  simpl. apply elem_of_cons in Hin as [->|Hin].
  - rewrite Hc. by left.
  - destruct (is_space x); [destruct b|]; try right; by apply IH.
Qed.

Lemma is_space_false_range (c : N) :
  (33 <= c <= 159)%N -> is_space c = false.
Proof.
  intros H. unfold is_space.
  repeat match goal with
         | |- context [(?a <=? ?b)%N] =>
             first [ rewrite (proj2 (N.leb_le a b)) by lia
                   | rewrite (proj2 (N.leb_gt a b)) by lia ]
         | |- context [(?a =? ?b)%N] =>
             rewrite (proj2 (N.eqb_neq a b)) by lia
         end.
  reflexivity.
Qed.

(** The length of a preview: the collapsed text when it has at most
    [maxLen] characters, else [maxLen - 1] of them and the three characters
    of the suffix. *)
Lemma makePreview_length (text : jsstring) (maxLen : nat) :
  (1 <= maxLen)%nat ->
  length (makePreview text maxLen)
  = if (maxLen <? length (trim (collapse_spaces text)))%nat
    then (maxLen + 2)%nat
    else length (trim (collapse_spaces text)).
Proof.
  intros Hm. unfold makePreview, slice_to, CLIP_SUFFIX.
  destruct (maxLen <? _)%nat eqn:E; [|reflexivity].
  apply Nat.ltb_lt in E. rewrite length_app, length_take. simpl. lia.
Qed.

(** ** The order and the number of the results *)

Lemma lex_le_trans (a b c : jsstring) : lex_le a b -> lex_le b c -> lex_le a c.
Proof.
  intros Hab. revert c. induction Hab as [b|x y a b Hxy|x a b Hab IH];
    intros c Hbc.
  - constructor.
  - inversion Hbc; subst; [constructor; lia | by constructor].
  - inversion Hbc; subst; [by constructor | constructor; by apply IH].
Qed.

Section Sorting.
Context {A : Type} (cmp : A -> A -> comparison).
Hypothesis cmp_antisym : forall x y, cmp y x = CompOpp (cmp x y).

Lemma sort_insert_perm (x : A) (l : list A) :
  Permutation (x :: l) (sort_insert cmp x l).
Proof.
  induction l as [|y l IH]; simpl; [reflexivity|].
  destruct (cmp x y); try reflexivity.
  rewrite perm_swap. by constructor.
Qed.

Lemma sort_perm (l : list A) : Permutation l (sort cmp l).
Proof.
  induction l as [|x l IH]; simpl; [reflexivity|].
  rewrite <- sort_insert_perm. by constructor.
Qed.

Lemma sort_insert_sorted (x : A) (l : list A) :
  Sorted (in_order cmp) l -> Sorted (in_order cmp) (sort_insert cmp x l).
Proof.
  induction 1 as [|y l Hs IH Hhd]; simpl.
  - repeat constructor.
  - destruct (cmp x y) eqn:E.
    + constructor; [by constructor|]. constructor. unfold in_order. congruence.
    + constructor; [by constructor|]. constructor. unfold in_order. congruence.
    + constructor; [exact IH|].
      assert (Hyx : in_order cmp y x).
      { unfold in_order. rewrite cmp_antisym, E. discriminate. }
      destruct l as [|z l]; simpl; [by constructor|].
      inversion Hhd; subst.
      destruct (cmp x z); by constructor.
Qed.

Lemma sort_sorted (l : list A) : Sorted (in_order cmp) (sort cmp l).
Proof.
  induction l as [|x l IH]; simpl; [constructor | by apply sort_insert_sorted].
Qed.
End Sorting.

Lemma StronglySorted_take {A : Type} (R : A -> A -> Prop) (n : nat) (l : list A) :
  StronglySorted R l -> StronglySorted R (take n l).
Proof.
  intros H. revert n. induction H as [|x l Hs IH Hall]; intros [|n]; simpl;
    try constructor; [apply IH|].
  by apply Forall_take.
Qed.

Lemma Sorted_impl {A : Type} (R R' : A -> A -> Prop) (l : list A) :
  (forall x y, R x y -> R' x y) -> Sorted R l -> Sorted R' l.
Proof.
  intros HR. induction 1 as [|x l Hs IH Hhd]; constructor; [exact IH|].
  destruct Hhd; constructor. by apply HR.
Qed.

(** A limit that is not positive is reached before the first file. *)
Lemma limit_reached_initially (c : scan_config) :
  match limit c with
  | Num q => (q <= 0)%Q
  | NegInf => True
  | _ => False
  end ->
  limit_reached c initial_scan_state = true.
Proof.
  unfold limit_reached, length_ge. simpl.
  destruct (limit c) as [| | |q]; try tauto.
  intros Hq. by apply Qle_bool_iff.
Qed.

Lemma scanFolder_limit_reached (pj : jsstring -> jsstring -> jsstring)
    (c : scan_config) (folderPath : jsstring) (depth : nat)
    (listing : result entries) (st : scan_state) :
  limit_reached c st = true -> scanFolder pj c folderPath depth listing st = Ok st.
Proof. unfold scanFolder. intros ->. by rewrite orb_true_r. Qed.

Lemma gdriveLoop_limit_reached (now0 : Z) (c : scan_config)
    (fs : list drive_file) (st : scan_state) :
  limit_reached c st = true -> gdriveLoop now0 c fs st = st.
Proof. intros H. destruct fs; simpl; [reflexivity | by rewrite H]. Qed.

(** The truncation of a number that is not negative is at most the number. *)
Lemma trunc_le (q : Q) :
  (0 <= q)%Q ->
  0 <= Z.quot (Qnum q) (Z.pos (Qden q))
  /\ (inject_Z (Z.quot (Qnum q) (Z.pos (Qden q))) <= q)%Q.
Proof.
  destruct q as [n d]. unfold Qle. simpl. intros Hn.
  rewrite Z.mul_1_r in Hn.
  rewrite Z.quot_div_nonneg by lia. split.
  - apply Z.div_pos; lia.
  - rewrite Z.mul_1_r, Z.mul_comm. apply Z.mul_div_le. lia.
Qed.

(** [slice(0, x)] returns at most [x] elements when [x] is a number that is
    not negative. *)
Lemma slice_0_length {A : Type} (q : Q) (l : list A) :
  (0 <= q)%Q -> (inject_Z (Z.of_nat (length (slice_0 (Num q) l))) <= q)%Q.
Proof.
  intros Hq. destruct (trunc_le q Hq) as [Hk Hle]. unfold slice_0.
  destruct (_ <? 0) eqn:E; [apply Z.ltb_lt in E; lia|].
  eapply Qle_trans; [|exact Hle].
  rewrite <- Zle_Qle, length_take. lia.
Qed.

(** [Math.min(x, 50)] is 50 at most. *)
Lemma limit_of_le_50 (p : query) :
  match limit_of p with
  | Num q => (q <= 50)%Q
  | PosInf => False
  | _ => True
  end.
Proof.
  unfold limit_of, Math_min, num_of_Z.
  destruct (Number_or (q_limit p) 10) as [| | |q]; try exact I.
  - apply Qle_refl.
  - destruct (Qle_bool q (inject_Z 50)) eqn:E.
    + by apply Qle_bool_iff.
    + apply Qle_refl.
Qed.

(** What [finish] returns after a scan from the initial state that stops
    at once when the limit is reached initially. *)
Lemma finish_count (c : scan_config) (st : scan_state) :
  (limit_reached c initial_scan_state = true -> st = initial_scan_state) ->
  match limit c with
  | Num q =>
      exists rs, finish c st = SearchResults rs
        /\ ((0 <= q)%Q -> (inject_Z (Z.of_nat (length rs)) <= q)%Q)
        /\ ((q < 0)%Q -> rs = [])
  | PosInf => True
  | _ => finish c st = SearchResults []
  end.
Proof.
  intros Hinit. unfold finish.
  destruct (limit c) as [| | |q] eqn:El; try exact I; try reflexivity.
  eexists. split; [reflexivity|]. split.
  - apply slice_0_length.
  - intros Hq. rewrite Hinit.
    + unfold slice_0. simpl. destruct (_ <? 0); apply take_nil.
    + apply limit_reached_initially. rewrite El. by apply Qlt_le_weak.
Qed.

Lemma Ok_inj {A : Type} (x y : A) : Ok x = Ok y -> x = y.
Proof. congruence. Qed.

(** ** Time values, dates and their strings *)

Lemma all_from_spec (n : nat) (z0 : Z) (f : Z -> bool) :
  all_from n z0 f = true -> forall z, z0 <= z < z0 + Z.of_nat n -> f z = true.
Proof.
  revert z0. induction n as [|k IH]; simpl; intros z0 H z Hz; [lia|].
  destruct (f z0) eqn:E; [|discriminate].
  destruct (decide (z = z0)) as [->|Hne]; [exact E|].
  apply (IH (z0 + 1)); [exact H | lia].
Qed.

Lemma years_of_era_ok (yoe : Z) : 0 <= yoe <= 399 -> year_of_era_ok yoe = true.
Proof.
  assert (H : all_from 400 0 year_of_era_ok = true) by (vm_compute; reflexivity).
  intros Hy. apply (all_from_spec _ _ _ H). lia.
Qed.

Lemma days_of_year_ok (leap : bool) (doy : Z) :
  0 <= doy <= 365 -> day_of_year_ok leap doy = true.
Proof.
  assert (H : forall b, all_from 366 0 (day_of_year_ok b) = true)
    by (intros []; vm_compute; reflexivity).
  intros Hd. apply (all_from_spec _ _ _ (H leap)). lia.
Qed.

(** The year of the era the calendar computation finds for a day, and the
    day of that year. *)
Lemma era_year_spec (doe : Z) :
  0 <= doe < 146097 ->
  let yoe := era_year doe in
  let doy := doe - (365 * yoe + yoe / 4 - yoe / 100) in
  0 <= yoe <= 399 /\ 0 <= doy <= 365
  /\ (doy = 365 ->
      (yoe + 1) mod 4 = 0
      /\ ((yoe + 1) mod 100 <> 0 \/ (yoe + 1) mod 400 = 0)).
Proof.
  intros H yoe doy. subst doy yoe. unfold era_year.
  Z.div_mod_to_equations; lia.
Qed.

Lemma DayFromYear_era (y e : Z) :
  DayFromYear (y + 400 * e) = DayFromYear y + 146097 * e.
Proof.
  unfold DayFromYear.
  replace (y + 400 * e - 1969) with (y - 1969 + (100 * e) * 4) by lia.
  replace (y + 400 * e - 1901) with (y - 1901 + (4 * e) * 100) by lia.
  replace (y + 400 * e - 1601) with (y - 1601 + e * 400) by lia.
  rewrite !Z.div_add by lia. lia.
Qed.

Lemma InLeapYear_era (y e : Z) : InLeapYear (y + 400 * e) = InLeapYear y.
Proof.
  unfold InLeapYear.
  replace ((y + 400 * e) mod 4) with (y mod 4)
    by (replace (y + 400 * e) with (y + (100 * e) * 4) by lia;
        by rewrite Z.mod_add by lia).
  replace ((y + 400 * e) mod 100) with (y mod 100)
    by (replace (y + 400 * e) with (y + (4 * e) * 100) by lia;
        by rewrite Z.mod_add by lia).
  replace ((y + 400 * e) mod 400) with (y mod 400)
    by (replace (y + 400 * e) with (y + e * 400) by lia;
        by rewrite Z.mod_add by lia).
  reflexivity.
Qed.

Lemma MakeDay_era (y mo d e : Z) :
  0 <= mo <= 11 ->
  MakeDay (y + 400 * e) mo d = MakeDay y mo d + 146097 * e.
Proof.
  intros Hmo. unfold MakeDay.
  rewrite (Z.div_small mo 12) by lia. rewrite !Z.add_0_r.
  rewrite DayFromYear_era, InLeapYear_era. lia.
Qed.

Lemma DaysInMonth_era (y mo e : Z) :
  DaysInMonth (y + 400 * e) mo = DaysInMonth y mo.
Proof. unfold DaysInMonth. by rewrite InLeapYear_era. Qed.

(** The date of a day number is a date of the calendar, and [MakeDay] gives
    back the day number. *)
Lemma civil_from_days_spec (z : Z) :
  let '(y, m, d) := civil_from_days z in
  1 <= m <= 12 /\ 1 <= d <= DaysInMonth y m /\ MakeDay y (m - 1) d = z
  /\ 400 * ((z + 719468) / 146097) <= y <= 400 * ((z + 719468) / 146097) + 400.
Proof.
  unfold civil_from_days.
  set (era := (z + 719468) / 146097). set (doe := (z + 719468) mod 146097).
  assert (Hdoe : 0 <= doe < 146097) by (apply Z.mod_pos_bound; lia).
  assert (Hz : z = doe - 719468 + 146097 * era).
  { subst doe era. pose proof (Z.div_mod (z + 719468) 146097). lia. }
  destruct (era_year_spec doe Hdoe) as (Hyoe & Hdoy & Hleap).
  pose proof (years_of_era_ok (era_year doe) Hyoe) as Hy.
  unfold year_of_era_ok in Hy. apply andb_true_iff in Hy as [Hy1 Hy2].
  apply Z.eqb_eq in Hy1, Hy2.
  set (m := era_month doe).
  set (y0 := if m <=? 2 then era_year doe + 1 else era_year doe).
  replace (era_year doe + 400 * era + (if m <=? 2 then 1 else 0))
    with (y0 + 400 * era) by (subst y0; destruct (m <=? 2); lia).
  assert (H365 : era_doy doe = 365 -> InLeapYear y0 = true).
  { intros E.
    assert (Hm : (m <=? 2) = true)
      by (subst m; unfold era_month; rewrite E; reflexivity).
    subst y0. rewrite Hm. destruct (Hleap E) as [H4 H100].
    unfold InLeapYear. rewrite H4. simpl.
    destruct H100 as [H100|H400].
    - apply Z.eqb_neq in H100. by rewrite H100.
    - apply Z.eqb_eq in H400. rewrite H400. apply orb_true_r. }
  pose proof (days_of_year_ok (InLeapYear y0) (era_doy doe) Hdoy) as Hd.
  unfold day_of_year_ok in Hd. fold (era_month doe) (era_day doe) in Hd.
  fold m in Hd.
  destruct ((era_doy doe =? 365) && negb (InLeapYear y0)) eqn:Ex.
  { apply andb_true_iff in Ex as [Ex1 Ex2]. apply Z.eqb_eq in Ex1.
    rewrite (H365 Ex1) in Ex2. discriminate Ex2. }
  repeat (apply andb_true_iff in Hd as [Hd ?]).
  repeat match goal with
         | H : (_ <=? _) = true |- _ => apply Z.leb_le in H
         | H : (_ =? _) = true |- _ => apply Z.eqb_eq in H
         end.
  rewrite MakeDay_era by lia. unfold DaysInMonth. rewrite InLeapYear_era.
  assert (Hmk : MakeDay y0 (m - 1) (era_day doe) = doe - 719468).
  { unfold MakeDay. rewrite (Z.div_small (m - 1) 12), (Z.mod_small (m - 1) 12)
      by lia.
    rewrite Z.add_0_r. unfold era_doy in *. subst y0.
    destruct (m <=? 2); destruct (InLeapYear (era_year doe)); lia. }
  repeat split; try lia.
  - subst y0. destruct (m <=? 2); lia.
  - subst y0. destruct (m <=? 2); lia.
Qed.

Lemma digit_unit_mod (n : Z) :
  is_digit (digit_unit (n mod 10)) = true
  /\ digit_val (digit_unit (n mod 10)) = n mod 10
  /\ is_space (digit_unit (n mod 10)) = false.
Proof.
  pose proof (Z.mod_pos_bound n 10 ltac:(lia)) as H.
  unfold digit_unit, digit_val.
  assert (Hr : (48 <= Z.to_N (48 + n mod 10) <= 57)%N) by lia.
  repeat split.
  - unfold is_digit. apply andb_true_iff. split; apply N.leb_le; lia.
  - lia.
  - apply is_space_false_range. lia.
Qed.

Lemma atom_ok_digit (n : Z) : atom_ok D (digit_unit (n mod 10)).
Proof. apply atom_ok_D, digit_unit_mod. Qed.

Lemma match_atoms_exact (p : list atom) (s : jsstring) :
  Forall2 atom_ok p s -> match_atoms p s = Some [].
Proof.
  intros H. apply match_atoms_spec. exists s. split; [|exact H].
  by rewrite app_nil_r.
Qed.

(** The time of day splits into hours, minutes, seconds and milliseconds. *)
Lemma time_of_day_fields (tid : Z) :
  0 <= tid < msPerDay ->
  let h := tid / 3600000 in
  let mi := tid / 60000 mod 60 in
  let s := tid / 1000 mod 60 in
  let ms := tid mod 1000 in
  0 <= h <= 23 /\ 0 <= mi <= 59 /\ 0 <= s <= 59 /\ 0 <= ms <= 999
  /\ MakeTime h mi s ms = tid.
Proof.
  unfold msPerDay, MakeTime. intros H. cbv zeta.
  Z.div_mod_to_equations. lia.
Qed.

(** The value of two, three, four and six digits. *)
Lemma digits_value_2 (a b : Z) :
  digits_value [digit_unit (a mod 10); digit_unit (b mod 10)]
  = 10 * (a mod 10) + b mod 10.
Proof.
  unfold digits_value. cbn [fold_left].
  rewrite !(proj1 (proj2 (digit_unit_mod _))). lia.
Qed.

Lemma digits_value_3 (a b c : Z) :
  digits_value [digit_unit (a mod 10); digit_unit (b mod 10);
                digit_unit (c mod 10)]
  = 100 * (a mod 10) + 10 * (b mod 10) + c mod 10.
Proof.
  unfold digits_value. cbn [fold_left].
  rewrite !(proj1 (proj2 (digit_unit_mod _))). lia.
Qed.

Lemma digits_value_4 (a b c d : Z) :
  digits_value [digit_unit (a mod 10); digit_unit (b mod 10);
                digit_unit (c mod 10); digit_unit (d mod 10)]
  = 1000 * (a mod 10) + 100 * (b mod 10) + 10 * (c mod 10) + d mod 10.
Proof.
  unfold digits_value. cbn [fold_left].
  rewrite !(proj1 (proj2 (digit_unit_mod _))). lia.
Qed.

Lemma digits_value_6 (a b c d e f : Z) :
  digits_value [digit_unit (a mod 10); digit_unit (b mod 10);
                digit_unit (c mod 10); digit_unit (d mod 10);
                digit_unit (e mod 10); digit_unit (f mod 10)]
  = 100000 * (a mod 10) + 10000 * (b mod 10) + 1000 * (c mod 10)
    + 100 * (d mod 10) + 10 * (e mod 10) + f mod 10.
Proof.
  unfold digits_value. cbn [fold_left].
  rewrite !(proj1 (proj2 (digit_unit_mod _))). lia.
Qed.

Lemma pad_value_2 (n : Z) :
  0 <= n <= 99 -> 10 * (n / 10 mod 10) + n mod 10 = n.
Proof. intros H. Z.div_mod_to_equations. lia. Qed.

Lemma pad_value_3 (n : Z) :
  0 <= n <= 999 ->
  100 * (n / 10 / 10 mod 10) + 10 * (n / 10 mod 10) + n mod 10 = n.
Proof. intros H. Z.div_mod_to_equations. lia. Qed.

Lemma pad_value_4 (n : Z) :
  0 <= n <= 9999 ->
  1000 * (n / 10 / 10 / 10 mod 10) + 100 * (n / 10 / 10 mod 10)
  + 10 * (n / 10 mod 10) + n mod 10 = n.
Proof. intros H. Z.div_mod_to_equations. lia. Qed.

Lemma pad_value_6 (n : Z) :
  0 <= n <= 999999 ->
  100000 * (n / 10 / 10 / 10 / 10 / 10 mod 10)
  + 10000 * (n / 10 / 10 / 10 / 10 mod 10)
  + 1000 * (n / 10 / 10 / 10 mod 10) + 100 * (n / 10 / 10 mod 10)
  + 10 * (n / 10 mod 10) + n mod 10 = n.
Proof. intros H. Z.div_mod_to_equations. lia. Qed.

(** The fields of a date of the calendar and of a time of day pass the
    checks of [Date.parse]. *)
Lemma time_of_fields_ok (y mo d h mi s ms : Z) :
  1 <= mo <= 12 -> 1 <= d <= DaysInMonth y mo ->
  0 <= h <= 23 -> 0 <= mi <= 59 -> 0 <= s <= 59 ->
  time_of_fields y mo d h mi s ms
  = Some (MakeDate (MakeDay y (mo - 1) d) (MakeTime h mi s ms)).
Proof.
  intros Hmo Hd Hh Hmi Hs. unfold time_of_fields.
  rewrite !(proj2 (Z.leb_le _ _)) by lia. reflexivity.
Qed.

(** What [toISOString] writes is a date-time string of its time value, for
    every time value in the range of [Date]. *)
Lemma date_time_string_toISOString (t : Z) :
  -8640000000000000 <= t <= 8640000000000000 ->
  date_time_string (toISOString t) = Some t.
Proof.
  intros Ht. unfold toISOString.
  pose proof (civil_from_days_spec (t / msPerDay)) as Hspec.
  destruct (civil_from_days (t / msPerDay)) as [[y m] d].
  destruct Hspec as (Hm & Hd & Hmk & Hy).
  assert (Hyr : -276000 <= y <= 276400).
  { unfold msPerDay in Hy. Z.div_mod_to_equations. lia. }
  assert (Htid : 0 <= t mod msPerDay < msPerDay)
    by (apply Z.mod_pos_bound; reflexivity).
  destruct (time_of_day_fields _ Htid) as (Hh & Hmi & Hs & Hms & Htime).
  assert (Hres : Some (MakeDate (MakeDay y (m - 1) d)
                   (MakeTime (t mod msPerDay / 3600000)
                      (t mod msPerDay / 60000 mod 60)
                      (t mod msPerDay / 1000 mod 60) (t mod msPerDay mod 1000)))
                 = Some t).
  { rewrite Hmk, Htime. unfold MakeDate. f_equal.
    pose proof (Z.div_mod t msPerDay ltac:(discriminate)). lia. }
  assert (Hd99 : 1 <= d <= 99).
  { split; [lia|]. unfold DaysInMonth, days_in_month in Hd.
    repeat match goal with
           | H : context [if ?b then _ else _] |- _ => destruct b
           end; lia. }
  set (tid := t mod msPerDay) in *.
  destruct ((0 <=? y) && (y <=? 9999)) eqn:Ey.
  - apply andb_true_iff in Ey as [Ey1 Ey2]. apply Z.leb_le in Ey1, Ey2.
    cbn [pad app]. unfold date_time_string.
    rewrite match_atoms_exact
      by (unfold ISO_ATOMS; repeat constructor; try apply atom_ok_digit;
          by apply atom_ok_OneOf; left).
    unfold group. cbn [drop take].
    rewrite digits_value_4, !digits_value_2, digits_value_3.
    rewrite pad_value_4, !pad_value_2, pad_value_3 by lia.
    rewrite time_of_fields_ok by lia. exact Hres.
  - assert (Hrange : y < 0 \/ 9999 < y).
    { apply andb_false_iff in Ey as [Ey|Ey]; [apply Z.leb_gt in Ey
                                            | apply Z.leb_gt in Ey]; lia. }
    destruct (y <? 0) eqn:Eneg.
    + apply Z.ltb_lt in Eneg. cbn [pad app]. unfold date_time_string.
      match goal with
      | |- context [match_atoms ISO_ATOMS ?s] =>
          replace (match_atoms ISO_ATOMS s) with (@None jsstring) by reflexivity
      end.
      rewrite match_atoms_exact
        by (unfold ISO_EXPANDED_ATOMS, ISO_ATOMS; repeat constructor;
            try apply atom_ok_digit; apply atom_ok_OneOf; set_solver).
      unfold group. cbn [drop take head].
      rewrite digits_value_6, !digits_value_2, digits_value_3.
      rewrite pad_value_6, !pad_value_2, pad_value_3 by lia.
      rewrite bool_decide_eq_true_2 by reflexivity.
      rewrite (proj2 (Z.eqb_neq (- y) 0)) by lia. cbn [andb].
      rewrite Z.opp_involutive.
      rewrite time_of_fields_ok by lia. exact Hres.
    + apply Z.ltb_ge in Eneg. cbn [pad app]. unfold date_time_string.
      match goal with
      | |- context [match_atoms ISO_ATOMS ?s] =>
          replace (match_atoms ISO_ATOMS s) with (@None jsstring) by reflexivity
      end.
      rewrite match_atoms_exact
        by (unfold ISO_EXPANDED_ATOMS, ISO_ATOMS; repeat constructor;
            try apply atom_ok_digit; apply atom_ok_OneOf; set_solver).
      unfold group. cbn [drop take head].
      rewrite digits_value_6, !digits_value_2, digits_value_3.
      rewrite pad_value_6, !pad_value_2, pad_value_3 by lia.
      rewrite bool_decide_eq_false_2 by discriminate. cbn [andb].
      rewrite time_of_fields_ok by lia. exact Hres.
Qed.

(** [Date.parse] reads back what [toISOString] writes, for every time value
    in the range of [Date]. *)
Lemma Date_parse_toISOString (t : Z) :
  -8640000000000000 <= t <= 8640000000000000 ->
  Date_parse (toISOString t) = Some t.
Proof.
  intros Ht. unfold Date_parse, TimeClip.
  rewrite date_time_string_toISOString by exact Ht.
  rewrite (proj2 (Z.leb_le _ _)) by lia. reflexivity.
Qed.

Lemma days_before_month_bounds (leap : bool) (mn : Z) :
  0 <= days_before_month leap mn <= 335.
Proof.
  unfold days_before_month.
  assert (H : 0 <= nth (Z.to_nat mn)
                     [0; 31; 59; 90; 120; 151; 181; 212; 243; 273; 304; 334] 0
              <= 334).
  { do 12 (destruct (Z.to_nat mn) as [|n]; [simpl; lia|]; clear mn;
           set (mn := Z.of_nat n); replace n with (Z.to_nat mn) by lia;
           clearbody mn; clear n).
    destruct (Z.to_nat mn); simpl; lia. }
  destruct (leap && (2 <=? mn)); lia.
Qed.

Lemma Date_UTC_next_day (y mo d : Z) :
  Date_UTC y mo (d + 1) 0 0 0 = Date_UTC y mo d 0 0 0 + msPerDay.
Proof. unfold Date_UTC, MakeDate, MakeDay, msPerDay. lia. Qed.

(** The dates [parseDateInput] can build lie in the range of [Date]. *)
Lemma Date_UTC_range (y mo d : Z) :
  0 <= y <= 9999 -> -1 <= mo <= 98 -> 0 <= d <= 100 ->
  -8640000000000000 <= Date_UTC y mo d 0 0 0 <= 8640000000000000.
Proof.
  intros Hy Hmo Hd. unfold Date_UTC, MakeDate, MakeDay, MakeTime, msPerDay.
  set (yr := if (0 <=? y) && (y <=? 99) then 1900 + y else y).
  assert (Hyr : 100 <= yr <= 9999).
  { subst yr. destruct (Z.leb_spec 0 y), (Z.leb_spec y 99); simpl; lia. }
  pose proof (days_before_month_bounds (InLeapYear (yr + mo / 12)) (mo mod 12)).
  unfold DayFromYear. Z.div_mod_to_equations. lia.
Qed.

Lemma trim_no_space_ends (c e : N) (mid : jsstring) :
  is_space c = false -> is_space e = false ->
  trim (c :: mid ++ [e]) = c :: mid ++ [e].
Proof.
  intros Hc He. unfold trim, trimEnd.
  assert (E1 : trimStart (c :: mid ++ [e]) = c :: mid ++ [e])
    by (cbn [trimStart]; by rewrite Hc).
  assert (E2 : rev (c :: mid ++ [e]) = e :: rev (c :: mid)).
  { change (c :: mid ++ [e]) with ((c :: mid) ++ [e]). by rewrite rev_app_distr. }
  rewrite E1, E2. cbn [trimStart]. rewrite He, <- E2. apply rev_involutive.
Qed.

Lemma digit_unit_not (n : Z) (c : N) :
  is_digit c = false -> atom_matches (OneOf [c]) (digit_unit (n mod 10)) = false.
Proof.
  intros Hc. simpl. apply bool_decide_eq_false. intros Hin.
  apply list_elem_of_singleton in Hin.
  destruct (digit_unit_mod n) as [Hd _]. congruence.
Qed.

(** [parseDateInput] on a date spelled [YYYY-MM-DD]. *)
Lemma parseDateInput_ymd (y m d : Z) (isEndExclusive : bool) :
  0 <= y <= 9999 -> 0 <= m <= 99 -> 0 <= d <= 99 ->
  parseDateInput (Some (ymd_string y m d)) isEndExclusive
  = Some (toISOString
            (Date_UTC y (m - 1) (d + (if isEndExclusive then 1 else 0)) 0 0 0)).
Proof.
  intros Hy Hm Hd. unfold ymd_string. cbn [pad app].
  unfold parseDateInput. cbn [or_default].
  match goal with
  | |- context [trim [?a; ?b; ?c; ?d'; ?e; ?f; ?g; ?h; ?i; ?j]] =>
      change [a; b; c; d'; e; f; g; h; i; j]
        with (a :: [b; c; d'; e; f; g; h; i] ++ [j]);
      rewrite (trim_no_space_ends a j) by apply digit_unit_mod
  end.
  cbn [app].
  match goal with
  | |- context [match_atoms MDY_REGEX ?s] =>
      assert (Hmdy : match_atoms MDY_REGEX s = None)
  end.
  { unfold MDY_REGEX. cbn [match_atoms].
    change (atom_matches D) with is_digit.
    rewrite !(proj1 (digit_unit_mod _)).
    by rewrite digit_unit_not by reflexivity. }
  rewrite Hmdy.
  rewrite match_atoms_exact
    by (unfold YMD_REGEX; repeat constructor; try apply atom_ok_digit;
        by apply atom_ok_OneOf; left).
  unfold group. cbn [drop take].
  rewrite digits_value_4, !digits_value_2.
  rewrite pad_value_4, !pad_value_2 by lia. reflexivity.
Qed.

(** [parseDateInput] on a date spelled [MM/DD/YYYY]. *)
Lemma parseDateInput_mdy (y m d : Z) (isEndExclusive : bool) :
  0 <= y <= 9999 -> 0 <= m <= 99 -> 0 <= d <= 99 ->
  parseDateInput (Some (mdy_string y m d)) isEndExclusive
  = Some (toISOString
            (Date_UTC y (m - 1) (d + (if isEndExclusive then 1 else 0)) 0 0 0)).
Proof.
  intros Hy Hm Hd. unfold mdy_string. cbn [pad app].
  unfold parseDateInput. cbn [or_default].
  match goal with
  | |- context [trim [?a; ?b; ?c; ?d'; ?e; ?f; ?g; ?h; ?i; ?j]] =>
      change [a; b; c; d'; e; f; g; h; i; j]
        with (a :: [b; c; d'; e; f; g; h; i] ++ [j]);
      rewrite (trim_no_space_ends a j) by apply digit_unit_mod
  end.
  cbn [app].
  rewrite match_atoms_exact
    by (unfold MDY_REGEX; repeat constructor; try apply atom_ok_digit;
        by apply atom_ok_OneOf; left).
  unfold group. cbn [drop take].
  rewrite digits_value_4, !digits_value_2.
  rewrite pad_value_4, !pad_value_2 by lia. reflexivity.
Qed.

(** The bound of a date, in either spelling: the first instant of the date
    for [from], the first instant of the next day for [to]. *)
Lemma bound_of_date (s : jsstring) (y m d : Z) :
  0 <= y <= 9999 -> 0 <= m <= 99 -> 0 <= d <= 99 ->
  s = ymd_string y m d \/ s = mdy_string y m d ->
  bound_ms (parseDateInput (Some s) false) = Some (start_of_date y m d)
  /\ bound_ms (parseDateInput (Some s) true)
     = Some (start_of_date y m d + msPerDay).
Proof.
  intros Hy Hm Hd Hs. unfold start_of_date.
  assert (Hp : forall e, parseDateInput (Some s) e
               = Some (toISOString
                         (Date_UTC y (m - 1) (d + (if e then 1 else 0)) 0 0 0))).
  { intros e. destruct Hs as [-> | ->];
      [by apply parseDateInput_ymd | by apply parseDateInput_mdy]. }
  rewrite !Hp. cbn [bound_ms].
  rewrite !Date_parse_toISOString by (apply Date_UTC_range; lia).
  by rewrite Z.add_0_r, Date_UTC_next_day.
Qed.

(** ** The date filter *)

Lemma match_atoms_full (p : list atom) (s : jsstring) :
  match_atoms p s = Some [] <-> Forall2 atom_ok p s.
Proof.
  rewrite match_atoms_spec. split.
  - intros (pre & -> & H). by rewrite app_nil_r.
  - intros H. exists s. by rewrite app_nil_r.
Qed.

(** [parseDateInput] gives [null] exactly for the parameters that do not
    read as a date: absent, empty, blank or of another shape. *)
Lemma parseDateInput_None (v : option jsstring) (isEndExclusive : bool) :
  parseDateInput v isEndExclusive = None <-> ~ date_shaped v.
Proof.
  unfold parseDateInput, date_shaped.
  destruct (trim (or_default v [])) as [|c t] eqn:Et.
  - split; [|reflexivity]. intros _ [H|H]; inversion H.
  - rewrite <- !match_atoms_full.
    destruct (match_atoms MDY_REGEX (c :: t)) as [[|? ?]|] eqn:E1.
    + split; [discriminate|]. intros H. destruct H. by left.
    + destruct (match_atoms YMD_REGEX (c :: t)) as [[|? ?]|] eqn:E2.
      * split; [discriminate|]. intros H. destruct H. by right.
      * split; [|reflexivity]. by intros _ [H|H].
      * split; [|reflexivity]. by intros _ [H|H].
    + destruct (match_atoms YMD_REGEX (c :: t)) as [[|? ?]|] eqn:E2.
      * split; [discriminate|]. intros H. destruct H. by right.
      * split; [|reflexivity]. by intros _ [H|H].
      * split; [|reflexivity]. by intros _ [H|H].
Qed.

(** X2: a parameter that does not read as a date imposes no constraint on
    its side of the filter. *)
Lemma no_date_no_constraint (p : query) :
  (~ date_shaped (q_from p) ->
   forall nameMs, before_from (fromMs (config_of p)) nameMs = false)
  /\ (~ date_shaped (q_to p) ->
      forall nameMs, at_or_after_to (toMs (config_of p)) nameMs = false).
Proof.
  split; intros H nameMs; simpl.
  - apply (parseDateInput_None _ false) in H. by rewrite H.
  - apply (parseDateInput_None _ true) in H. by rewrite H.
Qed.

(** X1: the upper bound of a search whose [to] is a date, in either spelling:
    a timestamp before the end of that date passes; a timestamp at or after
    the first instant of the next day is excluded, provided that instant is
    not the time value 0, which the test [toMs && ...] takes for "no
    bound". *)
Lemma to_date_bound (p : query) (s : jsstring) (y m d : Z) :
  0 <= y <= 9999 -> 0 <= m <= 99 -> 0 <= d <= 99 ->
  s = ymd_string y m d \/ s = mdy_string y m d ->
  q_to p = Some s ->
  let next_day := start_of_date y m d + msPerDay in
  toMs (config_of p) = Some next_day
  /\ (forall nameMs, nameMs < next_day ->
        at_or_after_to (toMs (config_of p)) nameMs = false)
  /\ (next_day ≠ 0 ->
      forall nameMs, next_day <= nameMs ->
        at_or_after_to (toMs (config_of p)) nameMs = true)
  /\ (next_day = 0 ->
      forall nameMs, at_or_after_to (toMs (config_of p)) nameMs = false).
Proof.
  intros Hy Hm Hd Hs Hto next_day.
  assert (E : toMs (config_of p) = Some next_day).
  { simpl. rewrite Hto. by apply bound_of_date. }
  rewrite E. unfold at_or_after_to, truthy_ms.
  split; [reflexivity|]. split; [|split].
  - intros nameMs Hlt. destruct next_day; try reflexivity; apply Z.leb_gt; lia.
  - intros Hne nameMs Hle. destruct next_day; try (by destruct Hne);
      apply Z.leb_le; lia.
  - intros -> nameMs. reflexivity.
Qed.

(** ** The scan and the returned list *)

(** The equations of the scan. *)
Lemma scanEntry_Dir (pj : jsstring -> jsstring -> jsstring) (c : scan_config)
    (folderPath : jsstring) (depth : nat) (item : jsstring) (items : entries)
    (st : scan_state) :
  scanEntry pj c folderPath depth item (Dir items) st
  = if (3 <? S depth)%nat || limit_reached c st then Ok st
    else scanItems pj c (pj folderPath item) (S depth) items st.
Proof. reflexivity. Qed.

Lemma scanItems_ECons (pj : jsstring -> jsstring -> jsstring) (c : scan_config)
    (folderPath : jsstring) (depth : nat) (item : jsstring) (nd : node)
    (rest : entries) (st : scan_state) :
  scanItems pj c folderPath depth (ECons item nd rest) st
  = if limit_reached c st then Ok st
    else match scanEntry pj c folderPath depth item nd st with
         | Ok st' => scanItems pj c folderPath depth rest st'
         | Throw e => Throw e
         end.
Proof. reflexivity. Qed.

(** ** The shape of the histories *)

Lemma exchanges_app (h1 h2 : list turn) :
  exchanges h1 -> exchanges h2 -> exchanges (h1 ++ h2).
Proof. induction 1; simpl; [done|]. intros H2. constructor. auto. Qed.

Lemma exchanges_drop (h : list turn) (k : nat) :
  exchanges h -> exchanges (drop (2 * k) h).
Proof.
  intros H. revert k. induction H as [|p a h H IH]; intros k.
  - rewrite drop_nil. constructor.
  - destruct k as [|k]; [by constructor|].
    replace (2 * S k)%nat with (S (S (2 * k))) by lia. simpl. apply IH.
Qed.

Lemma exchanges_even (h : list turn) : exchanges h -> Nat.Even (length h).
Proof.
  induction 1 as [|p a h H [k Hk]]; [by exists 0%nat|].
  exists (S k). simpl. lia.
Qed.

Lemma push_turns_exchanges (h : list turn) (prompt answer : jsstring) :
  exchanges h -> exchanges (push_turns h prompt answer).
Proof.
  intros H. unfold push_turns.
  assert (H' : exchanges (h ++ [Turn User prompt; Turn Model answer]))
    by (apply exchanges_app; [done | repeat constructor]).
  destruct (_ <? _)%nat eqn:E; [|done].
  destruct (exchanges_even _ H') as [k Hk]. apply Nat.ltb_lt in E.
  unfold MAX_CONVERSATION_HISTORY in *.
  replace (length (h ++ [Turn User prompt; Turn Model answer]) - 20 * 2)%nat
    with (2 * (k - 20))%nat by lia.
  by apply exchanges_drop.
Qed.

(** A property of histories that holds of the empty history and is kept by
    the recording of an exchange holds of every stored history, after every
    request. *)
Section HistoryInvariant.
Variable P : list turn -> Prop.
Variable Q : jsstring -> Prop.
Hypothesis P_nil : P [].
Hypothesis P_push : forall h prompt answer,
  P h -> Q answer -> P (push_turns h prompt answer).

Lemma ask_keeps_histories (e : env) (rq : query) (st : stores) :
  answers_satisfy Q e ->
  histories_satisfy P st -> histories_satisfy P (run e (ask rq st)).2.
Proof.
  intros He [H1 H2]. unfold ask, getConversation.
  set (sid := or_default (q_sessionId rq) (lit "default")).
  assert (Hget : exists conv cs,
    (match conversations st !! sid with
     | Some c => (c, conversations st)
     | None => (fresh_conversation, <[sid := fresh_conversation]> (conversations st))
     end) = (conv, cs)
    /\ P (history conv) /\ map_Forall (fun _ c => P (history c)) cs).
  { destruct (conversations st !! sid) as [c|] eqn:E.
    - exists c, (conversations st). repeat split; [exact (H1 _ _ E) | exact H1].
    - eexists _, _. repeat split; [exact P_nil|].
      by apply map_Forall_insert_2. }
  destruct Hget as (conv & cs & -> & Hc & Hcs).
  cbn [run]. destruct (on_fetch e _) as [f|err]; [|by split].
  cbn [run].
  set (conv' := if needsNewContext_of conv _ then _ else conv).
  assert (Hc' : P (history conv')).
  { subst conv'. by destruct (needsNewContext_of conv _). }
  destruct (on_gemini e _ _ _) as [answer|err] eqn:Eg; cbn [run snd].
  - split; simpl; [|exact H2].
    apply map_Forall_insert_2; [|by apply map_Forall_insert_2].
    simpl. apply P_push; [exact Hc' | exact (He _ _ _ _ Eg)].
  - split; simpl; [|exact H2]. by apply map_Forall_insert_2.
Qed.

Lemma askTranscript_keeps_histories (e : env) (p : query) (st : stores) :
  answers_satisfy Q e ->
  histories_satisfy P st -> histories_satisfy P (run e (askTranscript p st)).2.
Proof.
  intros He [H1 H2]. unfold askTranscript, getTranscriptConversation.
  repeat (case_bool_decide; [by split|]).
  set (sid := trim (or_default (q_sessionId p) (lit "tr_default"))).
  assert (Hget : exists conv ts,
    (match transcriptConversations st !! sid with
     | Some c => (c, transcriptConversations st)
     | None => (fresh_transcript_conversation,
                <[sid := fresh_transcript_conversation]> (transcriptConversations st))
     end) = (conv, ts)
    /\ P (t_history conv) /\ map_Forall (fun _ c => P (t_history c)) ts).
  { destruct (transcriptConversations st !! sid) as [c|] eqn:E.
    - exists c, (transcriptConversations st).
      repeat split; [exact (H2 _ _ E) | exact H2].
    - eexists _, _. repeat split; [exact P_nil|].
      by apply map_Forall_insert_2. }
  destruct Hget as (conv & ts & -> & Hc & Hts).
  rewrite run_read_transcript.
  destruct (read_outcome e _) as [raw|err]; [|by split].
  case_bool_decide; [by split|]. cbn [run].
  set (conv' := if _ || _ then _ else conv).
  assert (Hc' : P (t_history conv')).
  { subst conv'. by destruct (_ || _). }
  destruct (on_gemini e _ _ _) as [answer|err'] eqn:Eg; cbn [run snd].
  - split; simpl; [exact H1|].
    apply map_Forall_insert_2; [|by apply map_Forall_insert_2].
    simpl. apply P_push; [exact Hc' | exact (He _ _ _ _ Eg)].
  - split; simpl; [exact H1|]. by apply map_Forall_insert_2.
Qed.

Lemma api_keeps_histories (w : world) (e : env) (rq : query) (st : stores) :
  answers_satisfy Q e ->
  histories_satisfy P st -> histories_satisfy P (run e (api w rq st)).2.
Proof.
  intros He Hst. unfold api.
  repeat case_decide.
  - by destruct (findTranscripts w rq).
  - rewrite run_bind.
    pose proof (askTranscript_keeps_histories e rq st He Hst) as Hk.
    destruct (run e (askTranscript rq st)) as [[r|err] st']; exact Hk.
  - cbn [run]. by destruct (on_add_note e rq).
  - cbn [run]. by destruct (on_fetch e _).
  - destruct Hst as [Hc Ht]. split; simpl; [by apply map_Forall_delete | done].
  - destruct Hst as [Hc Ht]. split; simpl; [done | by apply map_Forall_delete].
  - rewrite run_bind.
    pose proof (ask_keeps_histories e rq st He Hst) as Hk.
    destruct (run e (ask rq st)) as [[r|err] st']; exact Hk.
  - exact Hst.
Qed.

Lemma serve_keeps_histories (reqs : list (world * env * query)) (st : stores) :
  Forall (fun r => answers_satisfy Q r.1.2) reqs ->
  histories_satisfy P st -> histories_satisfy P (serve reqs st).
Proof.
  intros Hreqs. revert st.
  induction Hreqs as [|[[w e] rq] reqs He _ IH]; intros st Hst; simpl.
  - exact Hst.
  - apply IH. by apply api_keeps_histories.
Qed.

End HistoryInvariant.

(** X6: after any sequence of requests, handled one after the other from
    the empty stores and whatever the outside answers, every history of
    either store is a sequence of exchanges: a user turn followed by a model
    turn, so the roles alternate and the first turn is the user's. *)
Theorem histories_alternate (reqs : list (world * env * query))
    (sessionId : jsstring) :
  let st := serve reqs initial_stores in
  (forall c, conversations st !! sessionId = Some c -> exchanges (history c))
  /\ (forall c, transcriptConversations st !! sessionId = Some c ->
        exchanges (t_history c)).
Proof.
  intros st.
  assert (H : histories_satisfy exchanges st).
  { apply (serve_keeps_histories exchanges (fun _ => True)).
    - constructor.
    - intros h p a Hh _. by apply push_turns_exchanges.
    - apply Forall_forall. by intros [[w e] rq] _ m u h a _.
    - split; apply map_Forall_empty. }
  destruct H as [H1 H2].
  split; intros c Hc; [exact (H1 _ _ Hc) | exact (H2 _ _ Hc)].
Qed.

(** ** What a response reports about the conversation *)

Lemma half_length_one (h : list turn) : half_length h == 1 <-> length h = 2%nat.
Proof. unfold half_length, Qeq. simpl. lia. Qed.

(** X7: in the success object of [ask] and of [askTranscript],
    [isNewConversation] is true exactly when [conversationLength] is 1. *)
Theorem new_conversation_iff_first_exchange (e : env) (rq : query) (st : stores) :
  (forall reply st', run e (ask rq st) = (Ok reply, st') ->
     (a_isNewConversation reply = true <-> a_conversationLength reply == 1))
  /\ (forall answer len isNew st',
        run e (askTranscript rq st) = (Ok (TranscriptAnswer answer len isNew), st') ->
        (isNew = true <-> len == 1)).
Proof.
  split.
  - intros reply st'. unfold ask.
    destruct (getConversation _ (conversations st)) as [conv cs].
    cbn [run]. destruct (on_fetch e _) as [f|err]; cbn [run]; [|discriminate].
    match goal with
    | |- context [on_gemini e ?m ?u ?h] =>
        destruct (on_gemini e m u h) as [answer|err]
    end; cbn [run]; intros Hrun; [|discriminate].
    injection Hrun as <- _. cbn [a_isNewConversation a_conversationLength history].
    unfold needsNewContext_of.
    destruct (negb _); simpl.
    + split; [intros _|reflexivity]. apply half_length_one. reflexivity.
    + case_bool_decide as Hl; simpl.
      * split; [intros _|reflexivity]. apply half_length_one. reflexivity.
      * split; [discriminate|]. intros Hq. apply half_length_one in Hq.
        rewrite push_turns_length in Hq. lia.
  - intros answer len isNew st'. unfold askTranscript.
    repeat (case_bool_decide; [discriminate|]).
    destruct (getTranscriptConversation _ (transcriptConversations st)) as [conv ts].
    rewrite run_read_transcript.
    destruct (read_outcome e _) as [raw|err]; [|discriminate].
    case_bool_decide; [discriminate|]. cbn [run].
    match goal with
    | |- context [on_gemini e ?m ?u ?h] =>
        destruct (on_gemini e m u h) as [answer'|err]
    end; cbn [run]; intros Hrun; [|discriminate].
    injection Hrun as _ <- <- _.
    destruct (negb _); simpl.
    + split; [intros _|reflexivity]. apply half_length_one. reflexivity.
    + rewrite bool_decide_eq_true. symmetry. apply half_length_one.
Qed.

(** ** What a request leaves alone *)

Lemma ask_frame (e : env) (rq : query) (st : stores) :
  let st' := (run e (ask rq st)).2 in
  transcriptConversations st' = transcriptConversations st
  /\ forall s, s ≠ session_of rq -> conversations st' !! s = conversations st !! s.
Proof.
  unfold ask, getConversation. fold (session_of rq).
  set (sid := session_of rq).
  assert (Hget : exists conv cs,
    (match conversations st !! sid with
     | Some c => (c, conversations st)
     | None => (fresh_conversation, <[sid := fresh_conversation]> (conversations st))
     end) = (conv, cs)
    /\ forall s, s ≠ sid -> cs !! s = conversations st !! s).
  { destruct (conversations st !! sid) as [c|] eqn:E; eexists _, _;
      (split; [reflexivity|]); [done|].
    intros s Hs. by rewrite lookup_insert_ne. }
  destruct Hget as (conv & cs & -> & Hcs).
  cbn [run]. destruct (on_fetch e _) as [f|err]; cbn [run]; [|by split].
  match goal with
  | |- context [on_gemini e ?m ?u ?h] =>
      destruct (on_gemini e m u h) as [answer|err]
  end; cbn [run snd]; (split; [reflexivity|]); intros s Hs; simpl;
    rewrite ?lookup_insert_ne by done; by apply Hcs.
Qed.

Lemma askTranscript_frame (e : env) (p : query) (st : stores) :
  let st' := (run e (askTranscript p st)).2 in
  conversations st' = conversations st
  /\ forall s, s ≠ transcript_session_of p ->
       transcriptConversations st' !! s = transcriptConversations st !! s.
Proof.
  unfold askTranscript, getTranscriptConversation. fold (transcript_session_of p).
  set (sid := transcript_session_of p).
  repeat (case_bool_decide; [by split|]).
  assert (Hget : exists conv ts,
    (match transcriptConversations st !! sid with
     | Some c => (c, transcriptConversations st)
     | None => (fresh_transcript_conversation,
                <[sid := fresh_transcript_conversation]> (transcriptConversations st))
     end) = (conv, ts)
    /\ forall s, s ≠ sid -> ts !! s = transcriptConversations st !! s).
  { destruct (transcriptConversations st !! sid) as [c|] eqn:E; eexists _, _;
      (split; [reflexivity|]); [done|].
    intros s Hs. by rewrite lookup_insert_ne. }
  destruct Hget as (conv & ts & -> & Hts).
  rewrite run_read_transcript.
  destruct (read_outcome e _) as [raw|err]; [|by split].
  case_bool_decide; [by split|]. cbn [run].
  match goal with
  | |- context [on_gemini e ?m ?u ?h] =>
      destruct (on_gemini e m u h) as [answer|err]
  end; cbn [run snd]; (split; [reflexivity|]); intros s Hs; simpl;
    rewrite ?lookup_insert_ne by done; by apply Hts.
Qed.

(** X8: a request changes one session at most.  The general store changes
    at most at the session the request names, and only by the actions [ask]
    and [clearconversation]; the transcript store changes at most at the
    session the request names (as given, or trimmed), and only by the
    actions [asktranscript] and [cleartranscriptconversation].  The action
    of a request is its [action] parameter in lower case, as [toLowerCase]
    of the runtime gives it. *)
Theorem sessions_are_isolated (w : world) (e : env) (rq : query) (st : stores) :
  let st' := (run e (api w rq st)).2 in
  (forall s, s ≠ session_of rq -> conversations st' !! s = conversations st !! s)
  /\ (forall s, s ≠ transcript_session_of rq ->
        s ≠ cleared_transcript_session_of rq ->
        transcriptConversations st' !! s = transcriptConversations st !! s)
  /\ (action_of rq ≠ lit "ask" -> action_of rq ≠ lit "clearconversation" ->
      conversations st' = conversations st)
  /\ (action_of rq ≠ lit "asktranscript" ->
      action_of rq ≠ lit "cleartranscriptconversation" ->
      transcriptConversations st' = transcriptConversations st).
Proof.
  unfold api. fold (action_of rq). fold (session_of rq).
  fold (cleared_transcript_session_of rq).
  repeat case_decide.
  - destruct (findTranscripts w rq); by repeat split.
  - rewrite run_bind.
    destruct (askTranscript_frame e rq st) as [Hc Ht].
    destruct (run e (askTranscript rq st)) as [[r|err] st']; cbn [run snd] in *;
      (repeat split; [by rewrite Hc | by intros s Hs _; apply Ht | done | done]).
  - cbn [run]. destruct (on_add_note e rq); by repeat split.
  - cbn [run]. destruct (on_fetch e _); by repeat split.
  - cbn [run snd conversations transcriptConversations]. unfold clearConversation.
    repeat split; try done. intros s Hs. by rewrite lookup_delete_ne.
  - cbn [run snd conversations transcriptConversations].
    unfold clearTranscriptConversation.
    repeat split; try done. intros s _ Hs. by rewrite lookup_delete_ne.
  - rewrite run_bind.
    destruct (ask_frame e rq st) as [Ht Hc].
    destruct (run e (ask rq st)) as [[r|err] st']; cbn [run snd] in *;
      (repeat split; [by apply Hc | by rewrite Ht | done | by rewrite Ht]).
  - by repeat split.
Qed.

(** X9: [clearconversation] removes the session that [ask] uses for the
    same [sessionId] parameter.  [cleartranscriptconversation] removes the
    session named by the parameter as it is given, whereas [asktranscript]
    trims the parameter: when the two differ, that is when white space
    surrounds the id, the conversation [asktranscript] keeps for that
    parameter is left in place. *)
Theorem clear_names_the_session_as_given (w : world) (e : env) (rq : query)
    (st : stores) :
  let st' := (run e (api w rq st)).2 in
  (action_of rq = lit "clearconversation" ->
     conversations st' !! session_of rq = None)
  /\ (action_of rq = lit "cleartranscriptconversation" ->
        transcriptConversations st' !! cleared_transcript_session_of rq = None
        /\ (transcript_session_of rq ≠ cleared_transcript_session_of rq ->
            transcriptConversations st' !! transcript_session_of rq
            = transcriptConversations st !! transcript_session_of rq)).
Proof.
  unfold api. fold (action_of rq). fold (session_of rq).
  fold (cleared_transcript_session_of rq).
  split; intros Ha; rewrite Ha; repeat (case_decide; [discriminate|]).
  - rewrite decide_True by done. cbn [run snd conversations].
    apply lookup_delete_eq.
  - rewrite decide_True by done. cbn [run snd transcriptConversations].
    unfold clearTranscriptConversation. split; [apply lookup_delete_eq|].
    intros Hne. by rewrite lookup_delete_ne.
Qed.

(** ** Requests that fail *)

Lemma getConversation_existing (sessionId : jsstring) (st : stores) :
  stored_history st sessionId ≠ [] ->
  exists c, conversations st !! sessionId = Some c
            /\ getConversation sessionId (conversations st) = (c, conversations st).
Proof.
  unfold stored_history, getConversation.
  destruct (conversations st !! sessionId) as [c|]; [|done].
  intros _. by exists c.
Qed.

(** X10: an [ask] request that fails.  When the data-store query throws, the
    language model is not called and every session keeps its history and its
    fingerprint.  When the model call of a follow-up throws, the stores are
    exactly what they were, so the follow-up can be asked again.  In both
    cases the response is [{ ok: false, error: String(err) }]. *)
Theorem ask_failure_keeps_conversation (w : world) (e : env) (rq : query)
    (st : stores) (err : exn) :
  let sid := session_of rq in
  let p := ask_params rq in
  let follow := followUpPrompt (p_question p) in
  action_of rq = lit "ask" ->
  (on_fetch e p = Throw err ->
     (run e (api w rq st)).1 = RFailure (String_of_exn err)
     /\ calls e (ask rq st) = [CFetch p]
     /\ forall s, stored_history (run e (api w rq st)).2 s = stored_history st s
                  /\ stored_context (run e (api w rq st)).2 s = stored_context st s)
  /\ (forall f, on_fetch e p = Ok f ->
        stored_context st sid = Some (filtersKey_of p) ->
        stored_history st sid ≠ [] ->
        on_gemini e MODEL_SYNTH follow (stored_history st sid) = Throw err ->
        run e (api w rq st) = (RFailure (String_of_exn err), st)).
Proof.
  intros sid p follow Ha. subst p follow.
  assert (Hapi : run e (api w rq st)
                 = let '(r, st') := run e (ask rq st) in
                   match r with
                   | Ok r => (RAsk r, st')
                   | Throw e => (caught e, st')
                   end).
  { unfold api. fold (action_of rq). rewrite Ha.
    repeat (case_decide; [discriminate|]). rewrite decide_True by done.
    rewrite run_bind. by destruct (run e (ask rq st)) as [[r|err'] st']. }
  rewrite Hapi. clear Hapi. split.
  - intros Hf. unfold ask.
    change (or_default (q_sessionId rq) (lit "default")) with sid.
    unfold getConversation, stored_history, stored_context.
    destruct (conversations st !! sid) as [c|] eqn:E; cbn [run calls];
      rewrite Hf; cbn [run calls fst snd conversations].
    + repeat split.
    + repeat split; destruct (decide (s = sid)) as [->|Hs];
        rewrite ?lookup_insert_eq, ?lookup_insert_ne by done;
        rewrite ?E; reflexivity.
  - intros f Hf Hctx Hhist Hg.
    destruct (getConversation_existing sid st Hhist) as (c & Hc & Hget).
    unfold ask. change (or_default (q_sessionId rq) (lit "default")) with sid.
    rewrite Hget. cbn [run]. rewrite Hf.
    unfold needsNewContext_of.
    assert (Hh : history c = stored_history st sid)
      by (unfold stored_history; by rewrite Hc).
    assert (Hk : context c = Some (filtersKey_of (ask_params rq))).
    { unfold stored_context in Hctx. by rewrite Hc in Hctx. }
    rewrite bool_decide_eq_true_2 by exact Hk.
    rewrite bool_decide_eq_false_2
      by (rewrite Hh; intros Hl; apply Hhist; by apply length_zero_iff_nil).
    cbn [negb orb run]. rewrite Hh, Hg. cbn [run].
    unfold caught, set_conversation. cbn [conversations transcriptConversations].
    rewrite insert_id by exact Hc. by rewrite stores_eta.
Qed.

(** ** The conversation of [askTranscript] *)

Lemma stored_after_set_transcript (sessionId : jsstring)
    (c : transcript_conversation) (st : stores) :
  stored_transcript_history (set_transcript_conversation sessionId c st) sessionId
  = t_history c
  /\ stored_transcriptId (set_transcript_conversation sessionId c st) sessionId
     = transcriptId c.
Proof.
  unfold stored_transcript_history, stored_transcriptId,
    set_transcript_conversation; simpl.
  by rewrite lookup_insert_eq.
Qed.

(** X11: one [asktranscript] call whose transcript is read and is not
    blank.  When the session holds another transcript id (or none), the
    language model is called with the full prompt, which carries the question
    and the text, and an empty history; its answer makes the first exchange
    of the session, which now holds the id.  When the session holds this id
    and a history, the model is called with the follow-up template, built
    from the question alone, on top of the stored history.  The full prompt
    opens with the instruction to answer about a transcript and ends with
    the question, the tail of the transcript between two lines of three
    quotes and the reminder; the tail is the transcript without its carriage
    returns, cut to its last [MAX_TRANSCRIPT_CHARS] characters.  The
    follow-up template is a fixed text around the question. *)
Theorem askTranscript_context (e : env) (p : query) (st : stores)
    (raw : jsstring) :
  let id := trim (or_default (q_id p) []) in
  let q := trim (or_default (q_question p) []) in
  let sid := transcript_session_of p in
  let full := transcriptPrompt q (truncate_transcript (strip_cr raw)) in
  let follow := transcriptFollowUpPrompt q in
  id ≠ [] -> q ≠ [] -> read_outcome e id = Ok raw -> trim raw ≠ [] ->
  (stored_transcriptId st sid ≠ Some id ->
     calls e (askTranscript p st) = [read_call id; CGemini MODEL_SYNTH full []]
     /\ forall answer, on_gemini e MODEL_SYNTH full [] = Ok answer ->
          exists len st',
            run e (askTranscript p st) = (Ok (TranscriptAnswer answer len true), st')
            /\ len == 1
            /\ stored_transcript_history st' sid
               = [Turn User full; Turn Model answer]
            /\ stored_transcriptId st' sid = Some id)
  /\ (stored_transcriptId st sid = Some id ->
      stored_transcript_history st sid ≠ [] ->
      calls e (askTranscript p st)
      = [read_call id; CGemini MODEL_SYNTH follow (stored_transcript_history st sid)]
      /\ forall answer,
           on_gemini e MODEL_SYNTH follow (stored_transcript_history st sid)
           = Ok answer ->
           exists len st',
             run e (askTranscript p st)
             = (Ok (TranscriptAnswer answer len false), st')
             /\ stored_transcript_history st' sid
                = push_turns (stored_transcript_history st sid) follow answer
             /\ stored_transcriptId st' sid = Some id)
  /\ (exists text,
        tail_of_transcript raw text
        /\ (forall text', tail_of_transcript raw text' -> text' = text)
        /\ holds_transcript full q text)
  /\ follow
     = lit "Follow-up question about the same transcript:" ++ NL ++ NL ++ q
       ++ NL ++ NL
       ++ lit "Remember: Return clean HTML with bullets and bold formatting. Make it easy to scan.".
Proof.
  intros id q sid full follow Hid Hq Hread Hraw.
  assert (Hfull : exists text,
             tail_of_transcript raw text
             /\ (forall text', tail_of_transcript raw text' -> text' = text)
             /\ holds_transcript full q text).
  { exists (truncate_transcript (strip_cr raw)).
    split; [apply truncate_transcript_tail|].
    split; [apply tail_of_transcript_unique|].
    apply transcriptPrompt_holds_transcript. }
  assert (Hfollow : follow
     = lit "Follow-up question about the same transcript:" ++ NL ++ NL ++ q
       ++ NL ++ NL
       ++ lit "Remember: Return clean HTML with bullets and bold formatting. Make it easy to scan.")
    by reflexivity.
  destruct (getTranscriptConversation_stored sid st) as (Hh & Hi & _ & _).
  unfold askTranscript. fold id. fold q.
  change (trim (or_default (q_sessionId p) (lit "tr_default"))) with sid.
  rewrite !bool_decide_eq_false_2 by done.
  destruct (getTranscriptConversation sid (transcriptConversations st))
    as [conv ts] eqn:Eget.
  simpl in Hh, Hi. rewrite run_read_transcript, calls_read_transcript, Hread.
  rewrite bool_decide_eq_false_2 by done. rewrite Hh, Hi. fold full. fold follow.
  split; [|split; [|split; [exact Hfull | exact Hfollow]]].
  - intros Hne. rewrite bool_decide_eq_false_2 by exact Hne.
    cbn [negb orb t_history transcriptId run calls].
    split; [by destruct (on_gemini e MODEL_SYNTH full [])|].
    intros answer Hg. rewrite Hg. cbn [run].
    eexists _, _. split; [reflexivity|].
    split; [by apply half_length_one|].
    split; apply stored_after_set_transcript.
  - intros Heq Hnil. rewrite bool_decide_eq_true_2 by exact Heq.
    rewrite bool_decide_eq_false_2
      by (intros Hl; apply Hnil; by apply length_zero_iff_nil).
    cbn [negb orb run calls]. rewrite Hh.
    split; [by destruct (on_gemini e MODEL_SYNTH follow _)|].
    intros answer Hg. rewrite Hg. cbn [run].
    rewrite bool_decide_eq_false_2.
    2:{ rewrite push_turns_length. intros Hl.
        assert (length (stored_transcript_history st sid) ≠ 0%nat)
          by (intros Hz; apply Hnil; by apply length_zero_iff_nil).
        lia. }
    eexists _, _. split; [reflexivity|]. split.
    + etransitivity; [apply stored_after_set_transcript|]. reflexivity.
    + etransitivity; [apply stored_after_set_transcript|]. simpl. by rewrite Hi.
Qed.

(** ** The window of twenty exchanges *)

(** X12: a follow-up of [ask] on a session that holds twenty exchanges,
    answered by the language model: the new exchange is appended and the
    oldest one, the first two turns, is dropped; the response reports a
    conversation length of 20. *)
Theorem ask_followup_drops_oldest_exchange (e : env) (rq : query) (st : stores)
    (f : fetched) (answer : jsstring) :
  let sid := session_of rq in
  let p := ask_params rq in
  let follow := followUpPrompt (p_question p) in
  on_fetch e p = Ok f ->
  stored_context st sid = Some (filtersKey_of p) ->
  length (stored_history st sid) = 40%nat ->
  on_gemini e MODEL_SYNTH follow (stored_history st sid) = Ok answer ->
  exists reply st',
    run e (ask rq st) = (Ok reply, st')
    /\ stored_history st' sid
       = drop 2 (stored_history st sid) ++ [Turn User follow; Turn Model answer]
    /\ a_conversationLength reply == 20
    /\ a_isNewConversation reply = false.
Proof.
  intros sid p follow Hf Hctx Hlen Hg. subst p follow.
  assert (Hhist : stored_history st sid ≠ []).
  { intros Hnil. by rewrite Hnil in Hlen. }
  destruct (getConversation_existing sid st Hhist) as (c & Hc & Hget).
  unfold ask. change (or_default (q_sessionId rq) (lit "default")) with sid.
  rewrite Hget. cbn [run]. rewrite Hf.
  unfold needsNewContext_of.
  assert (Hh : history c = stored_history st sid)
    by (unfold stored_history; by rewrite Hc).
  assert (Hk : context c = Some (filtersKey_of (ask_params rq))).
  { unfold stored_context in Hctx. by rewrite Hc in Hctx. }
  rewrite bool_decide_eq_true_2 by exact Hk.
  rewrite bool_decide_eq_false_2 by (rewrite Hh, Hlen; discriminate).
  cbn [negb orb run]. rewrite Hh, Hg. cbn [run].
  eexists _, _. split; [reflexivity|].
  cbn [a_conversationLength a_isNewConversation history].
  assert (Hpush : forall prompt,
    push_turns (stored_history st sid) prompt answer
    = drop 2 (stored_history st sid) ++ [Turn User prompt; Turn Model answer]).
  { intros prompt. unfold push_turns, MAX_CONVERSATION_HISTORY.
    rewrite length_app, Hlen. simpl length.
    change (20 * 2 <? 40 + 2)%nat with true. cbn match.
    change (40 + 2 - 20 * 2)%nat with 2%nat.
    rewrite drop_app_le by lia. reflexivity. }
  split; [|split].
  - etransitivity; [apply stored_after_set|]. simpl. apply Hpush.
  - unfold half_length, Qeq. rewrite push_turns_length, Hlen. simpl. lia.
  - reflexivity.
Qed.

(** ** The text of the transcript that is sent *)

(** X13: the transcript text of the first prompt is the text read without
    its carriage returns, cut down to its last [MAX_TRANSCRIPT_CHARS]
    characters: what is dropped is the beginning. *)
Theorem transcript_tail_is_sent (raw : jsstring) :
  let text := strip_cr raw in
  let sent := truncate_transcript text in
  (13%N ∉ sent)
  /\ length sent = Nat.min (length text) MAX_TRANSCRIPT_CHARS
  /\ (exists dropped, text = dropped ++ sent)
  /\ ((length text <= MAX_TRANSCRIPT_CHARS)%nat -> sent = text).
Proof.
  intros text sent. subst sent. unfold truncate_transcript.
  assert (Hcr : 13%N ∉ text).
  { subst text. unfold strip_cr. intros Hin.
    apply list_elem_of_filter in Hin as [Hne _]. by apply Hne. }
  destruct (MAX_TRANSCRIPT_CHARS <? length text)%nat eqn:E.
  - apply Nat.ltb_lt in E. repeat split.
    + intros Hin. apply Hcr. apply list_elem_of_lookup_1 in Hin as [i Hi].
      rewrite lookup_drop in Hi. by eapply list_elem_of_lookup_2.
    + rewrite length_drop. lia.
    + exists (take (length text - MAX_TRANSCRIPT_CHARS) text).
      by rewrite take_drop.
    + lia.
  - apply Nat.ltb_ge in E. repeat split; [done | lia | by exists [] ].
Qed.

(** ** Password protection *)

Lemma split_at_none (sep : N) (a : jsstring) :
  sep ∉ a -> split_at sep a = [a].
Proof.
  induction a as [|c a IH]; intros Hn; simpl; [done|].
  apply not_elem_of_cons in Hn as [Hc Ha].
  rewrite (proj2 (N.eqb_neq c sep)) by congruence.
  by rewrite IH.
Qed.

Lemma split_at_app (sep : N) (a t : jsstring) :
  sep ∉ a -> split_at sep (a ++ sep :: t) = a :: split_at sep t.
Proof.
  induction a as [|c a IH]; intros Hn; simpl.
  - by rewrite N.eqb_refl.
  - apply not_elem_of_cons in Hn as [Hc Ha].
    rewrite (proj2 (N.eqb_neq c sep)) by congruence.
    by rewrite IH.
Qed.

(** A string is a piece without the separator, alone or followed by the
    separator and the rest. *)
Lemma split_at_decompose (sep : N) (s : jsstring) :
  exists a, (sep ∉ a) /\ (s = a \/ exists t, s = a ++ sep :: t).
Proof.
  induction s as [|c s (a & Ha & IH)].
  - exists []. split; [apply not_elem_of_nil | by left].
  - destruct (N.eq_dec c sep) as [->|Hc].
    + exists []. split; [apply not_elem_of_nil | right; by exists s].
    + exists (c :: a). split; [apply not_elem_of_cons; split; [congruence|done]|].
      destruct IH as [->|[t ->]]; [by left | right; by exists t].
Qed.

Lemma first_piece_unique (sep : N) (a a' t t' : jsstring) :
  sep ∉ a -> sep ∉ a' ->
  (t = [] \/ exists r, t = sep :: r) -> (t' = [] \/ exists r, t' = sep :: r) ->
  a ++ t = a' ++ t' -> a = a' /\ t = t'.
Proof.
  revert a'. induction a as [|c a IH]; intros a' Ha Ha' Ht Ht' E.
  - destruct a' as [|c' a']; [done|]. simpl in E.
    destruct Ht as [->|[r ->]]; [discriminate E|].
    injection E as <- _. exfalso. apply Ha'. by left.
  - destruct a' as [|c' a']; simpl in E.
    + destruct Ht' as [->|[r ->]]; [discriminate E|].
      injection E as -> _. exfalso. apply Ha. by left.
    + injection E as <- E.
      apply not_elem_of_cons in Ha as [_ Ha].
      apply not_elem_of_cons in Ha' as [_ Ha'].
      destruct (IH a' Ha Ha' Ht Ht' E) as [-> ->]. done.
Qed.

(** The second element of [s.split(sep)]. *)
Lemma split_at_second (sep : N) (s x : jsstring) :
  split_at sep s !! 1%nat = Some x <-> second_field sep s x.
Proof.
  split.
  - intros H. destruct (split_at_decompose sep s) as (a & Ha & [->|[t ->]]).
    + by rewrite split_at_none in H.
    + rewrite split_at_app in H by done. cbn [lookup list_lookup] in H.
      destruct (split_at_decompose sep t) as (b & Hb & [->|[u ->]]).
      * rewrite split_at_none in H by done. injection H as <-.
        exists a, []. rewrite app_nil_r. repeat split; [done | done | by left].
      * rewrite split_at_app in H by done. injection H as <-.
        exists a, (sep :: u). repeat split; [done | done | right; by exists u].
  - intros (a & rest & -> & Ha & Hx & Hrest). cbn [app].
    rewrite split_at_app by done. cbn [lookup list_lookup].
    destruct Hrest as [->|[r ->]].
    + by rewrite app_nil_r, split_at_none.
    + by rewrite split_at_app.
Qed.

(** X14: with a password configured, the request passes exactly when its
    [Authorization] header starts with [Basic ] and the token after the first
    space decodes to [user:password], possibly followed by a colon and more.
    The user name plays no part, and the middleware answers every request:
    it never throws. *)
Theorem password_protection_accepts (decode : jsstring -> jsstring)
    (password : jsstring) (auth : option jsstring) :
  password ≠ [] ->
  (middleware decode (Some password) auth = Next
   <-> exists header, auth = Some header
                      /\ basic_credentials decode password header)
  /\ middleware decode (Some password) auth ≠ AuthThrows.
Proof.
  intros Hpw. unfold middleware.
  destruct password as [|p0 pw]; [done|].
  destruct auth as [[|a0 a]|].
  - split; [|done]. split; [done|].
    intros (h & [= <-] & tok & (f & r & E & _) & _). by destruct f.
  - destruct (startsWith (lit "Basic ") (a0 :: a)) eqn:Es; cbn [negb].
    + destruct (split_at 32 (a0 :: a) !! 1%nat) as [tok|] eqn:Et.
      * case_bool_decide as Hu; (split; [|done]).
        -- split; [done|]. intros (h & [= <-] & tok' & Ht & _ & Hc).
           apply split_at_second in Ht. rewrite Et in Ht. injection Ht as <-.
           apply split_at_second in Hc. by rewrite Hc in Hu.
        -- split; [|done]. intros _. exists (a0 :: a). split; [done|].
           exists tok. split; [by apply split_at_second|]. split; [done|].
           by apply split_at_second.
      * exfalso. apply startsWith_spec in Es as [post Es]. rewrite Es in Et.
        change (lit "Basic " ++ post) with (lit "Basic" ++ 32%N :: post) in Et.
        rewrite split_at_app in Et.
        -- cbn [lookup list_lookup] in Et.
           destruct (split_at_decompose 32 post) as (b & Hb & [->|[u ->]]).
           ++ by rewrite split_at_none in Et.
           ++ by rewrite split_at_app in Et.
        -- vm_compute. intros H. repeat (apply elem_of_cons in H as [H|H]; [discriminate H|]).
           by apply elem_of_nil in H.
    + split; [|done]. split; [done|].
      intros (h & [= <-] & tok & _ & Hs & _). congruence.
  - split; [|done]. split; [done|]. by intros (h & Hx & _).
Qed.

(** X15: a password that holds a colon admits no request: what is compared
    with it is the text between the first and the second colon of the
    decoded credentials. *)
Theorem password_with_colon_admits_nobody (decode : jsstring -> jsstring)
    (password : jsstring) (auth : option jsstring) :
  58%N ∈ password ->
  middleware decode (Some password) auth ≠ Next.
Proof.
  intros Hin. unfold middleware.
  destruct password as [|p0 pw]; [by apply elem_of_nil in Hin|].
  destruct auth as [[|a0 a]|]; try done.
  destruct (negb _); [done|].
  destruct (split_at 32 (a0 :: a) !! 1%nat) as [tok|]; [|done].
  case_bool_decide as Hu; [done|]. exfalso.
  apply split_at_second in Hu as (f & r & _ & _ & Hx & _). by apply Hx.
Qed.

(** ** The fingerprint of the filters *)

Lemma hex_val_digit (n : N) : (n < 16)%N -> hex_val (hex_digit n) = Some n.
Proof.
  intros Hn. unfold hex_val, hex_digit, is_digit.
  destruct (N.ltb_spec n 10).
  - rewrite (proj2 (N.leb_le 48 (48 + n))), (proj2 (N.leb_le (48 + n) 57)) by lia.
    simpl. f_equal. lia.
  - destruct (N.leb_spec (87 + n) 57); [lia|]. rewrite andb_false_r.
    rewrite (proj2 (N.leb_le 97 (87 + n))), (proj2 (N.leb_le (87 + n) 102)) by lia.
    simpl. f_equal. lia.
Qed.

Lemma unquote_unicode_escape (c : N) (s : jsstring) :
  (c < 65536)%N ->
  unquote_units (unicode_escape c ++ s)
  = match unquote_units s with
    | Some (t, rest) => Some (c :: t, rest)
    | None => None
    end.
Proof.
  intros Hc. unfold unicode_escape. cbn [lit list_ascii_of_string map app].
  change (N_of_ascii "\") with 92%N. change (N_of_ascii "u") with 117%N.
  cbn [unquote_units N.eqb Pos.eqb]. unfold hex4.
  assert (Hsplit : c = (4096 * (c / 4096) + 256 * ((c / 256) mod 16)
                        + 16 * ((c / 16) mod 16) + c mod 16)%N
                   /\ (c / 4096 < 16)%N).
  { replace (c / 4096)%N with (c / 16 / 16 / 16)%N
      by (rewrite !N.Div0.div_div; reflexivity).
    replace (c / 256)%N with (c / 16 / 16)%N
      by (rewrite !N.Div0.div_div; reflexivity).
    pose proof (N.Div0.div_mod c 16).
    pose proof (N.Div0.div_mod (c / 16) 16).
    pose proof (N.Div0.div_mod (c / 16 / 16) 16).
    assert (c / 16 / 16 / 16 < 16)%N.
    { rewrite !N.Div0.div_div. apply N.Div0.div_lt_upper_bound. simpl. lia. }
    assert ((c / 16 / 16 / 16) mod 16 = c / 16 / 16 / 16)%N
      by (apply N.mod_small; lia).
    split; [nia | assumption]. }
  destruct Hsplit as [Hsplit Ha].
  assert (Hb : ((c / 256) mod 16 < 16)%N) by (apply N.mod_lt; lia).
  assert (Hd : ((c / 16) mod 16 < 16)%N) by (apply N.mod_lt; lia).
  assert (He : (c mod 16 < 16)%N) by (apply N.mod_lt; lia).
  rewrite !hex_val_digit by assumption.
  by rewrite <- Hsplit.
Qed.

Lemma surrogate_not_special (c : N) :
  is_high_surrogate c = true \/ is_low_surrogate c = true ->
  (c =? 34)%N = false /\ (c =? 92)%N = false /\ (c < 65536)%N.
Proof.
  unfold is_high_surrogate, is_low_surrogate.
  rewrite !andb_true_iff, !N.leb_le. intros H.
  repeat split; try (apply N.eqb_neq); lia.
Qed.

Lemma unquote_quote_unit (c : N) (s : jsstring) :
  unquote_units (quote_unit c ++ s)
  = match unquote_units s with
    | Some (t, rest) => Some (c :: t, rest)
    | None => None
    end.
Proof.
  unfold quote_unit.
  destruct (N.eqb_spec c 8) as [->|?]; [reflexivity|].
  destruct (N.eqb_spec c 9) as [->|?]; [reflexivity|].
  destruct (N.eqb_spec c 10) as [->|?]; [reflexivity|].
  destruct (N.eqb_spec c 12) as [->|?]; [reflexivity|].
  destruct (N.eqb_spec c 13) as [->|?]; [reflexivity|].
  destruct (N.eqb_spec c 34) as [->|?]; [reflexivity|].
  destruct (N.eqb_spec c 92) as [->|?]; [reflexivity|].
  destruct ((c <? 32)%N || is_high_surrogate c || is_low_surrogate c) eqn:E.
  - apply unquote_unicode_escape.
    apply orb_true_iff in E as [E|E]; [apply orb_true_iff in E as [E|E]|].
    + apply N.ltb_lt in E. lia.
    + apply surrogate_not_special. by left.
    + apply surrogate_not_special. by right.
  - cbn [app unquote_units].
    rewrite (proj2 (N.eqb_neq c 34)), (proj2 (N.eqb_neq c 92)) by done.
    reflexivity.
Qed.

(** Reading back what [JSON.stringify] writes for a string gives the string
    and what follows the closing quote. *)
Lemma unquote_quote_units (s rest : jsstring) :
  unquote_units (quote_units s ++ 34%N :: rest) = Some (s, rest).
Proof.
  remember (length s) as n eqn:Hn. revert s Hn.
  induction n as [n IH] using lt_wf_ind. intros s Hn.
  destruct s as [|c s]; [reflexivity|]. cbn [quote_units].
  destruct (is_high_surrogate c) eqn:Eh.
  - destruct (surrogate_not_special c (or_introl Eh)) as (H34 & H92 & Hlt).
    destruct s as [|d s].
    + rewrite unquote_unicode_escape by done. reflexivity.
    + destruct (is_low_surrogate d) eqn:El.
      * destruct (surrogate_not_special d (or_intror El)) as (H34' & H92' & _).
        cbn [app unquote_units]. rewrite H34, H92, H34', H92'.
        rewrite (IH (length s)) by (subst n; simpl; lia || reflexivity).
        reflexivity.
      * rewrite <- app_assoc, unquote_unicode_escape by done.
        rewrite (IH (length (d :: s))) by (subst n; simpl; lia || reflexivity).
        reflexivity.
  - rewrite <- app_assoc, unquote_quote_unit.
    rewrite (IH (length s)) by (subst n; simpl; lia || reflexivity).
    reflexivity.
Qed.

Lemma JSON_string_inj (a b r r' : jsstring) :
  JSON_string a ++ r = JSON_string b ++ r' -> a = b /\ r = r'.
Proof.
  unfold JSON_string. rewrite <- !app_assoc. cbn [app]. intros [= E].
  apply (f_equal unquote_units) in E.
  rewrite !unquote_quote_units in E. by injection E.
Qed.

(** X16: the fingerprint of the filters tells the filters apart: two
    requests have the same fingerprint exactly when their [from], [to],
    [type], [countries] and [topic] are the same strings. *)
Theorem filtersKey_tells_filters_apart (p p' : params) :
  filtersKey_of p = filtersKey_of p'
  <-> p_from p = p_from p' /\ p_to p = p_to p' /\ p_type p = p_type p'
      /\ p_countries p = p_countries p' /\ p_topic p = p_topic p'.
Proof.
  split.
  - unfold filtersKey_of. intros E.
    repeat (apply app_inv_head in E).
    apply JSON_string_inj in E as [E1 E].
    repeat (apply app_inv_head in E).
    apply JSON_string_inj in E as [E2 E].
    repeat (apply app_inv_head in E).
    apply JSON_string_inj in E as [E3 E].
    repeat (apply app_inv_head in E).
    apply JSON_string_inj in E as [E4 E].
    repeat (apply app_inv_head in E).
    apply JSON_string_inj in E as [E5 E].
    done.
  - intros (E1 & E2 & E3 & E4 & E5). unfold filtersKey_of. congruence.
Qed.

(** ** What the local search returns *)

Lemma scanFile_local_entries (pj : jsstring -> jsstring -> jsstring)
    (c : scan_config) (folderPath item : jsstring) (mtime : Z)
    (content : result jsstring) (st : scan_state) :
  Forall (local_entry pj c) (results st) ->
  Forall (local_entry pj c)
    (results (scanFile c (pj folderPath item) item mtime content st)).
Proof.
  intros H. unfold scanFile.
  destruct (hasAllowedTranscriptExt item) eqn:Eext; [|exact H]. cbn [negb].
  destruct (before_from _ _) eqn:Ef; [exact H|].
  destruct (at_or_after_to _ _) eqn:Et; [exact H|].
  destruct (keyword_check _ _ _ _) as [[hit pv] checks'].
  destruct hit; [|exact H]. cbn [results].
  apply Forall_app. split; [exact H|]. constructor; [|constructor].
  repeat split; cbn [name id mimeType link modified]; try done.
  - by exists folderPath.
  - eexists. split; [reflexivity|]. by split.
Qed.

Lemma scan_local_entries (pj : jsstring -> jsstring -> jsstring)
    (c : scan_config) :
  (forall nd folderPath depth item st st',
      Forall (local_entry pj c) (results st) ->
      scanEntry pj c folderPath depth item nd st = Ok st' ->
      Forall (local_entry pj c) (results st'))
  /\ (forall items folderPath depth st st',
        Forall (local_entry pj c) (results st) ->
        scanItems pj c folderPath depth items st = Ok st' ->
        Forall (local_entry pj c) (results st')).
Proof.
  apply node_entries_ind.
  - intros mtime content folderPath depth item st st' H [= <-].
    by apply scanFile_local_entries.
  - intros items IH folderPath depth item st st' H. rewrite scanEntry_Dir.
    destruct ((3 <? S depth)%nat || limit_reached c st);
      [by intros [= <-] | by apply IH].
  - intros e folderPath depth item st st' H. simpl.
    destruct ((3 <? S depth)%nat || limit_reached c st);
      [by intros [= <-] | intros Hx; discriminate Hx].
  - intros e folderPath depth item st st' H Hx. discriminate Hx.
  - intros folderPath depth st st' H [= <-]. exact H.
  - intros item nd IHn rest IHr folderPath depth st st' H.
    rewrite scanItems_ECons.
    destruct (limit_reached c st); [by intros [= <-]|].
    destruct (scanEntry pj c folderPath depth item nd st) as [st1|e] eqn:Es;
      [|intros Hx; discriminate Hx].
    apply IHr. by apply (IHn _ _ _ _ _ H Es).
Qed.

Lemma slice_0_subset {A : Type} (x : jsnum) (l : list A) (a : A) :
  a ∈ slice_0 x l -> a ∈ l.
Proof.
  unfold slice_0. destruct x as [| | |q]; try done;
    try (intros H; by apply elem_of_nil in H).
  destruct (_ <? 0); intros H; by apply (subseteq_take _ _ _ H).
Qed.

(** X17: every entry the local search returns is a file with a transcript
    extension ([.txt], [.vtt] or [.srt], in any case); its id is the path of
    the file, its link the [file://] link of that path, and its [modified]
    is the ISO form of a timestamp that passes the date tests of the
    query. *)
Theorem local_results_are_transcripts_in_window (w : world) (p : query)
    (rs : list transcript_file) :
  findTranscriptsLocal w p = Ok (SearchResults rs) ->
  Forall (local_entry (path_join w) (config_of p)) rs.
Proof.
  unfold findTranscriptsLocal.
  destruct (local_root w) as [listing|]; [|discriminate].
  destruct (scanFolder _ _ _ _ _ _) as [st|e] eqn:Es; [|discriminate].
  unfold finish. intros [= <-].
  assert (Hst : Forall (local_entry (path_join w) (config_of p)) (results st)).
  { unfold scanFolder in Es.
    destruct ((3 <? 0)%nat || limit_reached (config_of p) initial_scan_state).
    - injection Es as <-. constructor.
    - destruct listing as [items|e]; [|discriminate Es].
      apply (proj2 (scan_local_entries (path_join w) (config_of p))) in Es;
        [exact Es | constructor]. }
  apply Forall_forall. intros r Hr. apply slice_0_subset in Hr.
  rewrite <- (sort_perm by_modified_desc (results st)) in Hr.
  by apply (proj1 (Forall_forall _ _) Hst).
Qed.

(** ** The depth of the scan *)

Lemma scan_prune (pj : jsstring -> jsstring -> jsstring) (c : scan_config) :
  (forall nd folderPath depth item st,
      scanEntry pj c folderPath depth item (prune (3 - depth) nd) st
      = scanEntry pj c folderPath depth item nd st)
  /\ (forall items folderPath depth st,
        scanItems pj c folderPath depth (prune_entries (3 - depth) items) st
        = scanItems pj c folderPath depth items st).
Proof.
  apply node_entries_ind.
  - reflexivity.
  - intros items IH folderPath depth item st.
    destruct (3 - depth)%nat as [|k] eqn:Ek; cbn [prune]; rewrite !scanEntry_Dir.
    + assert ((3 <? S depth)%nat = true) as -> by (apply Nat.ltb_lt; lia).
      reflexivity.
    + destruct ((3 <? S depth)%nat || limit_reached c st); [reflexivity|].
      replace k with (3 - S depth)%nat by lia. apply IH.
  - intros e folderPath depth item st.
    destruct (3 - depth)%nat as [|k] eqn:Ek; cbn [prune]; [|reflexivity].
    rewrite scanEntry_Dir. simpl.
    assert ((3 <? S depth)%nat = true) as -> by (apply Nat.ltb_lt; lia).
    reflexivity.
  - reflexivity.
  - reflexivity.
  - intros item nd IHn rest IHr folderPath depth st. cbn [prune_entries].
    rewrite !scanItems_ECons, IHn.
    destruct (limit_reached c st); [reflexivity|].
    destruct (scanEntry pj c folderPath depth item nd st); [apply IHr|reflexivity].
Qed.

(** ** The list of keywords *)

Lemma is_sep_space (c : N) : is_space c = true -> is_sep c = true.
Proof. unfold is_sep. intros ->. apply orb_true_r. Qed.

Lemma trimStart_no_space (s : jsstring) :
  Forall (fun c => is_space c = false) s -> trimStart s = s.
Proof. destruct 1 as [|c s Hc _]; simpl; [done|]. by rewrite Hc. Qed.

Lemma trim_no_space (s : jsstring) :
  Forall (fun c => is_space c = false) s -> trim s = s.
Proof.
  intros H. unfold trim, trimEnd. rewrite (trimStart_no_space s H).
  rewrite trimStart_no_space; [apply rev_involutive|].
  apply Forall_forall. intros c Hc. apply (proj1 (elem_of_rev _ _)) in Hc.
  by apply (proj1 (Forall_forall _ _) H).
Qed.

(** The pieces of [split]: the first one continues [cur]; none of them
    holds a separator. *)
Lemma split_go_no_sep (s : jsstring) (in_sep : bool) (cur : jsstring) :
  Forall (fun c => is_sep c = false) cur ->
  Forall (Forall (fun c => is_sep c = false)) (split_go in_sep cur s).
Proof.
  revert in_sep cur. induction s as [|c s IH]; intros in_sep cur Hcur; simpl.
  - by constructor.
  - destruct (is_sep c) eqn:Ec.
    + destruct in_sep; [by apply IH|]. constructor; [done|]. by apply IH.
    + apply IH. apply Forall_app. split; [done|]. by constructor.
Qed.

Lemma no_sep_no_space (w : jsstring) :
  Forall (fun c => is_sep c = false) w -> Forall (fun c => is_space c = false) w.
Proof.
  intros H. eapply Forall_impl; [exact H|].
  intros c Hc. destruct (is_space c) eqn:E; [|done].
  apply is_sep_space in E. congruence.
Qed.

(** The words of a keywords parameter: its pieces that are not empty. *)
Lemma keywords_of_pieces (keywords : option jsstring) :
  keywords_of keywords
  = map toLowerCase
      (filter (fun s => nonempty s = true) (split_seps (or_default keywords []))).
Proof.
  unfold keywords_of. f_equal. f_equal.
  pose proof (split_go_no_sep (or_default keywords []) false [] (Forall_nil_2 _)) as H.
  unfold split_seps. induction H as [|w ws Hw _ IH]; simpl; [done|].
  by rewrite IH, (trim_no_space w (no_sep_no_space w Hw)).
Qed.

Lemma split_go_all_empty (s : jsstring) (in_sep : bool) (cur : jsstring) :
  filter (fun s => nonempty s = true) (split_go in_sep cur s) = []
  <-> cur = [] /\ Forall (fun c => is_sep c = true) s.
Proof.
  revert in_sep cur. induction s as [|c s IH]; intros in_sep cur; simpl.
  - destruct cur; simpl.
    + split; [by split | done].
    + rewrite filter_cons_True by done. split; [done | by intros [? _]].
  - destruct (is_sep c) eqn:Ec.
    + assert (Hrest : filter (fun s0 => nonempty s0 = true)
                        (if in_sep then split_go true cur s
                         else cur :: split_go true [] s) = []
                      <-> cur = [] /\ Forall (fun c => is_sep c = true) s).
      { destruct in_sep; [apply IH|].
        destruct cur as [|x cur].
        - rewrite filter_cons_False by (simpl; congruence).
          rewrite IH. split; [by intros [_ ?] | by intros [_ ?]].
        - rewrite filter_cons_True by done. split; [done | by intros [? _]]. }
      rewrite Hrest. split; intros [-> H]; (split; [done|]).
      * by constructor.
      * by inversion H.
    + rewrite IH. split.
      * intros [Hx _]. by destruct cur.
      * intros [_ H]. inversion H; congruence.
Qed.

(** X19: the keyword list is empty exactly when the [keywords] parameter is
    absent or made of commas and white space only; the search then applies
    no keyword filter: every candidate matches with an empty preview,
    whatever its content, and no content check is counted. *)
Theorem blank_keywords_match_everything (keywords : option jsstring) :
  (keywords_of keywords = []
   <-> Forall (fun c => is_sep c = true) (or_default keywords []))
  /\ (keywords_of keywords = [] ->
      forall name content checks,
        keyword_check (keywords_of keywords) name content checks
        = (true, [], checks)).
Proof.
  split.
  - rewrite keywords_of_pieces. unfold split_seps. split.
    + intros H. apply map_eq_nil in H.
      by apply split_go_all_empty in H as [_ H].
    + intros H.
      by rewrite (proj2 (split_go_all_empty (or_default keywords []) false [])
                    (conj eq_refl H)).
  - intros -> name content checks. reflexivity.
Qed.

(** ** The calendar *)

Lemma DayFromYear_succ (y : Z) :
  DayFromYear (y + 1)
  = DayFromYear y + 365 + (if InLeapYear y then 1 else 0).
Proof.
  unfold DayFromYear, InLeapYear.
  destruct (Z.eqb_spec (y mod 4) 0), (Z.eqb_spec (y mod 100) 0),
    (Z.eqb_spec (y mod 400) 0); simpl; Z.div_mod_to_equations; lia.
Qed.

Lemma DayFromYear_lt (y1 y2 : Z) :
  y1 < y2 -> DayFromYear y1 + 365 <= DayFromYear y2.
Proof. unfold DayFromYear. intros H. Z.div_mod_to_equations. lia. Qed.

Ltac month_cases m :=
  let H := fresh in
  assert (H : m = 1 \/ m = 2 \/ m = 3 \/ m = 4 \/ m = 5 \/ m = 6 \/ m = 7
              \/ m = 8 \/ m = 9 \/ m = 10 \/ m = 11 \/ m = 12) by lia;
  repeat (destruct H as [->|H]); [..|subst m].

(** The days of the year before the first of month [m], and before a later
    month. *)
Lemma days_before_next_month (leap : bool) (m : Z) :
  1 <= m <= 12 ->
  days_before_month leap (m - 1) + days_in_month leap m
  = if m =? 12 then 365 + (if leap then 1 else 0) else days_before_month leap m.
Proof. intros Hm. month_cases m; by destruct leap. Qed.

Lemma days_before_month_mono (leap : bool) (m1 m2 : Z) :
  1 <= m1 -> m1 < m2 -> m2 <= 12 ->
  days_before_month leap (m1 - 1) + days_in_month leap m1
  <= days_before_month leap (m2 - 1).
Proof.
  intros H1 H12 H2.
  month_cases m1; month_cases m2; try lia; by destruct leap.
Qed.

Lemma days_before_month_year (leap : bool) (m : Z) :
  1 <= m <= 12 ->
  0 <= days_before_month leap (m - 1)
  /\ days_before_month leap (m - 1) + days_in_month leap m
     <= 365 + (if leap then 1 else 0).
Proof. intros Hm. month_cases m; destruct leap; by vm_compute. Qed.

Lemma MakeDay_valid (y m d : Z) :
  1 <= m <= 12 ->
  MakeDay y (m - 1) d
  = DayFromYear y + days_before_month (InLeapYear y) (m - 1) + d - 1.
Proof.
  intros Hm. unfold MakeDay.
  rewrite Z.div_small, Z.mod_small by lia. by rewrite Z.add_0_r.
Qed.

(** [MakeDay] grows with the date. *)
Lemma MakeDay_lt (y1 m1 d1 y2 m2 d2 : Z) :
  valid_date y1 m1 d1 -> valid_date y2 m2 d2 ->
  y1 < y2 \/ (y1 = y2 /\ (m1 < m2 \/ (m1 = m2 /\ d1 < d2))) ->
  MakeDay y1 (m1 - 1) d1 < MakeDay y2 (m2 - 1) d2.
Proof.
  intros [Hm1 Hd1] [Hm2 Hd2] Hlt. unfold DaysInMonth in *.
  rewrite !MakeDay_valid by done.
  pose proof (days_before_month_year (InLeapYear y1) m1 Hm1) as [Ha1 Hb1].
  pose proof (days_before_month_year (InLeapYear y2) m2 Hm2) as [Ha2 Hb2].
  destruct Hlt as [Hy|[-> [Hm| [-> Hd]]]].
  - pose proof (DayFromYear_succ y1) as Hs.
    destruct (Z.eq_dec (y1 + 1) y2) as [<-|Hne].
    + lia.
    + pose proof (DayFromYear_lt (y1 + 1) y2 ltac:(lia)). lia.
  - pose proof (days_before_month_mono (InLeapYear y2) m1 m2
                  ltac:(lia) Hm ltac:(lia)). lia.
  - lia.
Qed.

Lemma MakeDay_inj (y1 m1 d1 y2 m2 d2 : Z) :
  valid_date y1 m1 d1 -> valid_date y2 m2 d2 ->
  MakeDay y1 (m1 - 1) d1 = MakeDay y2 (m2 - 1) d2 ->
  y1 = y2 /\ m1 = m2 /\ d1 = d2.
Proof.
  intros H1 H2 E.
  destruct (Z.lt_trichotomy y1 y2) as [Hy|[->|Hy]].
  - pose proof (MakeDay_lt _ _ _ _ _ _ H1 H2 (or_introl Hy)). lia.
  - destruct (Z.lt_trichotomy m1 m2) as [Hm|[->|Hm]].
    + pose proof (MakeDay_lt _ _ _ _ _ _ H1 H2
                    (or_intror (conj eq_refl (or_introl Hm)))). lia.
    + destruct (Z.lt_trichotomy d1 d2) as [Hd|[->|Hd]]; [|done|].
      * pose proof (MakeDay_lt _ _ _ _ _ _ H1 H2
                      (or_intror (conj eq_refl (or_intror (conj eq_refl Hd))))). lia.
      * pose proof (MakeDay_lt _ _ _ _ _ _ H2 H1
                      (or_intror (conj eq_refl (or_intror (conj eq_refl Hd))))). lia.
    + pose proof (MakeDay_lt _ _ _ _ _ _ H2 H1
                    (or_intror (conj eq_refl (or_introl Hm)))). lia.
  - pose proof (MakeDay_lt _ _ _ _ _ _ H2 H1 (or_introl Hy)). lia.
Qed.

(** The date of a day number is the date the day number was made from. *)
Lemma civil_from_days_MakeDay (y m d : Z) :
  valid_date y m d -> civil_from_days (MakeDay y (m - 1) d) = (y, m, d).
Proof.
  intros Hv. pose proof (civil_from_days_spec (MakeDay y (m - 1) d)) as Hs.
  destruct (civil_from_days (MakeDay y (m - 1) d)) as [[y' m'] d'].
  destruct Hs as (Hm & Hd & Hmk & _).
  destruct (MakeDay_inj y' m' d' y m d (conj Hm Hd) Hv Hmk) as (-> & -> & ->).
  reflexivity.
Qed.

(** ** Dates and their strings *)

Lemma MakeTime_range (h mi s ms : Z) :
  0 <= h <= 23 -> 0 <= mi <= 59 -> 0 <= s <= 59 -> 0 <= ms <= 999 ->
  0 <= MakeTime h mi s ms < msPerDay.
Proof. unfold MakeTime, msPerDay. lia. Qed.

(** The fields of a time value made from a date and a time of day. *)
Lemma time_value_fields (y m d h mi s ms : Z) :
  0 <= h <= 23 -> 0 <= mi <= 59 -> 0 <= s <= 59 -> 0 <= ms <= 999 ->
  let t := time_value y m d h mi s ms in
  t / msPerDay = MakeDay y (m - 1) d
  /\ t mod msPerDay / 3600000 = h /\ t mod msPerDay / 60000 mod 60 = mi
  /\ t mod msPerDay / 1000 mod 60 = s /\ t mod msPerDay mod 1000 = ms.
Proof.
  intros Hh Hmi Hs Hms t. subst t. unfold time_value, MakeDate.
  pose proof (MakeTime_range h mi s ms Hh Hmi Hs Hms) as Hr.
  assert (Hday : (MakeDay y (m - 1) d * msPerDay + MakeTime h mi s ms) / msPerDay
                 = MakeDay y (m - 1) d).
  { symmetry. apply (Z.div_unique_pos _ _ _ (MakeTime h mi s ms)); [done|lia]. }
  assert (Htid : (MakeDay y (m - 1) d * msPerDay + MakeTime h mi s ms) mod msPerDay
                 = MakeTime h mi s ms).
  { symmetry. apply (Z.mod_unique_pos _ _ (MakeDay y (m - 1) d)); [done|lia]. }
  rewrite Hday, Htid. split; [reflexivity|].
  unfold MakeTime. repeat split; Z.div_mod_to_equations; lia.
Qed.

(** [toISOString] writes the date and the time the time value was made
    from. *)
Lemma toISOString_time_value (y m d h mi s ms : Z) :
  valid_date y m d -> 0 <= y <= 9999 ->
  0 <= h <= 23 -> 0 <= mi <= 59 -> 0 <= s <= 59 -> 0 <= ms <= 999 ->
  toISOString (time_value y m d h mi s ms) = iso_string y m d h mi s ms.
Proof.
  intros Hv Hy Hh Hmi Hs Hms.
  destruct (time_value_fields y m d h mi s ms Hh Hmi Hs Hms)
    as (Hday & E1 & E2 & E3 & E4).
  unfold toISOString. rewrite Hday, (civil_from_days_MakeDay y m d Hv).
  rewrite E1, E2, E3, E4.
  rewrite (proj2 (Z.leb_le 0 y)), (proj2 (Z.leb_le y 9999)) by lia.
  reflexivity.
Qed.

(** ** The order of the [modified] strings *)

Lemma lex_le_refl (a : jsstring) : lex_le a a.
Proof. induction a; by constructor. Qed.

Lemma lex_le_antisym (a b : jsstring) : lex_le a b -> lex_le b a -> a = b.
Proof.
  induction 1 as [b|x y a b Hlt|x a b H IH]; intros H2.
  - by inversion H2.
  - inversion H2; subst; lia.
  - inversion H2; subst; [lia|]. f_equal. by apply IH.
Qed.

Lemma digit_unit_lt (a b : Z) :
  0 <= a -> a < b -> (digit_unit a < digit_unit b)%N.
Proof. unfold digit_unit. lia. Qed.

(** Numbers written with the same number of digits compare as their
    strings do. *)
Lemma lex_le_pad (w : nat) (a b : Z) (s1 s2 : jsstring) :
  0 <= a < 10 ^ Z.of_nat w -> 0 <= b < 10 ^ Z.of_nat w ->
  a < b \/ (a = b /\ lex_le s1 s2) ->
  lex_le (pad w a ++ s1) (pad w b ++ s2).
Proof.
  revert a b s1 s2. induction w as [|w IH]; intros a b s1 s2 Ha Hb H.
  - simpl in *. destruct H as [H|[_ H]]; [lia | exact H].
  - cbn [pad]. rewrite <- !app_assoc. cbn [app].
    rewrite Nat2Z.inj_succ, Z.pow_succ_r in Ha, Hb by lia.
    pose proof (Z.pow_pos_nonneg 10 (Z.of_nat w) ltac:(lia) ltac:(lia)) as Hp.
    set (P := 10 ^ Z.of_nat w) in *. clearbody P.
    apply IH.
    + Z.div_mod_to_equations. lia.
    + Z.div_mod_to_equations. lia.
    + destruct H as [H|[-> H]].
      * destruct (Z.lt_ge_cases (a / 10) (b / 10)) as [Hq|Hq]; [by left|].
        right. assert (Heq : a / 10 = b / 10) by (Z.div_mod_to_equations; lia).
        split; [exact Heq|]. apply lex_le_lt. apply digit_unit_lt.
        -- Z.div_mod_to_equations. lia.
        -- Z.div_mod_to_equations. lia.
      * right. split; [reflexivity|]. by apply lex_le_eq.
Qed.

(** The year of a time value whose year has four digits. *)
Lemma four_digit_year_fields (t : Z) :
  four_digit_year t ->
  exists y m d h mi s ms,
    valid_date y m d /\ 0 <= y <= 9999
    /\ 0 <= h <= 23 /\ 0 <= mi <= 59 /\ 0 <= s <= 59 /\ 0 <= ms <= 999
    /\ t = time_value y m d h mi s ms.
Proof.
  intros [Hlo Hhi].
  pose proof (civil_from_days_spec (t / msPerDay)) as Hspec.
  destruct (civil_from_days (t / msPerDay)) as [[y m] d].
  destruct Hspec as (Hm & Hd & Hmk & _).
  assert (Htid : 0 <= t mod msPerDay < msPerDay)
    by (apply Z.mod_pos_bound; reflexivity).
  destruct (time_of_day_fields _ Htid) as (Hh & Hmi & Hs & Hms & Htime).
  exists y, m, d, (t mod msPerDay / 3600000), (t mod msPerDay / 60000 mod 60),
    (t mod msPerDay / 1000 mod 60), (t mod msPerDay mod 1000).
  assert (Hday : -719528 <= t / msPerDay <= 2932896).
  { unfold msPerDay. Z.div_mod_to_equations. lia. }
  assert (Hv : valid_date y m d) by done.
  repeat split; try lia.
  - destruct (Z.lt_ge_cases y 0) as [Hneg|]; [|lia].
    assert (H0 : valid_date 0 1 1) by (by vm_compute).
    pose proof (MakeDay_lt y m d 0 1 1 Hv H0 (or_introl Hneg)) as Hlt.
    change (MakeDay 0 (1 - 1) 1) with (-719528) in Hlt. lia.
  - destruct (Z.lt_ge_cases 9999 y) as [Hbig|]; [|lia].
    assert (H9 : valid_date 9999 12 31) by (by vm_compute).
    pose proof (MakeDay_lt 9999 12 31 y m d H9 Hv (or_introl Hbig)) as Hlt.
    change (MakeDay 9999 (12 - 1) 31) with 2932896 in Hlt. lia.
  - unfold time_value. rewrite Hmk, Htime. unfold MakeDate.
    pose proof (Z.div_mod t msPerDay ltac:(discriminate)). lia.
Qed.

Lemma DaysInMonth_le_31 (y m : Z) : DaysInMonth y m <= 31.
Proof.
  unfold DaysInMonth, days_in_month.
  repeat match goal with |- context [if ?b then _ else _] => destruct b end; lia.
Qed.

Lemma toISOString_mono (t1 t2 : Z) :
  four_digit_year t1 -> four_digit_year t2 -> t1 <= t2 ->
  lex_le (toISOString t1) (toISOString t2).
Proof.
  intros H1 H2 Hle.
  destruct (four_digit_year_fields t1 H1)
    as (y1 & m1 & d1 & h1 & mi1 & s1 & ms1 & Hv1 & Hy1 & Hh1 & Hmi1 & Hs1 & Hms1 & ->).
  destruct (four_digit_year_fields t2 H2)
    as (y2 & m2 & d2 & h2 & mi2 & s2 & ms2 & Hv2 & Hy2 & Hh2 & Hmi2 & Hs2 & Hms2 & ->).
  rewrite !toISOString_time_value by done.
  pose proof (MakeTime_range h1 mi1 s1 ms1 Hh1 Hmi1 Hs1 Hms1) as Hr1.
  pose proof (MakeTime_range h2 mi2 s2 ms2 Hh2 Hmi2 Hs2 Hms2) as Hr2.
  unfold time_value, MakeDate in Hle.
  assert (Hday : MakeDay y1 (m1 - 1) d1 <= MakeDay y2 (m2 - 1) d2).
  { unfold msPerDay in *. nia. }
  assert (Hd1 : 1 <= d1 <= 31)
    by (destruct Hv1 as [_ Hd]; pose proof (DaysInMonth_le_31 y1 m1); lia).
  assert (Hd2 : 1 <= d2 <= 31)
    by (destruct Hv2 as [_ Hd]; pose proof (DaysInMonth_le_31 y2 m2); lia).
  assert (Hm1 : 1 <= m1 <= 12) by apply Hv1.
  assert (Hm2 : 1 <= m2 <= 12) by apply Hv2.
  unfold iso_string.
  apply (lex_le_pad 4); [simpl; lia | simpl; lia|].
  destruct (Z.lt_trichotomy y1 y2) as [Hy|[->|Hy]]; [by left| |].
  2:{ pose proof (MakeDay_lt _ _ _ _ _ _ Hv2 Hv1 (or_introl Hy)). lia. }
  right. split; [reflexivity|]. cbn [app]. apply lex_le_eq.
  apply (lex_le_pad 2); [simpl; lia | simpl; lia|].
  destruct (Z.lt_trichotomy m1 m2) as [Hm|[->|Hm]]; [by left| |].
  2:{ pose proof (MakeDay_lt _ _ _ _ _ _ Hv2 Hv1
                    (or_intror (conj eq_refl (or_introl Hm)))). lia. }
  right. split; [reflexivity|]. cbn [app]. apply lex_le_eq.
  apply (lex_le_pad 2); [simpl; lia | simpl; lia|].
  destruct (Z.lt_trichotomy d1 d2) as [Hd|[->|Hd]]; [by left| |].
  2:{ pose proof (MakeDay_lt _ _ _ _ _ _ Hv2 Hv1
                    (or_intror (conj eq_refl (or_intror (conj eq_refl Hd))))). lia. }
  right. split; [reflexivity|]. cbn [app]. apply lex_le_eq.
  assert (Htime : MakeTime h1 mi1 s1 ms1 <= MakeTime h2 mi2 s2 ms2) by lia.
  unfold MakeTime in Htime.
  apply (lex_le_pad 2); [simpl; lia | simpl; lia|].
  destruct (Z.lt_trichotomy h1 h2) as [Hh|[->|Hh]]; [by left| |lia].
  right. split; [reflexivity|]. cbn [app]. apply lex_le_eq.
  apply (lex_le_pad 2); [simpl; lia | simpl; lia|].
  destruct (Z.lt_trichotomy mi1 mi2) as [Hmi|[->|Hmi]]; [by left| |lia].
  right. split; [reflexivity|]. cbn [app]. apply lex_le_eq.
  apply (lex_le_pad 2); [simpl; lia | simpl; lia|].
  destruct (Z.lt_trichotomy s1 s2) as [Hs|[->|Hs]]; [by left| |lia].
  right. split; [reflexivity|]. cbn [app]. apply lex_le_eq.
  apply (lex_le_pad 3); [simpl; lia | simpl; lia|].
  destruct (Z.lt_trichotomy ms1 ms2) as [Hms|[->|Hms]]; [by left| |lia].
  right. split; [reflexivity|]. apply lex_le_refl.
Qed.

(** X21: the ISO strings of two time values whose years have four digits
    are in the order of the time values: the order of the [modified] fields,
    by which the results are sorted, is the order in time. *)
Theorem modified_order_is_time_order (t1 t2 : Z) :
  four_digit_year t1 -> four_digit_year t2 ->
  (lex_le (toISOString t1) (toISOString t2) <-> t1 <= t2).
Proof.
  intros H1 H2. split; [|by apply toISOString_mono].
  intros Hle. destruct (Z.le_gt_cases t1 t2) as [|Hgt]; [done|].
  pose proof (toISOString_mono t2 t1 H2 H1 ltac:(lia)) as Hge.
  pose proof (lex_le_antisym _ _ Hle Hge) as Heq.
  apply (f_equal Date_parse) in Heq.
  unfold four_digit_year in *.
  rewrite !Date_parse_toISOString in Heq by lia. injection Heq. lia.
Qed.

(** ** What [parseDateInput] makes of a date *)

Lemma Date_UTC_time_value (y m d h mi s : Z) :
  Date_UTC y (m - 1) d h mi s = time_value (full_year y) m d h mi s 0.
Proof. reflexivity. Qed.

Lemma full_year_range (y : Z) :
  0 <= y <= 9999 -> 100 <= full_year y <= 9999.
Proof.
  intros Hy. unfold full_year.
  destruct (Z.leb_spec 0 y), (Z.leb_spec y 99); simpl; lia.
Qed.

Lemma valid_date_day (y m d : Z) : valid_date y m d -> 1 <= m <= 12 /\ 1 <= d <= 31.
Proof.
  intros [Hm Hd]. pose proof (DaysInMonth_le_31 y m). lia.
Qed.

(** X22: a date of the calendar, in either spelling, is read as the first
    instant of that date: the string [parseDateInput] returns is the date
    followed by [T00:00:00.000Z].  The year is the one [Date.UTC] takes: a
    year from 0000 to 0099 is read as 1900 to 1999. *)
Theorem parseDateInput_writes_the_date (s : jsstring) (y m d : Z) :
  0 <= y <= 9999 -> valid_date (full_year y) m d ->
  s = ymd_string y m d \/ s = mdy_string y m d ->
  parseDateInput (Some s) false
  = Some (ymd_string (full_year y) m d ++ lit "T00:00:00.000Z").
Proof.
  intros Hy Hv Hs. destruct (valid_date_day _ _ _ Hv) as [Hm Hd].
  assert (Hp : parseDateInput (Some s) false
               = Some (toISOString (Date_UTC y (m - 1) (d + 0) 0 0 0))).
  { destruct Hs as [-> | ->];
      [apply parseDateInput_ymd | apply parseDateInput_mdy]; lia. }
  rewrite Hp, Z.add_0_r, Date_UTC_time_value.
  pose proof (full_year_range y Hy).
  rewrite toISOString_time_value by (done || lia).
  unfold iso_string, ymd_string. rewrite <- !app_assoc. reflexivity.
Qed.

Lemma full_year_id (y : Z) : 100 <= y -> full_year y = y.
Proof.
  intros Hy. unfold full_year. destruct (Z.leb_spec y 99); [lia|].
  by rewrite andb_false_r.
Qed.

(** A day past the end of the month is a day of the next month. *)
Lemma MakeDay_next_month (y m d : Z) :
  1 <= m <= 12 ->
  MakeDay y (m - 1) d
  = MakeDay (next_month y m).1 ((next_month y m).2 - 1) (d - DaysInMonth y m).
Proof.
  intros Hm. unfold next_month, DaysInMonth.
  pose proof (days_before_next_month (InLeapYear y) m Hm) as Hstep.
  destruct (Z.eqb_spec m 12) as [->|Hne]; cbn [fst snd].
  - rewrite (MakeDay_valid y 12), (MakeDay_valid (y + 1) 1) by lia.
    rewrite DayFromYear_succ. simpl in Hstep.
    assert (days_before_month (InLeapYear (y + 1)) (1 - 1) = 0)
      by (by destruct (InLeapYear (y + 1))).
    lia.
  - rewrite (MakeDay_valid y m), (MakeDay_valid y (m + 1)) by lia.
    replace (m + 1 - 1) with m by lia. lia.
Qed.

(** X23: [parseDateInput] does not check the day against the month: a day
    after the last day of the month is read as a day of the next month, so
    that [2024-02-30] is read as [2024-03-01]. *)
Theorem parseDateInput_day_overflow (y m d : Z) (isEndExclusive : bool) :
  100 <= y <= 9998 -> 1 <= m <= 12 -> DaysInMonth y m < d <= 99 ->
  let '(y', m') := next_month y m in
  parseDateInput (Some (ymd_string y m d)) isEndExclusive
  = parseDateInput (Some (ymd_string y' m' (d - DaysInMonth y m))) isEndExclusive.
Proof.
  intros Hy Hm Hd.
  pose proof (MakeDay_next_month y m
                (d + (if isEndExclusive then 1 else 0)) Hm) as Hmk.
  assert (Hdim : 28 <= DaysInMonth y m <= 31).
  { unfold DaysInMonth, days_in_month.
    repeat match goal with |- context [if ?b then _ else _] => destruct b end; lia. }
  assert (Hn : 100 <= (next_month y m).1 <= 9999 /\ 1 <= (next_month y m).2 <= 12).
  { unfold next_month. destruct (Z.eqb_spec m 12); simpl; lia. }
  destruct (next_month y m) as [y' m']. cbn [fst snd] in *.
  rewrite !parseDateInput_ymd by lia. f_equal. f_equal.
  unfold Date_UTC. fold (full_year y). fold (full_year y').
  rewrite !full_year_id by lia. rewrite Hmk. f_equal. f_equal. lia.
Qed.

(** ** The window of dates *)

Lemma before_from_spec (a t : Z) :
  a ≠ 0 -> (before_from (Some a) t = false <-> a <= t).
Proof.
  intros Ha. unfold before_from, truthy_ms.
  destruct a; [done| |]; by rewrite Z.ltb_ge.
Qed.

Lemma at_or_after_to_spec (b t : Z) :
  b ≠ 0 -> (at_or_after_to (Some b) t = false <-> t < b).
Proof.
  intros Hb. unfold at_or_after_to, truthy_ms.
  destruct b; [done| |]; by rewrite Z.leb_gt.
Qed.

(** X24: with [from] and [to] both dates, in either spelling, a timestamp
    passes the date tests exactly when it lies from the first instant of the
    [from] date up to, and not including, the first instant of the day after
    the [to] date: with [from] and [to] the same date, exactly the 24 hours
    of that date.  (Neither bound being the time value 0.) *)
Theorem date_window (p : query) (s1 s2 : jsstring) (y1 m1 d1 y2 m2 d2 : Z) :
  0 <= y1 <= 9999 -> 0 <= m1 <= 99 -> 0 <= d1 <= 99 ->
  0 <= y2 <= 9999 -> 0 <= m2 <= 99 -> 0 <= d2 <= 99 ->
  s1 = ymd_string y1 m1 d1 \/ s1 = mdy_string y1 m1 d1 ->
  s2 = ymd_string y2 m2 d2 \/ s2 = mdy_string y2 m2 d2 ->
  q_from p = Some s1 -> q_to p = Some s2 ->
  start_of_date y1 m1 d1 ≠ 0 -> start_of_date y2 m2 d2 + msPerDay ≠ 0 ->
  forall t, in_window (config_of p) t
            <-> start_of_date y1 m1 d1 <= t < start_of_date y2 m2 d2 + msPerDay.
Proof.
  intros Hy1 Hm1 Hd1 Hy2 Hm2 Hd2 Hs1 Hs2 Hf Ht Ha Hb t.
  unfold in_window, config_of. cbn [fromMs toMs]. rewrite Hf, Ht.
  rewrite (proj1 (bound_of_date s1 y1 m1 d1 Hy1 Hm1 Hd1 Hs1)).
  rewrite (proj2 (bound_of_date s2 y2 m2 d2 Hy2 Hm2 Hd2 Hs2)).
  by rewrite before_from_spec, at_or_after_to_spec.
Qed.

(** ** The timestamp of a file name *)

(** X25: a file name that starts with the date and the time of day of a
    calendar instant is dated by that instant: [parseNameTimestampMs] gives
    its time value, whose ISO form, the [modified] of the entry, writes the
    same date and time; the modification time of the file is not used,
    unless the instant is the time value 0.  The year is the one [Date.UTC]
    takes: 0000 to 0099 stand for 1900 to 1999. *)
Theorem name_stamp_dates_the_file (y m d h mi s : Z) (c1 c2 c3 c4 c5 : N)
    (rest : jsstring) :
  0 <= y <= 9999 -> valid_date (full_year y) m d ->
  0 <= h <= 23 -> 0 <= mi <= 59 -> 0 <= s <= 59 ->
  c1 ∈ DASH_SLASH -> c2 ∈ DASH_SLASH -> c3 ∈ [32; 95; 84]%N ->
  c4 ∈ [46; 58]%N -> c5 ∈ [46; 58]%N ->
  word_boundary_after_digit rest = true ->
  let name := stamp_string y m d h mi s c1 c2 c3 c4 c5 ++ rest in
  let t := time_value (full_year y) m d h mi s 0 in
  parseNameTimestampMs name = Some t
  /\ toISOString t = iso_string (full_year y) m d h mi s 0
  /\ (t ≠ 0 -> forall mtime, or_ms (parseNameTimestampMs name) mtime = t).
Proof.
  intros Hy Hv Hh Hmi Hs H1 H2 H3 H4 H5 Hb name t.
  destruct (valid_date_day _ _ _ Hv) as [Hm Hd].
  assert (Hp : parseNameTimestampMs name = Some t).
  { subst name t. unfold parseNameTimestampMs, NAME_TIME_REGEX_test.
    assert (E : match_atoms NAME_TIME_ATOMS
                  (stamp_string y m d h mi s c1 c2 c3 c4 c5 ++ rest) = Some rest).
    { apply match_atoms_spec. eexists. split; [reflexivity|].
      unfold stamp_string, NAME_TIME_ATOMS. cbn [pad app].
      repeat constructor; try apply atom_ok_digit; by apply atom_ok_OneOf. }
    rewrite E, Hb. unfold stamp_string. cbn [pad app].
    unfold group. cbn [drop take].
    rewrite digits_value_4, !digits_value_2.
    rewrite pad_value_4, !pad_value_2 by lia. reflexivity. }
  split; [exact Hp|]. split.
  - pose proof (full_year_range y Hy).
    apply toISOString_time_value; (done || lia).
  - intros Ht mtime. rewrite Hp. unfold or_ms, truthy_ms.
    by destruct t.
Qed.

(** ** The answers of the language model *)

Lemma trimStart_app_nonspace (a b : jsstring) (c : N) :
  is_space c = false -> trimStart (a ++ c :: b) = trimStart a ++ c :: b.
Proof.
  intros Hc. induction a as [|x a IH]; simpl; [by rewrite Hc|].
  by destruct (is_space x).
Qed.

Lemma trimStart_idem (s : jsstring) : trimStart (trimStart s) = trimStart s.
Proof.
  destruct (trimStart s) as [|c r] eqn:E; [reflexivity|].
  simpl. by rewrite (trimStart_head s c r E).
Qed.

Lemma trimEnd_head (c : N) (u : jsstring) :
  is_space c = false -> exists r, trimEnd (c :: u) = c :: r.
Proof.
  intros Hc. unfold trimEnd. simpl rev.
  change (rev u ++ [c]) with (rev u ++ c :: []).
  rewrite trimStart_app_nonspace by done.
  rewrite rev_app_distr. simpl. by eexists.
Qed.

(** [trim] leaves a trimmed string as it is. *)
Lemma trim_idem (s : jsstring) : trim (trim s) = trim s.
Proof.
  assert (H : trim s = [] \/ exists c r, trim s = c :: r /\ is_space c = false).
  { unfold trim. destruct (trimStart s) as [|c u] eqn:E; [by left|]. right.
    pose proof (trimStart_head s c u E) as Hc.
    destruct (trimEnd_head c u Hc) as [r Hr]. by exists c, r. }
  destruct H as [H | (c & r & H & Hc)]; [by rewrite H|].
  assert (Hs : trimStart (trim s) = trim s) by (rewrite H; simpl; by rewrite Hc).
  unfold trim at 1. rewrite Hs. unfold trim, trimEnd.
  by rewrite rev_involutive, trimStart_idem.
Qed.

Lemma gemini_answer (apiKey : option jsstring)
    (post : jsstring -> list turn -> post_outcome)
    (model userText : jsstring) (h : list turn) (answer : jsstring) :
  gemini apiKey post model userText h = Ok answer ->
  trimmed_text answer
  /\ exists url text meta,
       post url (h ++ [Turn User userText]) = Responded (Some text) meta
       /\ answer = trim text.
Proof.
  unfold gemini. destruct apiKey as [[|k0 key]|]; try discriminate.
  destruct (encodeURIComponent model) as [m|]; [|discriminate].
  destruct (encodeURIComponent (k0 :: key)) as [k|]; [|discriminate].
  assert (Hmap : map (fun msg => Turn (role_of msg) (text msg)) h = h).
  { induction h as [|[r t] h IH]; simpl; [done|]. by rewrite IH. }
  rewrite Hmap.
  destruct (post _ _) as [[txt|] meta| |] eqn:Ep; try discriminate;
    cbn [default]; case_bool_decide as Hb; try discriminate.
  intros [= <-]. split; [split; [exact Hb | apply trim_idem]|]. eauto.
Qed.

Lemma answers_trimmed_push (h : list turn) (prompt answer : jsstring) :
  answers_trimmed h -> trimmed_text answer ->
  answers_trimmed (push_turns h prompt answer).
Proof.
  intros Hh Ha. unfold push_turns.
  assert (H' : answers_trimmed (h ++ [Turn User prompt; Turn Model answer])).
  { apply Forall_app. split; [exact Hh|].
    constructor; [intros Hx; discriminate Hx|].
    constructor; [by intros _ | constructor]. }
  destruct (_ <? _)%nat; [|exact H']. by apply Forall_drop.
Qed.

(** X26: [gemini] answers with the text of the response, trimmed, and only
    when that is not empty: a response without text, or with a blank one, is
    an error.  So, when the language model is called through [gemini], the
    text of every model turn of every stored history is not empty and has no
    white space at either end, after any sequence of requests. *)
Theorem answers_are_trimmed_text :
  (forall apiKey post model userText h answer,
      gemini apiKey post model userText h = Ok answer ->
      trimmed_text answer
      /\ exists url text meta,
           post url (h ++ [Turn User userText]) = Responded (Some text) meta
           /\ answer = trim text)
  /\ (forall (reqs : list (world * env * query)) (sessionId : jsstring),
        Forall (fun r => calls_gemini r.1.2) reqs ->
        let st := serve reqs initial_stores in
        (forall c, conversations st !! sessionId = Some c ->
                   answers_trimmed (history c))
        /\ (forall c, transcriptConversations st !! sessionId = Some c ->
                      answers_trimmed (t_history c))).
Proof.
  split; [apply gemini_answer|].
  intros reqs sessionId Hreqs st.
  assert (H : histories_satisfy answers_trimmed st).
  { apply (serve_keeps_histories answers_trimmed trimmed_text).
    - constructor.
    - intros h p a. apply answers_trimmed_push.
    - eapply Forall_impl; [exact Hreqs|].
      intros [[w e] rq] (apiKey & post & He) m u h a Hg. cbn [fst snd] in *.
      rewrite He in Hg. by apply gemini_answer in Hg as [Ht _].
    - split; apply map_Forall_empty. }
  destruct H as [H1 H2].
  split; intros c Hc; [exact (H1 _ _ Hc) | exact (H2 _ _ Hc)].
Qed.

(** ** The listing of the Drive folder *)

Lemma result_app_Ok {A : Type} (a b : result (list A)) (l : list A) :
  result_app a b = Ok l -> exists x y, a = Ok x /\ b = Ok y /\ l = x ++ y.
Proof.
  destruct a as [x|]; [|discriminate]. destruct b as [y|]; [|discriminate].
  intros [= <-]. by exists x, y.
Qed.

(** What the listing holds: files of the snapshot that are not folders. *)
Lemma listing_files :
  (forall entry depth l,
      listEntry depth entry = Ok l ->
      Forall (fun f => f ∈ files_of_entry entry /\ f_mimeType f ≠ FOLDER_MIME) l)
  /\ (forall pages depth l,
        listPages depth pages = Ok l ->
        Forall (fun f => f ∈ files_of_pages pages /\ f_mimeType f ≠ FOLDER_MIME) l)
  /\ (forall files depth l,
        listEntries depth files = Ok l ->
        Forall (fun f => f ∈ files_of_entries files /\ f_mimeType f ≠ FOLDER_MIME) l).
Proof.
  apply drive_ind.
  - intros f children IH depth l. cbn [listEntry files_of_entry].
    case_bool_decide as Hm.
    + destruct (3 <? S depth)%nat.
      * intros [= <-]. constructor.
      * intros H. apply IH in H. eapply Forall_impl; [exact H|].
        intros x [Hx Hn]. split; [by right | exact Hn].
    + intros [= <-]. constructor; [|constructor]. split; [by left | exact Hm].
  - intros e depth l H. discriminate H.
  - intros files IH depth l. apply IH.
  - intros files IHf next IHn depth l H. cbn [listPages] in H.
    apply result_app_Ok in H as (x & y & Hx & Hy & ->).
    apply IHf in Hx. apply IHn in Hy. cbn [files_of_pages].
    apply Forall_app. split; (eapply Forall_impl; [eassumption|]);
      intros f [Hf Hn]; (split; [|exact Hn]); apply elem_of_app; auto.
  - intros depth l [= <-]. constructor.
  - intros entry IHe rest IHr depth l H. cbn [listEntries] in H.
    apply result_app_Ok in H as (x & y & Hx & Hy & ->).
    apply IHe in Hx. apply IHr in Hy. cbn [files_of_entries].
    apply Forall_app. split; (eapply Forall_impl; [eassumption|]);
      intros f [Hf Hn]; (split; [|exact Hn]); apply elem_of_app; auto.
Qed.

Lemma listing_prune :
  (forall entry depth,
      listEntry depth (prune_drive (3 - depth) entry) = listEntry depth entry)
  /\ (forall pages depth,
        listPages depth (prune_pages (3 - depth) pages) = listPages depth pages)
  /\ (forall files depth,
        listEntries depth (prune_drive_entries (3 - depth) files)
        = listEntries depth files).
Proof.
  apply drive_ind.
  - intros f children IH depth. cbn [prune_drive listEntry].
    case_bool_decide; [|reflexivity].
    destruct (3 <? S depth)%nat eqn:E; [reflexivity|].
    apply Nat.ltb_ge in E.
    destruct (3 - depth)%nat as [|k] eqn:Ek; [lia|].
    replace k with (3 - S depth)%nat by lia. apply IH.
  - reflexivity.
  - intros files IH depth. cbn [prune_pages listPages]. apply IH.
  - intros files IHf next IHn depth. cbn [prune_pages listPages].
    by rewrite IHf, IHn.
  - reflexivity.
  - intros entry IHe rest IHr depth. cbn [prune_drive_entries listEntries].
    by rewrite IHe, IHr.
Qed.

(** ** What the Drive search returns *)

Lemma gdriveFile_entries (P : drive_file -> Prop) (now0 : Z) (c : scan_config)
    (f : drive_file) (st : scan_state) :
  P f ->
  Forall (fun r => exists f, P f /\ drive_entry_of f r) (results st) ->
  Forall (fun r => exists f, P f /\ drive_entry_of f r)
    (results (gdriveFile now0 c f st)).
Proof.
  intros Hf H. unfold gdriveFile.
  destruct (gdrive_excluded _ _); [exact H|].
  destruct (keyword_check _ _ _ _) as [[[] pv] ch]; cbn [results]; [|exact H].
  apply Forall_app. split; [exact H|]. constructor; [|constructor].
  exists f. split; [exact Hf|]. by repeat split.
Qed.

Lemma gdriveLoop_entries (P : drive_file -> Prop) (now0 : Z) (c : scan_config)
    (fs : list drive_file) (st : scan_state) :
  Forall P fs ->
  Forall (fun r => exists f, P f /\ drive_entry_of f r) (results st) ->
  Forall (fun r => exists f, P f /\ drive_entry_of f r)
    (results (gdriveLoop now0 c fs st)).
Proof.
  intros Hfs. revert st. induction Hfs as [|f fs Hf _ IH]; intros st H; simpl.
  - exact H.
  - destruct (limit_reached c st); [exact H|]. apply IH.
    by apply gdriveFile_entries.
Qed.

(** X28: every entry the Drive search returns stands for a file of the
    Drive folder that is not a folder and is a transcript file, by its
    extension or as a Google document: its id is [gdrive:] followed by the id
    of the file, its name and type are the file's ([text/plain] when the file
    has no type), and its link is the view link of the file. *)
Theorem drive_results_are_listed_transcripts (root : drive_pages) (w : world)
    (p : query) (rs : list transcript_file) :
  findTranscriptsGDrive (with_drive root w) p = SearchResults rs ->
  Forall (fun r => exists f,
            (f ∈ files_of_pages root /\ f_mimeType f ≠ FOLDER_MIME
             /\ is_transcript_file f = true)
            /\ drive_entry_of f r) rs.
Proof.
  unfold findTranscriptsGDrive, with_drive. cbn [gdrive_listing now].
  destruct (gdriveListAllFiles root 0) as [allFiles|e] eqn:El; [|discriminate].
  pose proof (proj1 (proj2 listing_files) root 0%nat allFiles El) as Hall.
  unfold finish. intros [= <-].
  set (P := fun f => f ∈ files_of_pages root /\ f_mimeType f ≠ FOLDER_MIME
                     /\ is_transcript_file f = true).
  assert (Hfs : Forall P (filter (fun f => is_transcript_file f = true) allFiles)).
  { apply Forall_forall. intros f Hf. apply list_elem_of_filter in Hf as [Ht Hf].
    apply (proj1 (Forall_forall _ _) Hall) in Hf as [Hin Hn]. by repeat split. }
  pose proof (gdriveLoop_entries P (now w) (config_of p) _ initial_scan_state Hfs
                (Forall_nil_2 _)) as Hres.
  apply Forall_forall. intros r Hr. apply slice_0_subset in Hr.
  rewrite <- (sort_perm by_modified_desc) in Hr.
  exact (proj1 (Forall_forall _ _) Hres r Hr).
Qed.

(** ** The query of the data store *)

Lemma delimiter_free_app (a b : jsstring) :
  delimiter_free (a ++ b) <-> delimiter_free a /\ delimiter_free b.
Proof. unfold delimiter_free. rewrite forallb_app. apply andb_true_iff. Qed.

Lemma delimiter_free_cons (c : N) (s : jsstring) :
  delimiter_free (c :: s) <-> is_query_delimiter c = false /\ delimiter_free s.
Proof.
  unfold delimiter_free. simpl. rewrite andb_true_iff, negb_true_iff. done.
Qed.

Lemma upper_hex_digit_free (n : N) : is_query_delimiter (upper_hex_digit n) = false.
Proof.
  unfold is_query_delimiter, upper_hex_digit.
  destruct (n <? 10)%N; rewrite !(proj2 (N.eqb_neq _ _)) by lia; reflexivity.
Qed.

Lemma percent_encoded_free (cp : N) : delimiter_free (percent_encoded cp).
Proof.
  unfold percent_encoded. induction (utf8_octets cp) as [|b bs IH]; [done|].
  simpl. rewrite !delimiter_free_cons, !upper_hex_digit_free. by repeat split.
Qed.

Lemma uri_unreserved_free (c : N) :
  uri_unreserved c = true -> is_query_delimiter c = false.
Proof.
  intros Hu. unfold is_query_delimiter.
  destruct (N.eqb_spec c 38) as [->|]; [discriminate Hu|].
  destruct (N.eqb_spec c 35) as [->|]; [discriminate Hu|].
  destruct (N.eqb_spec c 43) as [->|]; [discriminate Hu|].
  destruct (N.eqb_spec c 32) as [->|]; [discriminate Hu|].
  reflexivity.
Qed.

(** What [encodeURIComponent] writes holds no delimiter of a query
    string. *)
Lemma encodeURIComponent_free (s r : jsstring) :
  encodeURIComponent s = Ok r -> delimiter_free r.
Proof.
  remember (length s) as n eqn:Hn. revert s r Hn.
  induction n as [n IH] using lt_wf_ind. intros s r Hn.
  destruct s as [|c s]; [by intros [= <-]|]. cbn [encodeURIComponent].
  destruct (uri_unreserved c) eqn:Eu.
  - destruct (encodeURIComponent s) as [r'|] eqn:Er; [|discriminate].
    intros [= <-]. apply delimiter_free_cons. split; [by apply uri_unreserved_free|].
    apply (IH (length s)) with (s := s); (subst n; simpl; lia) || done.
  - destruct (is_high_surrogate c).
    + destruct s as [|d s]; [discriminate|].
      destruct (is_low_surrogate d); [|discriminate].
      destruct (encodeURIComponent s) as [r'|] eqn:Er; [|discriminate].
      intros [= <-]. apply delimiter_free_app. split; [apply percent_encoded_free|].
      apply (IH (length s)) with (s := s); (subst n; simpl; lia) || done.
    + destruct (is_low_surrogate c); [discriminate|].
      destruct (encodeURIComponent s) as [r'|] eqn:Er; [|discriminate].
      intros [= <-]. apply delimiter_free_app. split; [apply percent_encoded_free|].
      apply (IH (length s)) with (s := s); (subst n; simpl; lia) || done.
Qed.

Lemma result_bind_Ok {A B : Type} (r : result A) (f : A -> result B) (b : B) :
  result_bind r f = Ok b -> exists a, r = Ok a /\ f a = Ok b.
Proof. destruct r as [a|]; [|discriminate]. intros H. by exists a. Qed.

(** A part made of a literal and an encoded value. *)
Lemma encoded_part_free (pre : jsstring) (b : bool) (v : jsstring)
    (part : list jsstring) :
  delimiter_free pre ->
  (if b then result_bind (encodeURIComponent v) (fun x => Ok [pre ++ x])
   else Ok []) = Ok part ->
  Forall delimiter_free part.
Proof.
  intros Hpre. destruct b; [|by intros [= <-]].
  intros H. apply result_bind_Ok in H as (x & Hx & [= <-]).
  constructor; [|constructor]. apply delimiter_free_app. split; [done|].
  by apply encodeURIComponent_free in Hx.
Qed.

Lemma join_free (sep : jsstring) (xs : list jsstring) :
  delimiter_free sep -> Forall delimiter_free xs -> delimiter_free (join sep xs).
Proof.
  intros Hsep H. induction H as [|x xs Hx Hxs IH]; [done|].
  destruct xs as [|y ys]; [exact Hx|]. cbn [join].
  rewrite !delimiter_free_app. by repeat split.
Qed.

Lemma countries_terms_free (list ors : list jsstring) :
  result_map
    (fun c => result_bind (encodeURIComponent c)
                (fun v => Ok (lit "countries.ilike.*" ++ v ++ lit "*")))
    list = Ok ors ->
  Forall delimiter_free ors.
Proof.
  revert ors. induction list as [|c list IH]; intros ors; cbn [result_map].
  - by intros [= <-].
  - intros H. apply result_bind_Ok in H as (y & Hy & H).
    apply result_bind_Ok in H as (ys & Hys & [= <-]).
    apply result_bind_Ok in Hy as (v & Hv & Hy). apply Ok_inj in Hy as <-.
    constructor; [|by apply IH].
    rewrite !delimiter_free_app. split; [done|]. split; [|done].
    by apply encodeURIComponent_free in Hv.
Qed.

Lemma filter_parts_free (p : params) (filters : list jsstring) :
  filter_parts p = Ok filters -> Forall delimiter_free filters.
Proof.
  unfold filter_parts. intros H.
  apply result_bind_Ok in H as (f1 & H1 & H).
  apply result_bind_Ok in H as (f2 & H2 & H).
  apply result_bind_Ok in H as (f3 & H3 & H).
  apply result_bind_Ok in H as (f4 & H4 & H).
  apply result_bind_Ok in H as (f5 & H5 & [= <-]).
  apply (encoded_part_free (lit "date=gte.")) in H1; [|done].
  apply (encoded_part_free (lit "date=lte.")) in H2; [|done].
  apply (encoded_part_free (lit "type=eq.")) in H3; [|done].
  repeat (apply Forall_app; split); try done.
  - destruct (nonempty (p_countries p)); [|by injection H4 as <-].
    destruct (nonempty (countries_list (p_countries p))); [|by injection H4 as <-].
    apply result_bind_Ok in H4 as (ors & Hors & H4). apply Ok_inj in H4 as <-.
    constructor; [|constructor].
    rewrite !delimiter_free_app. split; [done|]. split; [|done].
    apply join_free; [done|]. by apply countries_terms_free in Hors.
  - destruct (nonempty (p_topic p)); [|by injection H5 as <-].
    apply result_bind_Ok in H5 as (t & Ht & H5). apply Ok_inj in H5 as <-.
    apply encodeURIComponent_free in Ht.
    constructor; [|constructor]. rewrite !delimiter_free_app.
    split; [done|]. split; [done|]. split; [done|]. split; done.
Qed.

(** X29: the filters of a query cannot add or cut the parameters of the
    data-store request: the parts [fetchFromSupabase] builds from [from],
    [to], [type], [countries] and [topic] hold no ampersand, no number sign,
    no plus sign and no space, whatever the values are; the request URL is
    the base, these parts, the order and the limit, joined by ampersands; and
    a limit that is zero or not a number is sent as 100. *)
Theorem filters_cannot_add_parameters (Number_toString : jsnum -> jsstring)
    (SUPABASE_URL : jsstring) (p : params) (filters : list jsstring) :
  filter_parts p = Ok filters ->
  Forall delimiter_free filters
  /\ restUrl_of Number_toString SUPABASE_URL p
     = Ok (strip_final_slash SUPABASE_URL ++ lit "/rest/v1/meetings?select=*&"
           ++ join (lit "&")
                (filters ++ [lit "order=date.desc";
                             lit "limit=" ++ limit_text Number_toString (p_limit p)]))
  /\ (falsy_number (p_limit p) = true ->
      limit_text Number_toString (p_limit p) = lit "100").
Proof.
  intros H. split; [by apply (filter_parts_free p)|]. split.
  - unfold restUrl_of, rest_parts. rewrite H. cbn [result_bind].
    destruct (filters ++ _) as [|x xs] eqn:E.
    + by destruct filters.
    + cbn [nonempty]. by rewrite <- !app_assoc.
  - intros Hf. unfold limit_text. by rewrite Hf.
Qed.

(** ** Notes *)

Lemma trim_has_nonspace (s : jsstring) (c : N) :
  c ∈ s -> is_space c = false -> trim s ≠ [].
Proof.
  intros Hin Hc Ht. pose proof (trim_keeps c s Hin Hc) as H.
  rewrite Ht in H. by apply elem_of_nil in H.
Qed.

Lemma today_date (now : Z) :
  four_digit_year now ->
  exists y m d,
    valid_date y m d /\ 0 <= y <= 9999 /\ now / msPerDay = MakeDay y (m - 1) d
    /\ today now = ymd_string y m d.
Proof.
  intros H.
  destruct (four_digit_year_fields now H)
    as (y & m & d & h & mi & s & ms & Hv & Hy & Hh & Hmi & Hs & Hms & ->).
  exists y, m, d. split; [exact Hv|]. split; [exact Hy|]. split.
  - apply (time_value_fields y m d h mi s ms); done.
  - unfold today. rewrite toISOString_time_value by done. reflexivity.
Qed.

(** X30: the record of a note.  Its type is [Note] whatever the request
    says; its headline is the trimmed [headline] (or [note_headline]) of the
    request when that is not blank, else [Note by] and the author, else
    [Note], so that it is never blank; without a [date] the note is dated
    with the UTC date of the clock, written [YYYY-MM-DD]. *)
Theorem note_record_has_headline_and_date (now : Z) (p : note_query) :
  let given := trim (or_default (n_headline p) (or_default (n_note_headline p) [])) in
  rec_type (note_rec now p) = lit "Note"
  /\ trim (rec_headline (note_rec now p)) ≠ []
  /\ (given ≠ [] -> rec_headline (note_rec now p) = given)
  /\ (or_default (n_date p) [] = [] -> four_digit_year now ->
      exists y m d,
        valid_date y m d /\ now / msPerDay = MakeDay y (m - 1) d
        /\ rec_date (note_rec now p) = ymd_string y m d).
Proof.
  intros given. split; [reflexivity|]. split; [|split].
  - unfold note_rec. cbn [rec_headline]. fold given.
    destruct given as [|c g] eqn:Eg.
    + destruct (n_author p) as [[|a author]|];
        apply (trim_has_nonspace _ 78%N); try reflexivity;
        apply elem_of_cons; by left.
    + rewrite <- Eg. subst given. rewrite trim_idem. by rewrite Eg.
  - intros Hg. unfold note_rec. cbn [rec_headline]. fold given.
    by destruct given.
  - intros Hd Hnow. destruct (today_date now Hnow) as (y & m & d & Hv & _ & Hday & Ht).
    exists y, m, d. split; [exact Hv|]. split; [exact Hday|]. rewrite <- Ht.
    unfold note_rec. cbn [rec_date].
    destruct (n_date p) as [[|c s]|]; try done; discriminate Hd.
Qed.

(** ** The words of the keywords parameter *)

Lemma split_go_sep (c : N) (s cur : jsstring) :
  is_sep c = true ->
  filter (fun s => nonempty s = true) (split_go false cur (c :: s))
  = filter (fun s => nonempty s = true) (cur :: split_go false [] s).
Proof.
  intros Hc. simpl. rewrite Hc.
  destruct s as [|d s]; [reflexivity|]. simpl.
  destruct (is_sep d); [|reflexivity].
  destruct cur; reflexivity.
Qed.

Lemma split_go_word (w s cur : jsstring) :
  Forall (fun c => is_sep c = false) w ->
  split_go false cur (w ++ s) = split_go false (cur ++ w) s.
Proof.
  intros Hw. revert cur. induction Hw as [|c w Hc _ IH]; intros cur; simpl.
  - by rewrite app_nil_r.
  - rewrite Hc, IH. by rewrite <- app_assoc.
Qed.

Lemma words_of_sep (c : N) (s : jsstring) (ws : list jsstring) :
  is_sep c = true -> words_of s ws -> words_of (c :: s) ws.
Proof.
  intros Hc H. destruct H as [s Hs|seps w rest ws Hseps Hne Hw Hrest Hws].
  - apply words_none. by constructor.
  - apply (words_more (c :: seps) w rest ws); try done. by constructor.
Qed.

Lemma words_more_eq (s seps w rest : jsstring) (ws : list jsstring) :
  s = seps ++ w ++ rest ->
  Forall (fun c => is_sep c = true) seps ->
  w ≠ [] -> Forall (fun c => is_sep c = false) w ->
  (rest = [] \/ exists c r, rest = c :: r /\ is_sep c = true) ->
  words_of rest ws ->
  words_of s (w :: ws).
Proof. intros ->. apply words_more. Qed.

(** Every text has its words: the pieces of [split] that are not empty. *)
Lemma words_of_split_go (s cur : jsstring) :
  Forall (fun c => is_sep c = false) cur ->
  words_of (cur ++ s)
    (filter (fun s => nonempty s = true) (split_go false cur s)).
Proof.
  revert cur. induction s as [|c s IH]; intros cur Hcur.
  - simpl. rewrite app_nil_r. destruct cur as [|x cur].
    + apply words_none. constructor.
    + rewrite filter_cons_True by done.
      apply (words_more_eq _ [] (x :: cur) [] []); try done.
      * by rewrite app_nil_r.
      * by left.
      * apply words_none. constructor.
  - destruct (is_sep c) eqn:Ec.
    + rewrite split_go_sep by exact Ec.
      pose proof (words_of_sep c s _ Ec (IH [] (Forall_nil_2 _))) as Hrest.
      destruct cur as [|x cur].
      * rewrite filter_cons_False by (simpl; congruence). exact Hrest.
      * rewrite filter_cons_True by done.
        apply (words_more_eq _ [] (x :: cur) (c :: s)); try done.
        right. by exists c, s.
    + simpl. rewrite Ec.
      replace (cur ++ c :: s) with ((cur ++ [c]) ++ s) by (by rewrite <- app_assoc).
      apply IH. apply Forall_app. split; [done|]. by constructor.
Qed.

Lemma words_of_total (s : jsstring) :
  words_of s (filter (fun s => nonempty s = true) (split_seps s)).
Proof. exact (words_of_split_go s [] (Forall_nil_2 _)). Qed.

(** A text has no other words. *)
Lemma words_of_split (s : jsstring) (ws : list jsstring) :
  words_of s ws ->
  filter (fun s => nonempty s = true) (split_seps s) = ws.
Proof.
  unfold split_seps.
  induction 1 as [s Hs|seps w rest ws Hseps Hne Hw Hrest Hws IH].
  - by apply split_go_all_empty.
  - induction Hseps as [|c seps Hc _ IHs].
    + simpl. rewrite split_go_word by exact Hw. simpl.
      destruct Hrest as [->|(c & r & -> & Hc)].
      * simpl in *. rewrite filter_cons_True by (by destruct w).
        rewrite <- IH. reflexivity.
      * rewrite split_go_sep by exact Hc.
        rewrite filter_cons_True by (by destruct w). f_equal.
        rewrite <- IH. rewrite (split_go_sep c r []) by exact Hc.
        by rewrite filter_cons_False by (simpl; congruence).
    + change ((c :: seps) ++ w ++ rest) with (c :: (seps ++ w ++ rest)).
      rewrite split_go_sep by exact Hc.
      by rewrite filter_cons_False by (simpl; congruence).
Qed.

(** A word is not empty and holds no separator. *)
Lemma words_of_words (s : jsstring) (ws : list jsstring) :
  words_of s ws ->
  Forall (fun w => w ≠ [] /\ Forall (fun c => is_sep c = false) w) ws.
Proof. induction 1; constructor; auto. Qed.

(** The keywords of a query are its words, lower-cased. *)
Lemma keywords_of_words (keywords : option jsstring) (ws : list jsstring) :
  words_of (or_default keywords []) ws ->
  keywords_of keywords = map toLowerCase ws.
Proof.
  intros H. rewrite keywords_of_pieces. f_equal. by apply words_of_split.
Qed.

(** ** Keyword matching *)

(** [anyKeywordHit] on the lower-cased terms is the rule "some term
    occurs, case ignored". *)
Lemma anyKeywordHit_spec (h : jsstring) (terms : list jsstring) :
  terms ≠ [] ->
  (anyKeywordHit h (map toLowerCase terms) = true <-> some_term_in terms h).
Proof.
  intros Hne. unfold anyKeywordHit, norm, some_term_in, ci_substring.
  assert (Hn : nonempty (map toLowerCase terms) = true) by (by destruct terms).
  rewrite Hn. cbn [negb]. rewrite existsb_exists. split.
  - intros (x & Hin & Hx). apply in_map_iff in Hin as (w & <- & Hw).
    exists w. split; [by apply list_elem_of_In|].
    by apply indexOf_spec, Z.leb_le.
  - intros (w & Hin & Hw). exists (toLowerCase w).
    split; [by apply in_map, list_elem_of_In|].
    by apply Z.leb_le, indexOf_spec.
Qed.

(** What the keyword test of the scans gives, case by case. *)
Lemma keyword_check_cases (terms : list jsstring) (name : jsstring)
    (content : result jsstring) (checks : Z) :
  terms ≠ [] ->
  let r := keyword_check (map toLowerCase terms) name content checks in
  (some_term_in terms name -> r = (true, [], checks))
  /\ (~ some_term_in terms name ->
      (MAX_CONTENT_CHECKS <= checks -> r = (false, [], checks))
      /\ (checks < MAX_CONTENT_CHECKS ->
          (forall e, content = Throw e -> r = (false, [], checks))
          /\ (forall body, content = Ok body ->
                (some_term_in terms body ->
                 r = (true, makePreview body 500, checks + 1))
                /\ (~ some_term_in terms body ->
                    r = (false, [], checks + 1))))).
Proof.
  intros Hne r. subst r. unfold keyword_check.
  pose proof (anyKeywordHit_spec name terms Hne) as Hname.
  assert (Hn : nonempty (map toLowerCase terms) = true) by (by destruct terms).
  rewrite Hn. cbn [andb].
  destruct (anyKeywordHit name (map toLowerCase terms)) eqn:En; cbn [negb andb].
  - split; [done|]. intros Hno. destruct Hno. by apply Hname.
  - split; [intros H; apply Hname in H; discriminate H|]. intros _.
    split.
    + intros Hc. by rewrite (proj2 (Z.ltb_ge _ _) Hc).
    + intros Hc. rewrite (proj2 (Z.ltb_lt _ _) Hc). split.
      * by intros e ->.
      * intros body ->.
        pose proof (anyKeywordHit_spec body terms Hne) as Hbody.
        destruct (anyKeywordHit body (map toLowerCase terms)) eqn:Eb.
        -- split; [done|]. intros Hno. destruct Hno. by apply Hbody.
        -- split; [|done]. intros H. apply Hbody in H. discriminate H.
Qed.

(** The keyword test decides the rule of the specification. *)
Lemma keyword_check_spec (terms : list jsstring) (name : jsstring)
    (content : result jsstring) (checks : Z) :
  terms ≠ [] ->
  ((keyword_check (map toLowerCase terms) name content checks).1.1 = true
   <-> keyword_rule terms name content checks).
Proof.
  intros Hne.
  destruct (keyword_check_cases terms name content checks Hne) as [Hname Hno].
  pose proof (anyKeywordHit_spec name terms Hne) as Hdec.
  destruct (anyKeywordHit name (map toLowerCase terms)) eqn:En.
  - assert (Hin : some_term_in terms name) by (by apply Hdec).
    rewrite (Hname Hin). split; [by left | done].
  - assert (Hout : ~ some_term_in terms name).
    { intros H. apply Hdec in H. discriminate H. }
    destruct (Hno Hout) as [Hmax Hread]. unfold keyword_rule.
    destruct (Z.lt_ge_cases checks MAX_CONTENT_CHECKS) as [Hc|Hc].
    + destruct (Hread Hc) as [Hthrow Hok]. destruct content as [body|e].
      * destruct (Hok body eq_refl) as [Hy Hn].
        pose proof (anyKeywordHit_spec body terms Hne) as Hb.
        destruct (anyKeywordHit body (map toLowerCase terms)) eqn:Eb.
        -- assert (Hin : some_term_in terms body) by (by apply Hb).
           rewrite (Hy Hin). split; [|done]. intros _. right. eauto 6.
        -- assert (Hnb : ~ some_term_in terms body).
           { intros H. apply Hb in H. discriminate H. }
           rewrite (Hn Hnb). split; [done|].
           intros [H|(_ & _ & b & [= <-] & H)]; [by destruct Hout | by destruct Hnb].
      * rewrite (Hthrow e eq_refl). split; [done|].
        intros [H|(_ & _ & b & [=] & _)]. by destruct Hout.
    + rewrite (Hmax Hc). split; [done|].
      intros [H|(_ & Hlt & _)]; [by destruct Hout | lia].
Qed.

(** ** A scan as a loop over its candidates *)

Lemma limit_reached_whole (c : scan_config) (n : Z) (st : scan_state) :
  whole_number (limit c) n ->
  (limit_reached c st = true <-> n <= Z.of_nat (length (results st))).
Proof.
  unfold whole_number, limit_reached, length_ge.
  destruct (limit c) as [| | |q]; try done. intros Hq.
  by rewrite Qle_bool_iff, Hq, <- Zle_Qle.
Qed.

(** [slice(0, n)] keeps a list of at most [n] elements whole. *)
Lemma slice_0_whole_number {A : Type} (x : jsnum) (n : Z) (l : list A) :
  whole_number x n -> Z.of_nat (length l) <= n -> slice_0 x l = l.
Proof.
  unfold whole_number, slice_0. destruct x as [| | |q]; try done.
  intros Hq Hle. unfold Qeq in Hq. simpl in Hq. rewrite Z.mul_1_r in Hq.
  rewrite Hq, Z.quot_mul by done.
  destruct (n <? 0) eqn:E; [apply Z.ltb_lt in E; lia|].
  apply take_ge. lia.
Qed.

Lemma scan_list_reached (c : scan_config) (fs : list candidate)
    (st : scan_state) :
  limit_reached c st = true -> scan_list c fs st = st.
Proof. intros H. destruct fs; simpl; [reflexivity | by rewrite H]. Qed.

Lemma scan_list_app (c : scan_config) (l1 l2 : list candidate)
    (st : scan_state) :
  scan_list c (l1 ++ l2) st = scan_list c l2 (scan_list c l1 st).
Proof.
  revert st. induction l1 as [|f l1 IH]; intros st; simpl; [reflexivity|].
  destruct (limit_reached c st) eqn:E; [|apply IH].
  by rewrite scan_list_reached.
Qed.

(** One turn of the local scan is one turn of the loop over the
    candidates. *)
Lemma scanFile_scan_list (c : scan_config) (itemPath item : jsstring)
    (mtime : Z) (content : result jsstring) (st : scan_state) :
  limit_reached c st = false ->
  scanFile c itemPath item mtime content st
  = scan_list c (local_candidate c itemPath item mtime content) st.
Proof.
  intros Hl. unfold scanFile, local_candidate.
  destruct (hasAllowedTranscriptExt item); [|reflexivity]. cbn [negb andb].
  destruct (before_from _ _); [reflexivity|].
  destruct (at_or_after_to _ _); [reflexivity|]. cbn [negb andb scan_list].
  rewrite Hl. reflexivity.
Qed.

(** The local scan is the loop over the candidates of the folder and of
    its subfolders down to the third level. *)
Lemma scan_scan_list (pj : jsstring -> jsstring -> jsstring) (c : scan_config) :
  (forall nd folderPath depth item st st',
      limit_reached c st = false ->
      scanEntry pj c folderPath depth item nd st = Ok st' ->
      st' = scan_list c (candidates_of_node pj c (3 - depth) folderPath item nd) st)
  /\ (forall items folderPath depth st st',
        scanItems pj c folderPath depth items st = Ok st' ->
        st' = scan_list c (candidates_of_entries pj c (3 - depth) folderPath items) st).
Proof.
  apply node_entries_ind.
  - intros mtime content folderPath depth item st st' Hl [= <-].
    by apply scanFile_scan_list.
  - intros items IH folderPath depth item st st' Hl. rewrite scanEntry_Dir, Hl.
    rewrite orb_false_r. cbn [candidates_of_node].
    destruct (3 <? S depth)%nat eqn:E.
    + apply Nat.ltb_lt in E. intros [= <-].
      by replace (3 - depth)%nat with 0%nat by lia.
    + apply Nat.ltb_ge in E. intros Hs. apply IH in Hs.
      by replace (3 - depth)%nat with (S (3 - S depth)) by lia.
  - intros e folderPath depth item st st' Hl. simpl. rewrite Hl, orb_false_r.
    destruct (3 <? S depth)%nat; [by intros [= <-] | intros Hx; discriminate Hx].
  - intros e folderPath depth item st st' Hl Hx. discriminate Hx.
  - by intros folderPath depth st st' [= <-].
  - intros item nd IHn rest IHr folderPath depth st st'.
    rewrite scanItems_ECons. cbn [candidates_of_entries].
    destruct (limit_reached c st) eqn:Hl.
    + intros [= <-]. by rewrite scan_list_reached.
    + destruct (scanEntry pj c folderPath depth item nd st) as [st1|e] eqn:Es;
        [|intros Hx; discriminate Hx].
      intros Hr. rewrite scan_list_app.
      apply (IHn _ _ _ _ _ Hl) in Es. subst st1. by apply IHr.
Qed.

(** One turn of the Drive scan is one turn of the loop over the
    candidates. *)
Lemma gdriveFile_scan_list (now0 : Z) (c : scan_config) (f : drive_file)
    (st : scan_state) :
  limit_reached c st = false ->
  gdriveFile now0 c f st = scan_list c (drive_candidate now0 c f) st.
Proof.
  intros Hl. unfold gdriveFile, drive_candidate.
  destruct (gdrive_excluded _ _); [reflexivity|]. cbn [scan_list].
  rewrite Hl. reflexivity.
Qed.

Lemma gdriveLoop_scan_list (now0 : Z) (c : scan_config)
    (fs : list drive_file) (st : scan_state) :
  gdriveLoop now0 c fs st
  = scan_list c (flat_map (drive_candidate now0 c) fs) st.
Proof.
  revert st. induction fs as [|f fs IH]; intros st; [reflexivity|].
  cbn [gdriveLoop flat_map]. rewrite scan_list_app.
  destruct (limit_reached c st) eqn:Hl.
  - rewrite (scan_list_reached c (drive_candidate now0 c f) st Hl).
    by rewrite (scan_list_reached c _ st Hl).
  - by rewrite IH, gdriveFile_scan_list.
Qed.

Lemma hits_from_cons (kws : list jsstring) (checks : Z) (f : candidate)
    (fs : list candidate) :
  hits_from kws checks (f :: fs)
  = let r := keyword_check kws (c_name f) (c_content f) checks in
    let h := hits_from kws r.2 fs in
    (if r.1.1 then c_entry f r.1.2 :: h.1 else h.1, h.2).
Proof.
  simpl. destruct (keyword_check _ _ _ _) as [[hit pv] ch]. simpl.
  by destruct (hits_from kws ch fs).
Qed.

(** The loop pushes the hits of its candidates until the limit is
    reached. *)
Lemma scan_list_hits (c : scan_config) (n : nat) (fs : list candidate)
    (st : scan_state) :
  whole_number (limit c) (Z.of_nat n) ->
  (length (results st) <= n)%nat ->
  results (scan_list c fs st)
  = results st
    ++ take (n - length (results st)) (hits_from (kws c) (checks st) fs).1.
Proof.
  intros Hn. revert st. induction fs as [|f fs IH]; intros st Hle.
  - simpl. by rewrite take_nil, app_nil_r.
  - cbn [scan_list]. rewrite hits_from_cons. cbn zeta.
    destruct (limit_reached c st) eqn:Hl.
    + apply (limit_reached_whole c _ st Hn) in Hl.
      replace (n - length (results st))%nat with 0%nat by lia.
      by rewrite take_0, app_nil_r.
    + assert (Hlt : (length (results st) < n)%nat).
      { destruct (Nat.lt_ge_cases (length (results st)) n) as [H|H]; [done|].
        assert (limit_reached c st = true); [|congruence].
        apply (limit_reached_whole c _ st Hn). lia. }
      unfold scan_candidate.
      destruct (keyword_check (kws c) (c_name f) (c_content f) (checks st))
        as [[hit pv] ch]. cbn [fst snd].
      destruct hit.
      * rewrite IH by (cbn [results]; rewrite length_app; simpl; lia).
        cbn [results checks]. rewrite length_app. cbn [length].
        rewrite <- app_assoc. f_equal.
        replace (n - length (results st))%nat
          with (S (n - (length (results st) + 1)))%nat by lia.
        reflexivity.
      * rewrite IH by (cbn [results]; lia). reflexivity.
Qed.

(** With a whole number for limit, the returned list holds the first hits
    of the candidates, sorted. *)
Lemma finish_scan_list (c : scan_config) (n : nat) (fs : list candidate) :
  whole_number (limit c) (Z.of_nat n) ->
  finish c (scan_list c fs initial_scan_state)
  = SearchResults
      (sort by_modified_desc (take n (hits_from (kws c) 0 fs).1)).
Proof.
  intros Hn. unfold finish.
  rewrite (scan_list_hits c n fs initial_scan_state Hn) by (simpl; lia).
  cbn [results checks initial_scan_state length app]. rewrite Nat.sub_0_r.
  rewrite (slice_0_whole_number _ (Z.of_nat n)); [reflexivity | exact Hn|].
  rewrite <- (Permutation_length (sort_perm by_modified_desc _)).
  rewrite length_take. lia.
Qed.

Lemma local_results_first_hits (w : world) (p : query) (n : nat)
    (rs : list transcript_file) :
  whole_number (limit_of p) (Z.of_nat n) ->
  findTranscriptsLocal w p = Ok (SearchResults rs) ->
  rs = sort by_modified_desc
         (take n (hits_from (kws (config_of p)) 0 (local_candidates w p)).1).
Proof.
  intros Hn. unfold findTranscriptsLocal, local_candidates.
  destruct (local_root w) as [listing|]; [|discriminate].
  destruct (scanFolder _ _ _ _ _ _) as [st|e] eqn:Es; [|discriminate].
  intros H. apply Ok_inj in H. unfold scanFolder in Es. cbn [Nat.ltb Nat.leb orb] in Es.
  destruct (limit_reached (config_of p) initial_scan_state) eqn:Hl.
  - injection Es as <-.
    rewrite <- (scan_list_reached (config_of p)
                  (match listing with
                   | Ok items =>
                       candidates_of_entries (path_join w) (config_of p) 3
                         (or_default (TRANSCRIPTS_FOLDER w) (lit "./transcripts"))
                         items
                   | Throw _ => []
                   end) initial_scan_state Hl) in H.
    rewrite (finish_scan_list _ n) in H by exact Hn. by injection H.
  - destruct listing as [items|e]; [|discriminate Es].
    apply (proj2 (scan_scan_list (path_join w) (config_of p))) in Es.
    change (3 - 0)%nat with 3%nat in Es. subst st.
    rewrite (finish_scan_list _ n) in H by exact Hn. by injection H.
Qed.

Lemma drive_results_first_hits (w : world) (p : query) (n : nat)
    (rs : list transcript_file) :
  whole_number (limit_of p) (Z.of_nat n) ->
  findTranscriptsGDrive w p = SearchResults rs ->
  rs = sort by_modified_desc
         (take n (hits_from (kws (config_of p)) 0 (drive_candidates w p)).1).
Proof.
  intros Hn. unfold findTranscriptsGDrive, drive_candidates.
  destruct (gdrive_listing w) as [allFiles|e]; [|discriminate].
  rewrite gdriveLoop_scan_list, (finish_scan_list _ n) by exact Hn.
  by intros [= <-].
Qed.

(** The entries the keyword test accepts are the hits of the
    specification. *)
Lemma hits_from_spec (terms : list jsstring) (fs : list candidate) (checks : Z) :
  terms ≠ [] ->
  scan_hits terms checks fs (hits_from (map toLowerCase terms) checks fs).1.
Proof.
  intros Hne. revert checks. induction fs as [|f fs IH]; intros checks.
  - constructor.
  - rewrite hits_from_cons. cbn zeta.
    destruct (keyword_check_cases terms (c_name f) (c_content f) checks Hne)
      as [Hname Hno].
    pose proof (anyKeywordHit_spec (c_name f) terms Hne) as Hdec.
    destruct (anyKeywordHit (c_name f) (map toLowerCase terms)) eqn:En.
    + assert (Hin : some_term_in terms (c_name f)) by (by apply Hdec).
      rewrite (Hname Hin). cbn [fst snd]. by constructor.
    + assert (Hout : ~ some_term_in terms (c_name f)).
      { intros H. apply Hdec in H. discriminate H. }
      destruct (Hno Hout) as [Hmax Hread].
      destruct (Z.lt_ge_cases checks MAX_CONTENT_CHECKS) as [Hc|Hc].
      * destruct (Hread Hc) as [Hthrow Hok].
        destruct (c_content f) as [body|e] eqn:Ec.
        -- destruct (Hok body eq_refl) as [Hy Hn].
           pose proof (anyKeywordHit_spec body terms Hne) as Hb.
           destruct (anyKeywordHit body (map toLowerCase terms)) eqn:Eb.
           ++ assert (Hin : some_term_in terms body) by (by apply Hb).
              rewrite (Hy Hin). cbn [fst snd].
              by apply (hit_by_content terms checks f fs _ body).
           ++ assert (Hnb : ~ some_term_in terms body).
              { intros H. apply Hb in H. discriminate H. }
              rewrite (Hn Hnb). cbn [fst snd].
              by apply (miss_by_content terms checks f fs _ body).
        -- rewrite (Hthrow e eq_refl). cbn [fst snd].
           by apply (miss_unreadable terms checks f fs _ e).
      * rewrite (Hmax Hc). cbn [fst snd]. by apply miss_unchecked.
Qed.

(** ** The keyword rule and the results *)

(** C1 as amended.  A query with at least one term; the terms are the
    words of its keywords parameter.
    - One turn of the local scan for a candidate (an item with a transcript
      extension whose timestamp passes the date filter), reached when
      [checks] contents have been read: the scan pushes an entry for the
      candidate if and only if a term is a case-insensitive substring of its
      name, or no term is, [checks < 200], and a term is a case-insensitive
      substring of its content; otherwise [results] is left as it was.
    - The results of the query, when the limit is a whole number [n]: the
      returned list holds exactly the first [n] hits among the candidates of
      the transcripts folder, taken in the order of the scan; so a candidate
      for which the rule holds is included if and only if fewer than [n] hits
      stand before it. *)
Theorem keyword_match_rule (w : world) (p : query) (terms : list jsstring) :
  let c := config_of p in
  words_of (or_default (q_keywords p) []) terms -> terms ≠ [] ->
  (forall itemPath item mtime content st,
      let nameMs := or_ms (parseNameTimestampMs item) mtime in
      let st' := scanFile c itemPath item mtime content st in
      hasAllowedTranscriptExt item = true -> in_window c nameMs ->
      ((exists tf, results st' = results st ++ [tf]
                   /\ id tf = itemPath /\ name tf = item)
       <-> keyword_rule terms item content (checks st))
      /\ (~ keyword_rule terms item content (checks st) ->
          results st' = results st))
  /\ (forall (n : nat) rs,
        whole_number (limit_of p) (Z.of_nat n) ->
        findTranscriptsLocal w p = Ok (SearchResults rs) ->
        exists hits,
          scan_hits terms 0 (local_candidates w p) hits
          /\ Permutation rs (take n hits)).
Proof.
  intros c Hwords Hne.
  assert (Hk : kws c = map toLowerCase terms)
    by (exact (keywords_of_words (q_keywords p) terms Hwords)).
  split.
  - intros itemPath item mtime content st nameMs st' Hext [Hfrom Hto].
    subst st'. unfold scanFile. rewrite Hext. cbn [negb].
    fold nameMs. rewrite Hfrom, Hto, Hk.
    pose proof (keyword_check_spec terms item content (checks st) Hne) as Hrule.
    destruct (keyword_check _ _ _ _) as [[hit pv] ch].
    cbn [fst snd] in Hrule. destruct hit; cbn [results].
    + assert (Hr : keyword_rule terms item content (checks st))
        by (by apply Hrule).
      split; [|by intros Hn; destruct Hn].
      split; [by intros _|]. intros _. eexists. split; [reflexivity|]. by split.
    + assert (Hr : ~ keyword_rule terms item content (checks st)).
      { intros H. apply Hrule in H. discriminate H. }
      split; [|by intros _].
      split; [|by intros H; destruct Hr].
      intros (tf & E & _). apply (f_equal length) in E.
      rewrite length_app in E. simpl in E. lia.
  - intros n rs Hn Hfind.
    apply (local_results_first_hits w p n rs Hn) in Hfind.
    fold c in Hfind. rewrite Hk in Hfind.
    exists (hits_from (map toLowerCase terms) 0 (local_candidates w p)).1.
    split; [by apply hits_from_spec|].
    rewrite Hfind. symmetry. apply sort_perm.
Qed.

(** X4: the same for the Drive search.  One turn of its loop for a file the
    date filter keeps pushes an entry exactly when the rule holds, and with a
    whole number [n] for limit the returned list holds exactly the first [n]
    hits among the candidates of the listing. *)
Theorem gdrive_keyword_match_rule (w : world) (p : query)
    (terms : list jsstring) :
  let c := config_of p in
  words_of (or_default (q_keywords p) []) terms -> terms ≠ [] ->
  (forall now0 f st,
      let st' := gdriveFile now0 c f st in
      gdrive_excluded c (gdrive_nameMs now0 f) = false ->
      ((exists tf, results st' = results st ++ [tf] /\ name tf = f_name f)
       <-> keyword_rule terms (f_name f) (f_content f) (checks st))
      /\ (~ keyword_rule terms (f_name f) (f_content f) (checks st) ->
          results st' = results st))
  /\ (forall (n : nat) rs,
        whole_number (limit_of p) (Z.of_nat n) ->
        findTranscriptsGDrive w p = SearchResults rs ->
        exists hits,
          scan_hits terms 0 (drive_candidates w p) hits
          /\ Permutation rs (take n hits)).
Proof.
  intros c Hwords Hne.
  assert (Hk : kws c = map toLowerCase terms)
    by (exact (keywords_of_words (q_keywords p) terms Hwords)).
  split.
  - intros now0 f st st' Hexc. subst st'. unfold gdriveFile.
    rewrite Hexc, Hk.
    pose proof (keyword_check_spec terms (f_name f) (f_content f) (checks st) Hne)
      as Hrule.
    destruct (keyword_check _ _ _ _) as [[hit pv] ch].
    cbn [fst snd] in Hrule. destruct hit; cbn [results].
    + assert (Hr : keyword_rule terms (f_name f) (f_content f) (checks st))
        by (by apply Hrule).
      split; [|by intros Hn; destruct Hn].
      split; [by intros _|]. intros _. eexists. split; reflexivity.
    + assert (Hr : ~ keyword_rule terms (f_name f) (f_content f) (checks st)).
      { intros H. apply Hrule in H. discriminate H. }
      split; [|by intros _].
      split; [|by intros H; destruct Hr].
      intros (tf & E & _). apply (f_equal length) in E.
      rewrite length_app in E. simpl in E. lia.
  - intros n rs Hn Hfind.
    apply (drive_results_first_hits w p n rs Hn) in Hfind.
    fold c in Hfind. rewrite Hk in Hfind.
    exists (hits_from (map toLowerCase terms) 0 (drive_candidates w p)).1.
    split; [by apply hits_from_spec|].
    rewrite Hfind. symmetry. apply sort_perm.
Qed.

(** ** The preview of a content match *)

Lemma blank_app (a b : jsstring) : blank (a ++ b) <-> blank a /\ blank b.
Proof. apply Forall_app. Qed.

Lemma not_blank_has_nonspace (s : jsstring) :
  ~ blank s -> exists c, c ∈ s /\ is_space c = false.
Proof.
  induction s as [|x s IH]; intros H.
  - destruct H. constructor.
  - destruct (is_space x) eqn:Ex.
    + destruct IH as (c & Hc & Hs).
      * intros Hb. apply H. by constructor.
      * exists c. split; [by right | exact Hs].
    + exists x. split; [by left | exact Ex].
Qed.

(** A word is not blank. *)
Lemma word_not_blank (w : jsstring) :
  w ≠ [] -> Forall (fun c => is_sep c = false) w -> ~ blank w.
Proof.
  intros Hne Hw Hb. destruct w as [|c w]; [done|].
  apply Forall_inv in Hw, Hb. unfold is_sep in Hw. rewrite Hb in Hw.
  by rewrite orb_true_r in Hw.
Qed.

(** [makePreview] of a text in which a term occurs is not empty, when
    lower-casing neither makes nor removes white space. *)
Lemma makePreview_nonempty (s : jsstring) (terms : list jsstring)
    (body : jsstring) (maxLen : nat) :
  (forall t, blank (toLowerCase t) <-> blank t) ->
  words_of s terms ->
  some_term_in terms body -> makePreview body maxLen ≠ [].
Proof.
  intros Hlow Hwords (w & Hw & pre & post & E).
  pose proof (proj1 (Forall_forall _ _) (words_of_words s terms Hwords) w Hw)
    as [Hne Hsep].
  assert (Hbody : ~ blank body).
  { intros Hb. apply (proj2 (Hlow body)) in Hb. rewrite E in Hb.
    apply blank_app in Hb as [_ Hb]. apply blank_app in Hb as [Hb _].
    apply (proj1 (Hlow w)) in Hb. by apply (word_not_blank w). }
  destruct (not_blank_has_nonspace body Hbody) as (b & Hin & Hbs).
  assert (Ht : b ∈ trim (collapse_spaces body)).
  { apply trim_keeps; [|exact Hbs]. by apply collapse_from_keeps. }
  unfold makePreview.
  destruct (maxLen <? length (trim (collapse_spaces body)))%nat.
  - unfold CLIP_SUFFIX. intros H. by apply app_eq_nil in H as [_ [=]].
  - intros H. rewrite H in Ht. by apply elem_of_nil in Ht.
Qed.

(** X3: the preview the keyword test attaches: none for a match on the
    name, [makePreview(body, 500)] for a match on the content; that preview
    is not empty when lower-casing neither makes nor removes white space, so
    that a match has a preview exactly when it came from the content. *)
Theorem keyword_check_preview (keywords : option jsstring)
    (terms : list jsstring) (name : jsstring) (content : result jsstring)
    (checks : Z) :
  let r := keyword_check (keywords_of keywords) name content checks in
  words_of (or_default keywords []) terms -> terms ≠ [] ->
  (forall t, blank (toLowerCase t) <-> blank t) ->
  (some_term_in terms name -> r.1.1 = true /\ r.1.2 = [])
  /\ (forall body,
        ~ some_term_in terms name -> checks < MAX_CONTENT_CHECKS ->
        content = Ok body -> some_term_in terms body ->
        r.1.1 = true /\ r.1.2 = makePreview body 500 /\ r.1.2 ≠ [])
  /\ (r.1.1 = true -> (r.1.2 ≠ [] <-> ~ some_term_in terms name)).
Proof.
  intros r Hwords Hne Hlow. subst r.
  rewrite (keywords_of_words keywords terms Hwords).
  destruct (keyword_check_cases terms name content checks Hne) as [Hname Hno].
  pose proof (anyKeywordHit_spec name terms Hne) as Hdec.
  destruct (anyKeywordHit name (map toLowerCase terms)) eqn:En.
  - assert (Hin : some_term_in terms name) by (by apply Hdec).
    rewrite (Hname Hin). cbn [fst snd].
    split; [done|]. split; [by intros body Hout; destruct Hout|].
    intros _. split; [done | by intros H; destruct H].
  - assert (Hout : ~ some_term_in terms name).
    { intros H. apply Hdec in H. discriminate H. }
    split; [by intros H; destruct Hout|].
    destruct (Hno Hout) as [Hmax Hread]. split.
    + intros body _ Hc Hcontent Hb.
      destruct (Hread Hc) as [_ Hok]. destruct (Hok body Hcontent) as [Hy _].
      rewrite (Hy Hb). cbn [fst snd]. repeat split.
      by apply (makePreview_nonempty (or_default keywords []) terms).
    + destruct (Z.lt_ge_cases checks MAX_CONTENT_CHECKS) as [Hc|Hc].
      * destruct (Hread Hc) as [Hthrow Hok]. destruct content as [body|e].
        -- destruct (Hok body eq_refl) as [Hy Hn].
           pose proof (anyKeywordHit_spec body terms Hne) as Hb.
           destruct (anyKeywordHit body (map toLowerCase terms)) eqn:Eb.
           ++ assert (Hin : some_term_in terms body) by (by apply Hb).
              rewrite (Hy Hin). cbn [fst snd]. intros _.
              split; [done|]. intros _.
              by apply (makePreview_nonempty (or_default keywords []) terms).
           ++ assert (Hnb : ~ some_term_in terms body).
              { intros H. apply Hb in H. discriminate H. }
              rewrite (Hn Hnb). cbn [fst snd]. discriminate.
        -- rewrite (Hthrow e eq_refl). cbn [fst snd]. discriminate.
      * rewrite (Hmax Hc). cbn [fst snd]. discriminate.
Qed.

(** ** The list of keywords, again *)

(** X20: the keywords are the words of the parameter, in their order,
    lower-cased: its longest runs of characters that are neither commas nor
    white space (the trim in between changes nothing).  The parameter has no
    other list of words, and a word is never empty and holds no comma and no
    white space. *)
Theorem keywords_are_lowercase_words (keywords : option jsstring) :
  exists ws,
    words_of (or_default keywords []) ws
    /\ (forall ws', words_of (or_default keywords []) ws' -> ws' = ws)
    /\ keywords_of keywords = map toLowerCase ws
    /\ Forall (fun w => w ≠ [] /\ Forall (fun c => is_sep c = false) w) ws.
Proof.
  pose proof (words_of_total (or_default keywords [])) as H.
  eexists. split; [exact H|]. split; [|split].
  - intros ws' H'. symmetry. by apply words_of_split.
  - by apply keywords_of_words.
  - by apply (words_of_words (or_default keywords [])).
Qed.

(** ** The depth of the scan, from below *)

(** A candidate that matches by its name, or any candidate when there are
    no keywords, is among the entries the keyword test accepts. *)
Lemma hits_from_by_name (kws : list jsstring) (f : candidate)
    (fs : list candidate) (checks : Z) :
  f ∈ fs ->
  kws = [] \/ anyKeywordHit (c_name f) kws = true ->
  c_entry f [] ∈ (hits_from kws checks fs).1.
Proof.
  intros Hin Hhit. revert checks.
  induction fs as [|g fs IH]; intros checks; [by apply elem_of_nil in Hin|].
  rewrite hits_from_cons. cbn zeta. cbn [fst].
  apply elem_of_cons in Hin as [<-|Hin].
  - assert (E : keyword_check kws (c_name f) (c_content f) checks
                = (true, [], checks)).
    { unfold keyword_check. destruct Hhit as [->|Hhit]; [reflexivity|].
      rewrite Hhit. by destruct (nonempty kws). }
    rewrite E. cbn [fst snd]. by left.
  - destruct (keyword_check kws (c_name g) (c_content g) checks).1.1;
      [right|]; by apply IH.
Qed.

(** X18: the local search reads the transcripts folder and three levels of
    subfolders, no less and no more.
    - A folder of the fourth level is not read: whatever it holds, and
      whether it can be listed or not, the search gives what it gives when
      that folder is empty.
    - What lies within three levels is read: when the limit is a whole
      number and fewer entries are returned, every candidate of the folder
      and of three levels of subfolders that matches by its name, and every
      candidate when there are no keywords, has its entry in the returned
      list. *)
Theorem deep_folders_are_not_read (w : world) (p : query) :
  findTranscriptsLocal (with_local_root (pruned_root (local_root w)) w) p
  = findTranscriptsLocal w p
  /\ (forall (n : nat) rs f,
        whole_number (limit_of p) (Z.of_nat n) ->
        findTranscriptsLocal w p = Ok (SearchResults rs) ->
        (length rs < n)%nat ->
        f ∈ local_candidates w p ->
        (Forall (fun c => is_sep c = true) (or_default (q_keywords p) [])
         \/ exists terms, words_of (or_default (q_keywords p) []) terms
                          /\ some_term_in terms (c_name f)) ->
        c_entry f [] ∈ rs).
Proof.
  split.
  - unfold findTranscriptsLocal, with_local_root, pruned_root.
    cbn [local_root TRANSCRIPTS_FOLDER path_join].
    destruct (local_root w) as [[items|e]|]; try reflexivity.
    unfold scanFolder.
    destruct ((3 <? 0)%nat || limit_reached (config_of p) initial_scan_state);
      [reflexivity|].
    by rewrite (proj2 (scan_prune (path_join w) (config_of p)) items _ 0%nat).
  - intros n rs f Hn Hfind Hlen Hin Hhit.
    apply (local_results_first_hits w p n rs Hn) in Hfind.
    set (hits := (hits_from (kws (config_of p)) 0 (local_candidates w p)).1) in *.
    assert (Hf : c_entry f [] ∈ hits).
    { apply hits_from_by_name; [exact Hin|].
      destruct Hhit as [Hblank|(terms & Hwords & Hterm)].
      - left. cbn [kws config_of]. rewrite keywords_of_pieces. unfold split_seps.
        by rewrite (proj2 (split_go_all_empty (or_default (q_keywords p) [])
                             false []) (conj eq_refl Hblank)).
      - right. cbn [kws config_of].
        rewrite (keywords_of_words (q_keywords p) terms Hwords).
        apply anyKeywordHit_spec; [|exact Hterm].
        intros ->. destruct Hterm as (x & Hx & _). by apply elem_of_nil in Hx. }
    assert (Hall : take n hits = hits).
    { apply take_ge.
      rewrite Hfind, <- (Permutation_length (sort_perm by_modified_desc _)),
        length_take in Hlen. lia. }
    rewrite Hfind, Hall. by rewrite <- (sort_perm by_modified_desc hits).
Qed.

(** ** The order and the number of the results *)

Section Stable.
Context {A : Type} (cmp : A -> A -> comparison).
Hypothesis cmp_consistent : consistent_comparator cmp.

Lemma equal_elements (x a y : A) :
  cmp x a = Eq -> cmp x y = Eq -> cmp a y = Eq.
Proof.
  destruct cmp_consistent as [Hanti Htrans]. intros Ha Hy.
  assert (Hax : cmp a x = Eq) by (by rewrite Hanti, Ha).
  assert (Hyx : cmp y x = Eq) by (by rewrite Hanti, Hy).
  assert (H1 : cmp a y ≠ Gt) by (apply (Htrans a x y); congruence).
  assert (H2 : cmp y a ≠ Gt) by (apply (Htrans y x a); congruence).
  rewrite (Hanti a y) in H2. destruct (cmp a y); simpl in *; congruence.
Qed.

Lemma sort_insert_equals (x a : A) (l : list A) :
  List.filter (is_equal cmp x) (sort_insert cmp a l)
  = List.filter (is_equal cmp x) (a :: l).
Proof.
  induction l as [|y l IH]; [reflexivity|]. cbn [sort_insert].
  destruct (cmp a y) eqn:E; try reflexivity.
  cbn [List.filter] in *. rewrite IH. unfold is_equal.
  destruct (cmp x a) eqn:Ea; destruct (cmp x y) eqn:Ey; try reflexivity.
  rewrite (equal_elements x a y Ea Ey) in E. discriminate E.
Qed.

(** [sort] keeps the elements that compare equal in their order. *)
Lemma sort_stable (l : list A) : keeps_equals_in_order cmp l (sort cmp l).
Proof.
  intros x. induction l as [|a l IH]; [reflexivity|].
  cbn [sort foldr]. fold (sort cmp l). rewrite sort_insert_equals.
  cbn [List.filter]. by rewrite IH.
Qed.

Lemma sort_strongly_sorted (l : list A) :
  StronglySorted (in_order cmp) (sort cmp l).
Proof.
  destruct cmp_consistent as [Hanti Htrans].
  apply Sorted_StronglySorted.
  - intros x y z. apply Htrans.
  - apply sort_sorted. exact Hanti.
Qed.
End Stable.

Lemma by_modified_desc_consistent :
  consistent_comparator localeCompare -> consistent_comparator by_modified_desc.
Proof.
  intros [Hanti Htrans]. unfold by_modified_desc. split.
  - intros x y. apply Hanti.
  - intros x y z Hxy Hyz. by apply (Htrans _ (modified y)).
Qed.

Lemma StronglySorted_impl_in {A : Type} (R R' : A -> A -> Prop) (l : list A) :
  (forall x y, x ∈ l -> y ∈ l -> R x y -> R' x y) ->
  StronglySorted R l -> StronglySorted R' l.
Proof.
  intros HR H. induction H as [|x l Hs IH Hall].
  - constructor.
  - constructor.
    + apply IH. intros a b Ha Hb. apply HR; by right.
    + apply Forall_forall. intros y Hy.
      apply HR; [by left | by right|].
      by apply (proj1 (Forall_forall _ _) Hall).
Qed.

(** The list [finish] returns is sorted for the comparator of the source. *)
Lemma finish_sorted (c : scan_config) (st : scan_state) (rs : list transcript_file) :
  consistent_comparator localeCompare ->
  finish c st = SearchResults rs ->
  StronglySorted (in_order by_modified_desc) rs.
Proof.
  intros Hc. unfold finish. intros [= <-].
  pose proof (sort_strongly_sorted by_modified_desc
                (by_modified_desc_consistent Hc) (results st)) as Hs.
  unfold slice_0. destruct (limit c) as [| | |q]; try constructor; try exact Hs.
  destruct (_ <? 0); by apply StronglySorted_take.
Qed.

(** C2 as amended: [limit] is [Math.min(Number(p.limit || 10), 50)], that
    is 10 when the parameter is absent or empty, and never more than 50.
    The list a search returns has at most that many elements when the
    number is not negative, and is empty when it is negative or not a
    number.  When [localeCompare] is a consistent comparator the list is
    sorted by [modified], descending, in the order of [localeCompare]; this
    is the descending lexicographic order of the strings when
    [localeCompare] orders the [modified] strings of the list as their code
    units do.  This holds for the local and for the Drive search. *)
Theorem results_bounded_and_sorted (w : world) (p : query)
    (rs : list transcript_file) :
  findTranscripts w p = Ok (SearchResults rs) ->
  (or_default (q_limit p) [] = [] -> limit_of p = num_of_Z 10)
  /\ match limit_of p with
     | Num q =>
         (q <= 50)%Q
         /\ ((0 <= q)%Q -> length_le (length rs) (Num q))
         /\ ((q < 0)%Q -> rs = [])
     | PosInf => False
     | _ => rs = []
     end
  /\ (consistent_comparator localeCompare ->
      StronglySorted
        (fun a b => localeCompare (modified b) (modified a) ≠ Gt) rs
      /\ ((forall a b, a ∈ rs -> b ∈ rs ->
             (localeCompare (modified a) (modified b) ≠ Gt
              <-> lex_le (modified a) (modified b))) ->
          sorted_by_modified_desc rs)).
Proof.
  intros Hfind.
  assert (Hfin : exists st,
             finish (config_of p) st = SearchResults rs
             /\ (limit_reached (config_of p) initial_scan_state = true ->
                 st = initial_scan_state)).
  { unfold findTranscripts in Hfind. destruct (useGoogleDrive w).
    - unfold findTranscriptsGDrive in Hfind.
      destruct (gdrive_listing w) as [allFiles|err]; [|discriminate].
      eexists. split; [by apply Ok_inj|].
      apply gdriveLoop_limit_reached.
    - unfold findTranscriptsLocal in Hfind.
      destruct (local_root w) as [listing|]; [|discriminate].
      destruct (scanFolder _ _ _ _ _ _) as [st|err] eqn:Es; [|discriminate].
      exists st. split; [by apply Ok_inj|].
      intros Hl. rewrite scanFolder_limit_reached in Es by exact Hl.
      by injection Es as <-. }
  destruct Hfin as (st & Hfin & Hinit).
  split; [|split].
  - unfold limit_of, Number_or, or_default.
    destruct (q_limit p) as [[|x s]|]; try reflexivity. discriminate.
  - pose proof (limit_of_le_50 p) as H50.
    pose proof (finish_count (config_of p) st Hinit) as Hc.
    change (limit (config_of p)) with (limit_of p) in Hc.
    destruct (limit_of p) as [| | |q]; try exact H50.
    + rewrite Hfin in Hc. by injection Hc.
    + rewrite Hfin in Hc. by injection Hc.
    + destruct Hc as (rs' & Hrs & Hpos & Hneg). rewrite Hfin in Hrs.
      injection Hrs as <-. by repeat split.
  - intros Hcons.
    pose proof (finish_sorted (config_of p) st rs Hcons Hfin) as Hs.
    split; [exact Hs|]. intros Hunits.
    apply (StronglySorted_impl_in (in_order by_modified_desc)); [|exact Hs].
    intros a b Ha Hb Hab. by apply Hunits.
Qed.

(** ** The scan and the returned list *)

(** X5: when the limit is a whole number that is not negative (the default
    10 is one) and [localeCompare] is a consistent comparator, the final
    [slice] drops nothing: the list a search returns holds the entries the
    scan has pushed, each once, in descending order of [modified] for
    [localeCompare], those with the same [modified] in the order in which the
    scan pushed them. *)
Theorem returned_list_is_scan_sorted (w : world) (p : query) (n : nat) :
  whole_number (limit_of p) (Z.of_nat n) ->
  consistent_comparator localeCompare ->
  (useGoogleDrive w = false ->
   forall listing st,
     local_root w = Some listing ->
     scanFolder (path_join w) (config_of p)
       (or_default (TRANSCRIPTS_FOLDER w) (lit "./transcripts")) 0 listing
       initial_scan_state = Ok st ->
     exists rs,
       findTranscripts w p = Ok (SearchResults rs)
       /\ Permutation (results st) rs
       /\ StronglySorted
            (fun a b => localeCompare (modified b) (modified a) ≠ Gt) rs
       /\ keeps_equals_in_order by_modified_desc (results st) rs)
  /\ (useGoogleDrive w = true ->
      forall allFiles,
        gdrive_listing w = Ok allFiles ->
        let st := gdriveLoop (now w) (config_of p)
                    (filter (fun f => is_transcript_file f = true) allFiles)
                    initial_scan_state in
        exists rs,
          findTranscripts w p = Ok (SearchResults rs)
          /\ Permutation (results st) rs
          /\ StronglySorted
               (fun a b => localeCompare (modified b) (modified a) ≠ Gt) rs
          /\ keeps_equals_in_order by_modified_desc (results st) rs).
Proof.
  intros Hn Hcons.
  pose proof (by_modified_desc_consistent Hcons) as Hby.
  assert (Hfin : forall fs,
            let st := scan_list (config_of p) fs initial_scan_state in
            finish (config_of p) st
            = SearchResults (sort by_modified_desc (results st))).
  { intros fs st. unfold finish.
    rewrite (slice_0_whole_number _ (Z.of_nat n)); [reflexivity | exact Hn|].
    rewrite <- (Permutation_length (sort_perm by_modified_desc _)).
    subst st.
    rewrite (scan_list_hits (config_of p) n fs initial_scan_state Hn) by (simpl; lia).
    cbn [results initial_scan_state app]. rewrite length_take. lia. }
  assert (Hsorted : forall l,
            Permutation l (sort by_modified_desc l)
            /\ StronglySorted
                 (fun a b => localeCompare (modified b) (modified a) ≠ Gt)
                 (sort by_modified_desc l)
            /\ keeps_equals_in_order by_modified_desc l (sort by_modified_desc l)).
  { intros l. split; [apply sort_perm|]. split.
    - exact (sort_strongly_sorted by_modified_desc Hby l).
    - exact (sort_stable by_modified_desc Hby l). }
  split.
  - intros Hg listing st Hroot Hscan.
    exists (sort by_modified_desc (results st)). split; [|apply Hsorted].
    unfold findTranscripts, findTranscriptsLocal. rewrite Hg, Hroot, Hscan.
    f_equal. unfold scanFolder in Hscan. cbn [Nat.ltb Nat.leb orb] in Hscan.
    destruct (limit_reached (config_of p) initial_scan_state) eqn:Hl.
    + injection Hscan as <-.
      rewrite <- (scan_list_reached (config_of p) [] initial_scan_state Hl).
      apply Hfin.
    + destruct listing as [items|e]; [|discriminate Hscan].
      apply (proj2 (scan_scan_list (path_join w) (config_of p))) in Hscan.
      subst st. apply Hfin.
  - intros Hg allFiles Hl st.
    exists (sort by_modified_desc (results st)). split; [|apply Hsorted].
    unfold findTranscripts, findTranscriptsGDrive. rewrite Hg, Hl.
    f_equal. fold st. subst st. rewrite gdriveLoop_scan_list. apply Hfin.
Qed.

(** ** The listing of the Drive folder, from below *)

Lemma listed_in_entries (levels : nat) (pages : drive_pages) (f : drive_file) :
  listed_in levels pages f
  <-> exists g children,
        DriveEntry g children ∈ entries_of_pages pages
        /\ ((f = g /\ f_mimeType g ≠ FOLDER_MIME)
            \/ (f_mimeType g = FOLDER_MIME
                /\ exists k, levels = S k /\ listed_in k children f)).
Proof.
  split.
  - intros H. destruct H as [levels pages children f Hin Hn
                            |levels pages children g f Hin Hf Hl].
    + exists f, children. split; [exact Hin|]. by left.
    + exists g, children. split; [exact Hin|]. right. split; [exact Hf|].
      by exists levels.
  - intros (g & children & Hin & [[-> Hn]|(Hf & k & -> & Hl)]).
    + by apply (listed_here _ _ children).
    + by apply (listed_below _ _ children g).
Qed.

(** What the listing holds: the files within the levels that are left. *)
Lemma listing_listed :
  (forall entry depth l,
      listEntry depth entry = Ok l ->
      forall f, f ∈ l
        <-> match entry with
            | DriveEntry g children =>
                (f = g /\ f_mimeType g ≠ FOLDER_MIME)
                \/ (f_mimeType g = FOLDER_MIME
                    /\ exists k, (3 - depth)%nat = S k /\ listed_in k children f)
            end)
  /\ (forall pages depth l,
        listPages depth pages = Ok l ->
        forall f, f ∈ l <-> listed_in (3 - depth) pages f)
  /\ (forall files depth l,
        listEntries depth files = Ok l ->
        forall f, f ∈ l
          <-> exists g children,
                DriveEntry g children ∈ entries_list files
                /\ ((f = g /\ f_mimeType g ≠ FOLDER_MIME)
                    \/ (f_mimeType g = FOLDER_MIME
                        /\ exists k, (3 - depth)%nat = S k
                                     /\ listed_in k children f))).
Proof.
  apply drive_ind.
  - intros g children IH depth l. cbn [listEntry].
    case_bool_decide as Hm.
    + destruct (3 <? S depth)%nat eqn:E.
      * apply Nat.ltb_lt in E. intros [= <-] f. split.
        -- intros H. by apply elem_of_nil in H.
        -- intros [[_ Hn]|(_ & k & Hk & _)]; [done | lia].
      * apply Nat.ltb_ge in E. intros H f. rewrite (IH _ _ H f). split.
        -- intros Hl. right. split; [exact Hm|].
           exists (3 - S depth)%nat. split; [lia | exact Hl].
        -- intros [[_ Hn]|(_ & k & Hk & Hl)]; [done|].
           by replace (3 - S depth)%nat with k by lia.
    + intros [= <-] f. rewrite list_elem_of_singleton. split.
      * intros ->. by left.
      * by intros [[-> _]|(Hf & _)].
  - intros e depth l H. discriminate H.
  - intros files IH depth l H f. rewrite (IH _ _ H f).
    by rewrite listed_in_entries.
  - intros files IHf next IHn depth l H f. cbn [listPages] in H.
    apply result_app_Ok in H as (x & y & Hx & Hy & ->).
    rewrite elem_of_app, (IHf _ _ Hx f), (IHn _ _ Hy f).
    rewrite !listed_in_entries. cbn [entries_of_pages]. split.
    + intros [(g & ch & Hin & H)|(g & ch & Hin & H)]; exists g, ch;
        (split; [apply elem_of_app; auto | exact H]).
    + intros (g & ch & Hin & H). apply elem_of_app in Hin as [Hin|Hin];
        [left | right]; by exists g, ch.
  - intros depth l [= <-] f. split.
    + intros H. by apply elem_of_nil in H.
    + intros (g & ch & Hin & _). by apply elem_of_nil in Hin.
  - intros entry IHe rest IHr depth l H f. cbn [listEntries] in H.
    apply result_app_Ok in H as (x & y & Hx & Hy & ->).
    rewrite elem_of_app, (IHe _ _ Hx f), (IHr _ _ Hy f).
    cbn [entries_list]. destruct entry as [g0 ch0]. split.
    + intros [H|(g & ch & Hin & H)].
      * exists g0, ch0. split; [by left | exact H].
      * exists g, ch. split; [by right | exact H].
    + intros (g & ch & Hin & H). apply elem_of_cons in Hin as [[= -> ->]|Hin].
      * by left.
      * right. by exists g, ch.
Qed.

(** X27: [gdriveListAllFiles] lists the files of the Drive folder and of
    three levels of subfolders, page after page, no less and no more: a file
    is in the listing exactly when it is within three levels of the folder
    and is no folder.  So a folder of the fourth level is not listed:
    whatever it holds, and whether its listing fails or not, the result is
    what it is when that folder is empty. *)
Theorem drive_listing_holds_no_folder (root : drive_pages) :
  (forall allFiles,
      gdriveListAllFiles root 0 = Ok allFiles ->
      (forall f, f ∈ allFiles <-> listed_in 3 root f)
      /\ Forall (fun f => f ∈ files_of_pages root /\ f_mimeType f ≠ FOLDER_MIME)
           allFiles)
  /\ gdriveListAllFiles (prune_pages 3 root) 0 = gdriveListAllFiles root 0.
Proof.
  split.
  - intros allFiles H. split.
    + exact (proj1 (proj2 listing_listed) root 0%nat allFiles H).
    + exact (proj1 (proj2 listing_files) root 0%nat allFiles H).
  - exact (proj1 (proj2 listing_prune) root 0%nat).
Qed.

End Server.

(** * The properties on the data of the scenario *)

#[local] Existing Instance example_runtime.

(** ** The runtime of the scenarios *)

Lemma compare_units_opp (a b : jsstring) :
  compare_units b a = CompOpp (compare_units a b).
Proof.
  revert b. induction a as [|x a IH]; intros [|y b]; try reflexivity.
  simpl. rewrite (N.compare_antisym x y).
  destruct (x ?= y)%N; simpl; [apply IH | reflexivity | reflexivity].
Qed.

(** [compare_units] is the lexicographic order of the code units. *)
Lemma compare_units_lex_le (a b : jsstring) :
  compare_units a b ≠ Gt <-> lex_le a b.
Proof.
  revert b. induction a as [|x a IH]; intros [|y b]; simpl.
  - split; [constructor | discriminate].
  - split; [constructor | discriminate].
  - split; [by intros H | inversion 1].
  - destruct (x ?= y)%N eqn:E.
    + apply N.compare_eq in E as ->. rewrite IH. split.
      * by constructor.
      * inversion 1; subst; [lia | done].
    + apply N.compare_lt_iff in E. split; [by constructor | discriminate].
    + apply N.compare_gt_iff in E. split; [by intros H|].
      inversion 1; subst; lia.
Qed.

Lemma compare_units_consistent : consistent_comparator compare_units.
Proof.
  split.
  - intros x y. apply compare_units_opp.
  - intros x y z. rewrite !compare_units_lex_le. apply lex_le_trans.
Qed.

(** The lower-casing of the scenarios neither makes nor removes white space. *)
Lemma example_lower_blank (t : jsstring) :
  blank (map example_lower_unit t) <-> blank t.
Proof.
  unfold blank. rewrite Forall_map. apply Forall_iff. intros c. simpl.
  unfold example_lower_unit.
  destruct ((65 <=? c) && (c <=? 90))%N eqn:E; [|done].
  apply andb_true_iff in E as [E1 E2].
  apply N.leb_le in E1. apply N.leb_le in E2.
  rewrite !is_space_false_range by lia. done.
Qed.

(** ** The search scenario *)

Lemma budget_words : words_of (lit "budget") [lit "budget"].
Proof. exact (words_of_total (lit "budget")). Qed.

(** The scenario of the specification: [budget] is not in the name of
    [2024-01-05 10.00.00 notes.txt] but in its content, so the turn of the
    scan pushes the file, and the search returns the first ten hits, here
    the only one. *)
Lemma keyword_match_rule_witness :
  (exists tf,
      results (scanFile (config_of example_search)
                 (lit "transcripts/2024-01-05 10.00.00 notes.txt")
                 example_notes_name 0 (Ok example_notes_body)
                 initial_scan_state)
      = [tf] /\ name tf = example_notes_name)
  /\ (exists tf hits,
        findTranscriptsLocal example_search_world example_search
        = Ok (SearchResults [tf])
        /\ name tf = example_notes_name
        /\ scan_hits [lit "budget"] 0
             (local_candidates example_search_world example_search) hits
        /\ Permutation [tf] (take 10 hits)).
Proof.
  destruct (keyword_match_rule (runtime := example_runtime)
              example_search_world example_search [lit "budget"]
              budget_words ltac:(discriminate)) as [Hturn Hquery].
  split.
  - destruct (Hturn (lit "transcripts/2024-01-05 10.00.00 notes.txt")
                example_notes_name 0 (Ok example_notes_body) initial_scan_state
                eq_refl (conj eq_refl eq_refl)) as [[_ H] _].
    destruct H as (tf & Hr & _ & Hn).
    + right. split; [|split].
      * intros Hin.
        apply (anyKeywordHit_spec example_notes_name [lit "budget"]) in Hin;
          [|discriminate].
        vm_compute in Hin. discriminate Hin.
      * reflexivity.
      * exists example_notes_body. split; [reflexivity|].
        apply anyKeywordHit_spec; [discriminate|]. reflexivity.
    + exists tf. split; [exact Hr | exact Hn].
  - eexists.
    destruct (Hquery 10%nat _ ltac:(vm_compute; reflexivity)
                ltac:(vm_compute; reflexivity)) as (hits & Hhits & Hperm).
    exists hits. split; [vm_compute; reflexivity|].
    split; [reflexivity|]. split; [exact Hhits | exact Hperm].
Defined.

(** C1 as stated fails when the limit ends the scan: with [limit=1] and the
    term [2024], both files of the scenario hold the term in their names,
    and the search returns the first one only; the second is a candidate
    for which the rule holds and which is not in the results. *)
Lemma limit_cuts_matches_counterexample :
  exists rs f,
    findTranscripts example_search_world example_limit_one
    = Ok (SearchResults rs)
    /\ words_of (or_default (q_keywords example_limit_one) []) [lit "2024"]
    /\ f ∈ local_candidates example_search_world example_limit_one
    /\ c_name f = lit "2024-02-01 09.00.00 other.txt"
    /\ keyword_rule [lit "2024"] (c_name f) (c_content f) 0
    /\ ~ (exists tf, tf ∈ rs /\ name tf = c_name f).
Proof.
  eexists _, _.
  split; [vm_compute; reflexivity|].
  split; [exact (words_of_total (lit "2024"))|].
  split.
  { apply list_elem_of_In. vm_compute. right. left. reflexivity. }
  split; [reflexivity|].
  split.
  - left. apply anyKeywordHit_spec; [discriminate|]. reflexivity.
  - intros (tf & Hin & Hname).
    apply list_elem_of_singleton in Hin. subst tf. discriminate Hname.
Qed.

(** The scenario of the specification, with the default limit: one result,
    within the limit of 10 and sorted. *)
Lemma results_bounded_and_sorted_witness :
  exists tf,
    findTranscripts example_search_world example_search = Ok (SearchResults [tf])
    /\ limit_of example_search = num_of_Z 10
    /\ length_le 1 (num_of_Z 10)
    /\ sorted_by_modified_desc [tf].
Proof.
  eexists.
  assert (E : findTranscripts example_search_world example_search
              = Ok (SearchResults
                      [{| id := lit "transcripts/2024-01-05 10.00.00 notes.txt";
                          name := example_notes_name;
                          mimeType := lit "text/plain";
                          modified := lit "2024-01-05T10:00:00.000Z";
                          link := lit "file://transcripts/2024-01-05 10.00.00 notes.txt";
                          preview := lit "Budget review" |}]))
    by (vm_compute; reflexivity).
  destruct (results_bounded_and_sorted (runtime := example_runtime)
              example_search_world example_search _ E)
    as (Hdefault & Hbound & Hsorted).
  split; [exact E|].
  rewrite (Hdefault eq_refl) in Hbound |- *.
  destruct Hbound as (_ & Hle & _).
  split; [reflexivity|]. split; [by apply Hle|].
  apply (Hsorted compare_units_consistent).
  intros a b _ _. apply compare_units_lex_le.
Defined.

(** C2 as stated fails for a negative limit: with [limit=-5] the search
    succeeds with an empty list, and [0 <= Math.min(-5, 50)] is false. *)
Lemma negative_limit_counterexample :
  exists rs,
    findTranscripts example_search_world example_negative_limit
    = Ok (SearchResults rs)
    /\ limit_of example_negative_limit = num_of_Z (-5)
    /\ ~ length_le (length rs) (limit_of example_negative_limit).
Proof.
  exists []. split; [vm_compute; reflexivity|].
  split; [vm_compute; reflexivity|].
  vm_compute. intros H. by apply H.
Qed.

(** The scenario of the specification with the default limit: the search
    returns the one entry the scan has pushed. *)
Lemma returned_list_is_scan_sorted_witness :
  exists st tf,
    scanFolder example_path_join (config_of example_search)
      (lit "./transcripts") 0
      (Ok (ECons example_notes_name (File 0 (Ok example_notes_body))
             (ECons (lit "2024-02-01 09.00.00 other.txt")
                    (File 0 (Ok (lit "nothing here"))) ENil)))
      initial_scan_state = Ok st
    /\ results st = [tf]
    /\ findTranscripts example_search_world example_search
       = Ok (SearchResults [tf]).
Proof.
  eexists _, _. split; [vm_compute; reflexivity|].
  split; [reflexivity|].
  destruct (returned_list_is_scan_sorted (runtime := example_runtime)
              example_search_world example_search 10
              ltac:(vm_compute; reflexivity) compare_units_consistent)
    as [H _].
  destruct (H eq_refl _ _ eq_refl ltac:(vm_compute; reflexivity))
    as (rs & Hfind & Hperm & _).
  apply Permutation_singleton_l in Hperm. subst rs. exact Hfind.
Defined.

(** The preview of the scenario's content match. *)
Lemma keyword_check_preview_witness :
  (keyword_check (keywords_of (Some (lit "budget"))) example_notes_name
     (Ok example_notes_body) 0).1.2
  = makePreview example_notes_body 500
  /\ makePreview example_notes_body 500 = lit "Budget review".
Proof.
  destruct (keyword_check_preview (runtime := example_runtime)
              (Some (lit "budget")) [lit "budget"] example_notes_name
              (Ok example_notes_body) 0 budget_words ltac:(discriminate)
              example_lower_blank) as (_ & H & _).
  destruct (H example_notes_body) as (_ & Hpv & _).
  - intros Hin.
    apply (anyKeywordHit_spec example_notes_name [lit "budget"]) in Hin;
      [|discriminate].
    vm_compute in Hin. discriminate Hin.
  - reflexivity.
  - reflexivity.
  - apply anyKeywordHit_spec; [discriminate|]. reflexivity.
  - split; [exact Hpv | reflexivity].
Defined.

(** The Drive document matches [budget] by its content, and the Drive
    search of the scenario returns it. *)
Lemma gdrive_keyword_match_rule_witness :
  (exists tf,
      results (gdriveFile 1704448800000 (config_of example_search)
                 example_drive_file initial_scan_state) = [tf]
      /\ name tf = lit "Weekly sync")
  /\ (exists tf hits,
        findTranscriptsGDrive (with_drive example_drive example_world)
          example_search = SearchResults [tf]
        /\ name tf = lit "Weekly sync"
        /\ scan_hits [lit "budget"] 0
             (drive_candidates (with_drive example_drive example_world)
                example_search) hits
        /\ Permutation [tf] (take 10 hits)).
Proof.
  destruct (gdrive_keyword_match_rule (runtime := example_runtime)
              (with_drive example_drive example_world) example_search
              [lit "budget"] budget_words ltac:(discriminate))
    as [Hturn Hquery].
  split.
  - destruct (Hturn 1704448800000 example_drive_file initial_scan_state
                eq_refl) as [[_ H] _].
    destruct H as (tf & Hr & Hn).
    + right. split; [|split].
      * intros Hin.
        apply (anyKeywordHit_spec (f_name example_drive_file) [lit "budget"])
          in Hin; [|discriminate].
        vm_compute in Hin. discriminate Hin.
      * reflexivity.
      * eexists. split; [reflexivity|].
        apply anyKeywordHit_spec; [discriminate|]. reflexivity.
    + exists tf. split; [exact Hr | exact Hn].
  - eexists.
    destruct (Hquery 10%nat _ ltac:(vm_compute; reflexivity)
                ltac:(vm_compute; reflexivity)) as (hits & Hhits & Hperm).
    exists hits. split; [vm_compute; reflexivity|].
    split; [reflexivity|]. split; [exact Hhits | exact Hperm].
Defined.

(** A file three folders down is found, and the search gives what it gives
    without the folder of the fourth level. *)
Lemma deep_folders_are_not_read_witness :
  exists tf,
    findTranscriptsLocal example_deep_world example_plain_search
    = Ok (SearchResults [tf])
    /\ id tf = lit "transcripts/a/b/c/2024-03-01 08.00.00 deep.txt"
    /\ findTranscriptsLocal
         (with_local_root (pruned_root (local_root example_deep_world))
            example_deep_world) example_plain_search
       = Ok (SearchResults [tf]).
Proof.
  destruct (deep_folders_are_not_read (runtime := example_runtime)
              example_deep_world example_plain_search) as [Hprune Hread].
  assert (Hc : exists f,
             local_candidates example_deep_world example_plain_search = [f]
             /\ id (c_entry f [])
                = lit "transcripts/a/b/c/2024-03-01 08.00.00 deep.txt").
  { eexists. split; [vm_compute; reflexivity | reflexivity]. }
  destruct Hc as (f & Hc & Hid).
  assert (Hfind : exists tf,
             findTranscriptsLocal example_deep_world example_plain_search
             = Ok (SearchResults [tf]))
    by (eexists; vm_compute; reflexivity).
  destruct Hfind as (tf & Hfind).
  assert (Hin : c_entry f [] ∈ [tf]).
  { apply (Hread 10%nat [tf] f).
    - vm_compute. reflexivity.
    - exact Hfind.
    - simpl. lia.
    - rewrite Hc. by left.
    - left. constructor. }
  apply list_elem_of_singleton in Hin. subst tf.
  exists (c_entry f []). split; [exact Hfind|]. split; [exact Hid|].
  rewrite Hprune. exact Hfind.
Defined.

(** The listing of the scenario's Drive folder holds the file of the
    subfolder and not the subfolder. *)
Lemma drive_listing_holds_no_folder_witness :
  exists allFiles f,
    gdriveListAllFiles example_drive 0 = Ok allFiles
    /\ f_name f = lit "2023-12-01 09.00.00 retro.txt"
    /\ f ∈ allFiles
    /\ Forall (fun g => f_mimeType g ≠ FOLDER_MIME) allFiles.
Proof.
  destruct (drive_listing_holds_no_folder example_drive) as [Hlist _].
  eexists _, _.
  split; [vm_compute; reflexivity|].
  match goal with
  | |- _ /\ _ ∈ ?l /\ _ =>
      destruct (Hlist l ltac:(vm_compute; reflexivity)) as [Hin Hfiles]
  end.
  split; [|split].
  2:{ apply Hin. eapply listed_below.
      - apply list_elem_of_In. vm_compute. right. left. reflexivity.
      - reflexivity.
      - eapply listed_here.
        + apply list_elem_of_In. vm_compute. left. reflexivity.
        + vm_compute. discriminate. }
  - reflexivity.
  - eapply Forall_impl; [exact Hfiles|]. by intros g [_ Hg].
Defined.

(** The keywords of [ Budget,, Review ]. *)
Lemma keywords_are_lowercase_words_witness :
  words_of (lit " Budget,, Review ") [lit "Budget"; lit "Review"]
  /\ keywords_of (Some (lit " Budget,, Review ")) = [lit "budget"; lit "review"].
Proof.
  destruct (keywords_are_lowercase_words (runtime := example_runtime)
              (Some (lit " Budget,, Review "))) as (ws & Hw & Honly & Hk & _).
  assert (E : ws = [lit "Budget"; lit "Review"]).
  { symmetry. apply Honly. simpl or_default.
    apply (words_more (lit " ") (lit "Budget") (lit ",, Review ") [lit "Review"]).
    - repeat constructor.
    - discriminate.
    - repeat constructor.
    - right. by eexists _, _.
    - apply (words_more (lit ",, ") (lit "Review") (lit " ") []).
      + repeat constructor.
      + discriminate.
      + repeat constructor.
      + right. by eexists _, _.
      + constructor. repeat constructor. }
  subst ws. split; [exact Hw|]. rewrite Hk. reflexivity.
Defined.

(** ** The other properties on the data of the scenario *)

(** [to=2024-01-05]: the bound is 2024-01-06T00:00:00Z and a file of
    10:00 on 5 January passes. *)
Lemma to_date_bound_witness :
  toMs (config_of example_to_query) = Some 1704499200000
  /\ at_or_after_to (toMs (config_of example_to_query)) 1704448800000 = false.
Proof.
  destruct (to_date_bound example_to_query (lit "2024-01-05") 2024 1 5)
    as (Hbound & Hin & _); try lia.
  - left. reflexivity.
  - reflexivity.
  - split; [exact Hbound|]. apply Hin. vm_compute. reflexivity.
Defined.

(** The data store is down: the response carries the error. *)
Lemma ask_failure_keeps_conversation_witness :
  (run example_down_env (api example_world example_ask initial_stores)).1
  = RFailure (lit "Error: Supabase HTTP 503: unavailable").
Proof.
  destruct (ask_failure_keeps_conversation (runtime := example_runtime)
              example_world example_down_env example_ask initial_stores
              (Error (lit "Supabase HTTP 503: unavailable")) eq_refl) as [A _].
  destruct (A eq_refl) as [H _]. exact H.
Defined.

(** A first question about a transcript that can be read: the prompt that
    is sent and stored holds the question and the two lines of the
    transcript, without the carriage return. *)
Lemma askTranscript_context_witness :
  exists len st' prompt,
    run example_reading_env (askTranscript example_asktranscript initial_stores)
    = (Ok (TranscriptAnswer (lit "<ul><li>Ana</li></ul>") len true), st')
    /\ stored_transcriptId st' (lit "tr_default") = Some (lit "/data/missing.txt")
    /\ stored_transcript_history st' (lit "tr_default")
       = [Turn User prompt; Turn Model (lit "<ul><li>Ana</li></ul>")]
    /\ holds_transcript prompt (lit "Who spoke?")
         (lit "Ana: welcome." ++ [10]%N ++ lit "Ben: thanks.").
Proof.
  destruct (askTranscript_context example_reading_env example_asktranscript
              initial_stores
              (lit "Ana: welcome." ++ [13; 10]%N ++ lit "Ben: thanks."))
    as (A & _ & (text & _ & Honly & Hprompt) & _).
  - vm_compute. discriminate.
  - vm_compute. discriminate.
  - reflexivity.
  - vm_compute. discriminate.
  - destruct A as [_ A].
    + unfold stored_transcriptId, initial_stores. cbn [transcriptConversations].
      rewrite lookup_empty. discriminate.
    + destruct (A _ eq_refl) as (len & st' & Hrun & _ & Hhist & Hid).
      exists len, st'. eexists.
      split; [exact Hrun|]. split; [exact Hid|]. split; [exact Hhist|].
      rewrite (Honly (lit "Ana: welcome." ++ [10]%N ++ lit "Ben: thanks.")).
      * exact Hprompt.
      * exists []. split; [reflexivity|]. split; [by left|].
        apply Nat.leb_le. vm_compute. reflexivity.
Defined.

(** The twenty-first exchange of session [s1]. *)
Lemma ask_followup_drops_oldest_exchange_witness :
  exists reply st',
    run example_env (ask example_ask example_full_stores) = (Ok reply, st')
    /\ length (stored_history st' (lit "s1")) = 40%nat
    /\ a_conversationLength reply == 20.
Proof.
  destruct (ask_followup_drops_oldest_exchange example_env example_ask
              example_full_stores example_fetched (lit "<ul><li>Budget</li></ul>"))
    as (reply & st' & Hrun & Hh & Hlen & _).
  - reflexivity.
  - reflexivity.
  - reflexivity.
  - reflexivity.
  - exists reply, st'. split; [exact Hrun|]. split; [|exact Hlen].
    change (length (stored_history st' (session_of example_ask)) = 40%nat).
    rewrite Hh. reflexivity.
Defined.

(** The header [Basic dXNlcjpzZWNyZXQ=] passes for the password [secret]. *)
Lemma password_protection_accepts_witness :
  middleware example_decode (Some (lit "secret"))
    (Some (lit "Basic dXNlcjpzZWNyZXQ=")) = Next.
Proof.
  destruct (password_protection_accepts example_decode (lit "secret")
              (Some (lit "Basic dXNlcjpzZWNyZXQ=")) ltac:(discriminate))
    as [[_ H] _].
  apply H. eexists. split; [reflexivity|].
  exists (lit "dXNlcjpzZWNyZXQ="). split; [|split].
  - apply split_at_second. reflexivity.
  - reflexivity.
  - apply split_at_second. reflexivity.
Defined.

(** No header passes for the password [a:b]. *)
Lemma password_with_colon_admits_nobody_witness :
  middleware example_decode (Some (lit "a:b"))
    (Some (lit "Basic dXNlcjpzZWNyZXQ=")) ≠ Next.
Proof.
  apply password_with_colon_admits_nobody.
  change (lit "a:b") with [97; 58; 98]%N.
  apply elem_of_cons. right. apply elem_of_cons. by left.
Defined.

(** The search of the scenario returns the file whose content holds the
    keyword. *)
Lemma local_results_are_transcripts_in_window_witness :
  exists r,
    findTranscriptsLocal example_search_world example_search
    = Ok (SearchResults [r])
    /\ local_entry example_path_join (config_of example_search) r.
Proof.
  eexists. split; [vm_compute; reflexivity|].
  pose proof (local_results_are_transcripts_in_window
                (runtime := example_runtime) example_search_world
                example_search _ ltac:(vm_compute; reflexivity)) as H.
  by inversion H.
Defined.

(** 10:00 on 5 January 2024 and 09:00 on 1 February 2024. *)
Lemma modified_order_is_time_order_witness :
  lex_le (toISOString 1704448800000) (toISOString 1706778000000).
Proof.
  apply modified_order_is_time_order; unfold four_digit_year; lia.
Defined.

(** [0024-02-29] is read as 29 February 1924. *)
Lemma parseDateInput_writes_the_date_witness :
  parseDateInput (Some (lit "0024-02-29")) false
  = Some (lit "1924-02-29T00:00:00.000Z").
Proof.
  apply (parseDateInput_writes_the_date (lit "0024-02-29") 24 2 29).
  - lia.
  - vm_compute. repeat split; discriminate.
  - left. reflexivity.
Defined.

(** [2024-02-30] is read as [2024-03-01]. *)
Lemma parseDateInput_day_overflow_witness :
  parseDateInput (Some (lit "2024-02-30")) false
  = parseDateInput (Some (lit "2024-03-01")) false.
Proof.
  apply (parseDateInput_day_overflow 2024 2 30 false).
  - lia.
  - lia.
  - vm_compute. split; [reflexivity | discriminate].
Defined.

(** From 5 January 2024 to 5 January 2024: 10:00 on that day passes. *)
Lemma date_window_witness : in_window (config_of example_day_query) 1704448800000.
Proof.
  apply (date_window example_day_query (lit "2024-01-05") (lit "01/05/2024")
           2024 1 5 2024 1 5); try lia.
  - left. reflexivity.
  - right. reflexivity.
  - reflexivity.
  - reflexivity.
  - vm_compute. discriminate.
  - vm_compute. discriminate.
  - vm_compute. split; [discriminate | reflexivity].
Defined.

(** The name of the scenario's file. *)
Lemma name_stamp_dates_the_file_witness :
  parseNameTimestampMs example_notes_name = Some 1704448800000
  /\ toISOString 1704448800000 = lit "2024-01-05T10:00:00.000Z".
Proof.
  destruct (name_stamp_dates_the_file 2024 1 5 10 0 0 45 45 32 46 46
              (lit " notes.txt")) as (H1 & H2 & _); try lia.
  - vm_compute. repeat split; discriminate.
  - apply elem_of_cons; by left.
  - apply elem_of_cons; by left.
  - apply elem_of_cons; by left.
  - apply elem_of_cons; by left.
  - apply elem_of_cons; by left.
  - reflexivity.
  - split; [exact H1 | exact H2].
Defined.

(** The Drive search of the scenario returns the document, not the folder
    named [archive.txt]. *)
Lemma drive_results_are_listed_transcripts_witness :
  exists r,
    findTranscriptsGDrive (with_drive example_drive example_world) example_search
    = SearchResults [r]
    /\ name r = lit "Weekly sync".
Proof.
  eexists. split; [vm_compute; reflexivity|].
  pose proof (drive_results_are_listed_transcripts
                (runtime := example_runtime) example_drive example_world
                example_search _ ltac:(vm_compute; reflexivity)) as H.
  apply Forall_inv in H as (f & _ & _ & Hn & _). reflexivity.
Defined.

(** The topic [R&D] is sent as [R%26D], and the limit 0 as 100. *)
Lemma filters_cannot_add_parameters_witness :
  restUrl_of example_Number_toString (lit "https://db.example/")
    example_topic_params
  = Ok (lit "https://db.example/rest/v1/meetings?select=*&date=gte.2024-01-01&or=(countries.ilike.*Spain*,countries.ilike.*Italy*)&or=(headline.ilike.*R%26D*,summary.ilike.*R%26D*)&order=date.desc&limit=100").
Proof.
  destruct (filters_cannot_add_parameters example_Number_toString
              (lit "https://db.example/") example_topic_params _
              ltac:(vm_compute; reflexivity)) as (_ & H & _).
  rewrite H. vm_compute. reflexivity.
Defined.

(** [asktranscript] for a path that does not exist. *)
Lemma askTranscript_unreadable_witness :
  (run example_env (api example_world example_asktranscript initial_stores)).1
  = RTranscript (TranscriptFailure
      (lit "Failed to read transcript: ENOENT: no such file or directory")).
Proof.
  destruct (askTranscript_unreadable example_env example_asktranscript
              initial_stores (Error (lit "ENOENT: no such file or directory")))
    as (_ & _ & H).
  - vm_compute. discriminate.
  - reflexivity.
  - destruct H as (_ & _ & H).
    + vm_compute. discriminate.
    + apply H. reflexivity.
Defined.

(** C6: the preview of a content match is longer than 500 characters when
    the collapsed text is.  In the scenario the text is [budget] followed by
    600 letters: the file matches by its content, its preview is
    [makePreview(body, 500)] and has 502 characters: the first 499 of the
    collapsed text and the three characters of the suffix literal.  The same
    holds for every text whose collapsed form is longer than 500. *)
Theorem preview_longer_than_500 :
  (exists tf,
      results (scanFile (config_of example_search)
                 (lit "transcripts/2024-01-05 10.00.00 notes.txt")
                 example_notes_name 0 (Ok example_long_body)
                 initial_scan_state) = [tf]
      /\ preview tf = makePreview example_long_body 500
      /\ length (preview tf) = 502%nat)
  /\ (forall text,
        (500 < length (trim (collapse_spaces text)))%nat ->
        length (makePreview text 500) = 502%nat).
Proof.
  split.
  - eexists. split; [vm_compute; reflexivity|]. split; vm_compute; reflexivity.
  - intros text H. rewrite makePreview_length by lia.
    apply Nat.ltb_lt in H. by rewrite H.
Qed.

(** C3 at [to=1969-12-31]: the bound advanced by one day is the time value
    0, the test [toMs && nameMs >= toMs] is false for every timestamp, and
    the search returns the files of 2024: no upper bound is applied. *)
Theorem epoch_to_bound_not_applied :
  parseDateInput (q_to example_epoch_query) true
  = Some (lit "1970-01-01T00:00:00.000Z")
  /\ toMs (config_of example_epoch_query) = Some 0
  /\ (forall nameMs,
        at_or_after_to (toMs (config_of example_epoch_query)) nameMs = false)
  /\ exists tf1 tf2,
       findTranscripts example_search_world example_epoch_query
       = Ok (SearchResults [tf1; tf2])
       /\ modified tf1 = lit "2024-02-01T09:00:00.000Z"
       /\ modified tf2 = lit "2024-01-05T10:00:00.000Z".
Proof.
  split; [vm_compute; reflexivity|].
  assert (E : toMs (config_of example_epoch_query) = Some 0)
    by (vm_compute; reflexivity).
  split; [exact E|]. split; [intros nameMs; by rewrite E|].
  eexists _, _. split; [vm_compute; reflexivity|]. split; reflexivity.
Qed.
